(** * gocal: an expression calculator with a float mode and a money mode

    A shallow embedding of package [math] of the repository
    ([math.go]: lexer, shunting-yard parser, float evaluator;
    [money.go]: fixed-point evaluator over int64 cents), followed by the
    properties of the specification that were checked against it.

    Conventions of the embedding.
    - A Go [string] is a sequence of bytes: [string] of [ascii].
    - [float64] is the kernel's binary64 type [float] (IEEE 754 operations).
    - [int], [int64] and [uint64] are [Z]; every place where the Go value
      could wrap carries its reduction ([wrap64], [wrapU64]) explicitly.
    - A Go [(T, error)] result is [result T]; every distinct error message of
      the source is one constructor of [error], with the formatted operand.
    - Go slices used as stacks ([stack], [funcParen], [argCount], [st]) are
      lists whose HEAD is the top of the stack (the last slice element);
      [out] and [tokens] are lists in slice order. *)

From Stdlib Require Import ZArith List String Ascii Bool Lia.
From Stdlib Require Import PrimFloat FloatOps SpecFloat.
From Stdlib Require FloatAxioms.
Import ListNotations.

Local Open Scope string_scope.
Local Open Scope Z_scope.

(** ** Errors and results *)

Inductive error : Type :=
  (* tokenize *)
  | ErrInvalidNumber (near : string)        (* invalid number near %q *)
  | ErrInvalidExponent (near : string)      (* invalid exponent in number near %q *)
  | ErrParseNumber (txt : string)           (* failed to parse number %q: %w *)
  | ErrUnexpectedChar (c : string)          (* unexpected character: %q *)
  (* toRPN *)
  | ErrFuncNotCalled (name : string)        (* function %q must be called with parentheses *)
  | ErrMisplacedComma                       (* comma must appear inside function arguments *)
  | ErrMismatchedParens                     (* mismatched parentheses *)
  | ErrMissingFuncName                      (* function call missing name *)
  | ErrFuncMissingParens                    (* function call missing parentheses *)
  (* evalRPN and evalRPNMoney *)
  | ErrNotEnoughOperands                    (* not enough operands *)
  | ErrInvalidArgCount                      (* invalid argument count *)
  | ErrExpects1 (name : string)             (* function %q expects 1 argument *)
  | ErrExpectsAtLeast2 (name : string)      (* function %q expects at least 2 arguments *)
  | ErrExpects2 (name : string)             (* function %q expects 2 arguments *)
  | ErrUnknownFunction (name : string)      (* unknown function: %q *)
  | ErrUnknownOperator (op : string)        (* unknown operator: %q *)
  | ErrUnexpectedToken                      (* unexpected token in RPN *)
  | ErrExtraValues                          (* expression error: extra values *)
  (* evalRPNMoney only *)
  | ErrNonNumericLiteral (txt : string)     (* non-numeric literal %q not supported in money expressions *)
  | ErrMoneyFunction (name : string)        (* function %q not supported in money expressions *)
  | ErrMoneyOperator (op : string)          (* operator %q not supported in money expressions *)
  | ErrOverflowAbs                          (* overflow while computing abs *)
  | ErrOverflowNeg                          (* overflow while negating value *)
  (* parseCents *)
  | ErrEmptyNumber                          (* empty number *)
  | ErrExponentNotation (txt : string)      (* exponent notation not supported in money expressions: %q *)
  | ErrInvalidMoney (txt : string)          (* invalid money number %q *)
  | ErrInvalidMoneyRange (txt : string)     (* invalid money number %q: %w (strconv range or syntax error) *)
  | ErrTooManyDecimals (txt : string)       (* too many decimal places in %q *)
  | ErrMoneyOverflow (txt : string)         (* money value overflow for %q *)
  (* checked int64 arithmetic *)
  | ErrOverflowAdd                          (* overflow while adding values *)
  | ErrOverflowSub                          (* overflow while subtracting values *)
  | ErrOverflowMul                          (* overflow while multiplying values *)
  | ErrDivisionByZero                       (* division by zero *)
  (* run-time panic of the Go program (index out of range) *)
  | Panic
  (* the loop bound of [tokenizeLoop] was reached; see [tokenize_total] *)
  | OutOfFuel.

Inductive result (A : Type) : Type :=
  | Ok (a : A)
  | Err (e : error).
Arguments Ok {A} a.
Arguments Err {A} e.

Definition bind {A B : Type} (r : result A) (k : A -> result B) : result B :=
  match r with
  | Ok a => k a
  | Err e => Err e
  end.

Notation "x <- c ;; k" := (bind c (fun x => k))
  (at level 61, c at next level, right associativity).
Notation "' p <- c ;; k" := (bind c (fun x => let 'p := x in k))
  (at level 61, p pattern, c at next level, right associativity).

(** ** Bytes and strings *)

Definition code (c : ascii) : N := N_of_ascii c.

Definition between (lo hi c : ascii) : bool :=
  (code lo <=? code c)%N && (code c <=? code hi)%N.

Definition isDigit (c : ascii) : bool := between "0" "9" c.

(** [unicode.IsSpace(rune(s[i]))]: the byte is widened to a rune below
    U+0100, where the white-space property holds for tab, line feed,
    vertical tab, form feed, carriage return, space, U+0085 and U+00A0. *)
Definition IsSpace (c : ascii) : bool :=
  let n := code c in
  ((9 <=? n) && (n <=? 13) || (n =? 32) || (n =? 133) || (n =? 160))%N.

Definition isOpByte (b : ascii) : bool :=
  Ascii.eqb b "+" || Ascii.eqb b "-" || Ascii.eqb b "*" ||
  Ascii.eqb b "/" || Ascii.eqb b "^" || Ascii.eqb b "%".

Definition isIdentStart (b : ascii) : bool :=
  between "a" "z" b || between "A" "Z" b || Ascii.eqb b "_".

Definition isIdentContinue (b : ascii) : bool :=
  isIdentStart b || between "0" "9" b.

(** [isNumStart(s, i)], on the suffix [s[i:]]. *)
Definition isNumStart (s : string) : bool :=
  match s with
  | EmptyString => false
  | String c rest =>
      if isDigit c then true
      else if Ascii.eqb c "." then
        match rest with
        | String c' _ => isDigit c'
        | EmptyString => false
        end
      else false
  end.

(** The longest prefix of bytes satisfying [p], and what follows it: the
    loops [for i < len(s) && p(s[i]) { i++ }]. *)
Fixpoint span (p : ascii -> bool) (s : string) : string * string :=
  match s with
  | EmptyString => (EmptyString, EmptyString)
  | String c rest =>
      if p c then let '(a, b) := span p rest in (String c a, b)
      else (EmptyString, s)
  end.

Definition lowerByte (c : ascii) : ascii :=
  if between "A" "Z" c then ascii_of_N (code c + 32) else c.

(** [strings.ToLower] on the bytes an identifier can hold (ASCII). *)
Fixpoint ToLower (s : string) : string :=
  match s with
  | EmptyString => EmptyString
  | String c rest => String (lowerByte c) (ToLower rest)
  end.

Definition str1 (c : ascii) : string := String c EmptyString.

Fixpoint inb (s : string) (l : list string) : bool :=
  match l with
  | [] => false
  | x :: l' => String.eqb s x || inb s l'
  end.

(** ** Tokens *)

Inductive TokenType : Type :=
  | TNumber | TOp | TFunc | TComma | TLParen | TRParen.

Definition TokenType_eqb (a b : TokenType) : bool :=
  match a, b with
  | TNumber, TNumber | TOp, TOp | TFunc, TFunc
  | TComma, TComma | TLParen, TLParen | TRParen, TRParen => true
  | _, _ => false
  end.

Record Token : Type := mkToken {
  Typ : TokenType;
  Text : string;
  Value : float;
  Arity : Z
}.

(** A composite literal [Token{Typ: ty, Text: txt}]: the other fields hold
    Go's zero values. *)
Definition tok (ty : TokenType) (txt : string) : Token :=
  mkToken ty txt 0%float 0.

Definition numTok (txt : string) (v : float) : Token :=
  mkToken TNumber txt v 0.

Definition withText (t : Token) (txt : string) : Token :=
  mkToken (Typ t) txt (Value t) (Arity t).

Definition withArity (t : Token) (n : Z) : Token :=
  mkToken (Typ t) (Text t) (Value t) n.

(** ** The constant table *)

(** [math.Pi] and [math.E] as float64 values. *)
Definition Pi : float := 0x1.921fb54442d18p+1%float.
Definition E : float := 0x1.5bf0a8b145769p+1%float.

(** [var constants = map[string]float64{"pi": math.Pi, "e": math.E}]. *)
Definition constants : list (string * float) :=
  [("pi", Pi); ("e", E)].

Fixpoint lookup (name : string) (m : list (string * float)) : option float :=
  match m with
  | [] => None
  | (k, v) :: m' => if String.eqb name k then Some v else lookup name m'
  end.

(** ** Decimal literals to float64: [strconv.ParseFloat]

    [strconv.ParseFloat(txt, 64)] belongs to Go's standard library, not to
    this repository.  It is modelled by its contract on the texts the lexer
    scans (digits with an optional point and an optional decimal exponent):
    the float64 nearest to the decimal value, ties to even, and a range error
    when that value rounds to infinity.  Any other text is a syntax error. *)

Definition digitVal (c : ascii) : Z := Z.of_N (code c) - 48.

Fixpoint digitsToZ (acc : Z) (s : string) : Z :=
  match s with
  | EmptyString => acc
  | String c rest => digitsToZ (10 * acc + digitVal c) rest
  end.

Definition isExpMark (c : ascii) : bool := Ascii.eqb c "e" || Ascii.eqb c "E".
Definition isSign (c : ascii) : bool := Ascii.eqb c "+" || Ascii.eqb c "-".

(** The decimal exponent that may follow the mantissa; [None] when the text
    is not of the form [[eE][+-]?[0-9]+]. *)
Definition readExponent (s : string) : option Z :=
  match s with
  | EmptyString => Some 0
  | String c rest =>
      if isExpMark c then
        let '(neg, digits) :=
          match rest with
          | String c' rest' =>
              if isSign c' then (Ascii.eqb c' "-", rest') else (false, rest)
          | EmptyString => (false, rest)
          end in
        let '(ds, tail) := span isDigit digits in
        match ds, tail with
        | String _ _, EmptyString =>
            Some (if neg then - digitsToZ 0 ds else digitsToZ 0 ds)
        | _, _ => None
        end
      else None
  end.

(** A literal as a pair [(m, e)] standing for [m * 10^e]. *)
Definition readDecimal (txt : string) : option (Z * Z) :=
  let '(ip, r1) := span isDigit txt in
  let '(fp, r2) :=
    match r1 with
    | String c rest => if Ascii.eqb c "." then span isDigit rest else (EmptyString, r1)
    | EmptyString => (EmptyString, r1)
    end in
  match (ip ++ fp)%string with
  | EmptyString => None
  | String _ _ =>
      match readExponent r2 with
      | Some e => Some (digitsToZ 0 (ip ++ fp), e - Z.of_nat (String.length fp))
      | None => None
      end
  end.

(** The binary64 value nearest to [m * 10^e], for [0 <= m]. *)
Definition roundDecimal (m e : Z) : spec_float :=
  if m =? 0 then S754_zero false
  else if 0 <=? e then binary_normalize prec emax (m * 10 ^ e) 0 false
  else
    let '(q, e', l) := SFdiv_core_binary prec emax m 0 (10 ^ (- e)) 0 in
    binary_round_aux prec emax false q e' l.

Definition ParseFloat (txt : string) : result float :=
  match readDecimal txt with
  | None => Err (ErrParseNumber txt)
  | Some (m, e) =>
      match roundDecimal m e with
      | S754_infinity _ => Err (ErrParseNumber txt)
      | sf => Ok (SF2Prim sf)
      end
  end.

(** ** Lexer *)

(** The inner loop of [tokenize] that scans one numeric literal.  [acc] is
    [s[start:i]], the argument string is [s[i:]]; the result is the literal's
    text and the unread rest of the input. *)
Fixpoint scanNumber (s : string) (acc : string) (dotCount : Z) (hasDigits : bool)
  : result (string * string) :=
  match s with
  | EmptyString => Ok (acc, s)
  | String c rest =>
      if Ascii.eqb c "." then
        let dotCount := dotCount + 1 in
        if 1 <? dotCount then Err (ErrInvalidNumber (acc ++ str1 c))
        else scanNumber rest (acc ++ str1 c) dotCount hasDigits
      else if isDigit c then
        scanNumber rest (acc ++ str1 c) dotCount true
      else if isExpMark c && hasDigits then
        let '(sign, afterSign) :=
          match rest with
          | String c' rest' =>
              if isSign c' then (str1 c', rest') else (EmptyString, rest)
          | EmptyString => (EmptyString, rest)
          end in
        let '(ds, tail) := span isDigit afterSign in
        match ds with
        | EmptyString => Err (ErrInvalidExponent (acc ++ str1 c ++ sign))
        | String _ _ => Ok (acc ++ str1 c ++ sign ++ ds, tail)
        end
      else Ok (acc, s)
  end.

(** The main loop of [tokenize] on the unread suffix [s[i:]].  Every
    iteration consumes at least one byte, so [String.length s] iterations
    always suffice ([tokenizeLoop_fuel]). *)
Fixpoint tokenizeLoop (fuel : nat) (s : string) (tokens : list Token)
  : result (list Token) :=
  match s with
  | EmptyString => Ok tokens
  | String c rest =>
      match fuel with
      | O => Err OutOfFuel
      | S fuel =>
          if IsSpace c then tokenizeLoop fuel rest tokens
          else if Ascii.eqb c "," then
            tokenizeLoop fuel rest (tokens ++ [tok TComma ","])
          else if Ascii.eqb c "(" then
            tokenizeLoop fuel rest (tokens ++ [tok TLParen "("])
          else if Ascii.eqb c ")" then
            tokenizeLoop fuel rest (tokens ++ [tok TRParen ")"])
          else if isOpByte c then
            tokenizeLoop fuel rest (tokens ++ [tok TOp (str1 c)])
          else if isIdentStart c then
            let '(more, rest') := span isIdentContinue rest in
            let name := ToLower (String c more) in
            match lookup name constants with
            | Some val => tokenizeLoop fuel rest' (tokens ++ [numTok name val])
            | None => tokenizeLoop fuel rest' (tokens ++ [tok TFunc name])
            end
          else if isNumStart s then
            '(txt, rest') <- scanNumber s EmptyString 0 false ;;
            val <- ParseFloat txt ;;
            tokenizeLoop fuel rest' (tokens ++ [numTok txt val])
          else Err (ErrUnexpectedChar (str1 c))
      end
  end.

Definition tokenize (s : string) : result (list Token) :=
  tokenizeLoop (String.length s) s [].

(** ** Machine integers *)

Definition MaxInt64 : Z := 2 ^ 63 - 1.
Definition MinInt64 : Z := - 2 ^ 63.

Definition inInt64 (z : Z) : Prop := MinInt64 <= z <= MaxInt64.

(** The value an [int64] (resp. [uint64]) holds after an operation whose
    mathematical result is [z]: two's-complement wrap-around. *)
Definition wrap64 (z : Z) : Z := (z + 2 ^ 63) mod 2 ^ 64 - 2 ^ 63.
Definition wrapU64 (z : Z) : Z := z mod 2 ^ 64.

(** [n++] on an [int] (64 bits on the platforms Go supports here). *)
Definition wrap_incr (n : Z) : Z := wrap64 (n + 1).

(** ** Shunting-yard parser *)

Definition precedence (op : string) : Z :=
  if String.eqb op "NEG" then 4
  else if String.eqb op "POS" then 4
  else if String.eqb op "^" then 3
  else if inb op ["*"; "/"; "%"] then 2
  else if inb op ["+"; "-"] then 1
  else 0.

Definition rightAssociative (op : string) : bool :=
  String.eqb op "^" || String.eqb op "NEG" || String.eqb op "POS".

(** The local variables of [toRPN].  [prev] is the pointer [*Token]: [None]
    is [nil], [Some t] points at the token of the previous iteration. *)
Record pstate : Type := mkP {
  out : list Token;
  stack : list Token;
  funcParen : list bool;
  argCount : list Z;
  prev : option Token
}.

Definition prevIs (prev : option Token) (ty : TokenType) : bool :=
  match prev with
  | Some p => TokenType_eqb (Typ p) ty
  | None => false
  end.

Definition prevIsNil (prev : option Token) : bool :=
  match prev with
  | Some _ => false
  | None => true
  end.

(** [TComma]: pop operators to [out] until a left parenthesis is on top; the
    parenthesis stays.  Returns [(found, stack, out)]. *)
Fixpoint popToLParen (stack out : list Token) : bool * list Token * list Token :=
  match stack with
  | [] => (false, [], out)
  | top :: below =>
      if TokenType_eqb (Typ top) TLParen then (true, stack, out)
      else popToLParen below (out ++ [top])
  end.

(** [TRParen]: pop operators to [out] until a left parenthesis is popped. *)
Fixpoint popThroughLParen (stack out : list Token) : bool * list Token * list Token :=
  match stack with
  | [] => (false, [], out)
  | top :: below =>
      if TokenType_eqb (Typ top) TLParen then (true, below, out)
      else popThroughLParen below (out ++ [top])
  end.

(** [TOp]: a [+] or [-] in prefix position becomes the marker [POS] or
    [NEG]; the change is made to the loop's copy [t] of the token. *)
Definition rewriteSign (prev : option Token) (t : Token) : Token :=
  let op := Text t in
  if (String.eqb op "-" || String.eqb op "+") &&
     (prevIsNil prev || prevIs prev TOp || prevIs prev TLParen || prevIs prev TComma)
  then withText t (if String.eqb op "-" then "NEG" else "POS")
  else t.

(** [TOp]: pop to [out] the operators on top of the stack that bind at least
    as tightly as [t] (strictly tighter when [t] is right-associative). *)
Fixpoint popOperators (t : Token) (stack out : list Token) : list Token * list Token :=
  match stack with
  | [] => ([], out)
  | top :: below =>
      if negb (TokenType_eqb (Typ top) TOp) then (stack, out)
      else
        let p1 := precedence (Text t) in
        let p2 := precedence (Text top) in
        if (rightAssociative (Text t) && (p1 <? p2)) ||
           (negb (rightAssociative (Text t)) && (p1 <=? p2))
        then popOperators t below (out ++ [top])
        else (stack, out)
  end.

(** One iteration of the main loop of [toRPN] on [t = tokens[i]]; [next] is
    [tokens[i+1]] when it exists.  The switch has a [default] branch
    (unknown token) that no value of the six-valued [TokenType] reaches. *)
Definition rpnStep (t : Token) (next : option Token) (s : pstate) : result pstate :=
  match Typ t with
  | TNumber =>
      Ok (mkP (out s ++ [t]) (stack s) (funcParen s) (argCount s) (Some t))
  | TFunc =>
      if negb (prevIs next TLParen) then Err (ErrFuncNotCalled (Text t))
      else Ok (mkP (out s) (t :: stack s) (funcParen s) (argCount s) (Some t))
  | TLParen =>
      Ok (mkP (out s) (t :: stack s)
              (prevIs (prev s) TFunc :: funcParen s) (0 :: argCount s) (Some t))
  | TComma =>
      let '(found, stack', out') := popToLParen (stack s) (out s) in
      match funcParen s with
      | true :: _ =>
          if negb found then Err ErrMisplacedComma
          else
            match argCount s with
            | n :: counts =>
                Ok (mkP out' stack' (funcParen s) (wrap_incr n :: counts) (Some t))
            | [] => Err Panic
            end
      | _ => Err ErrMisplacedComma
      end
  | TRParen =>
      let '(found, stack', out') := popThroughLParen (stack s) (out s) in
      if negb found then Err ErrMismatchedParens
      else
        match funcParen s with
        | [] => Err ErrMismatchedParens
        | isFuncCall :: frames =>
            match argCount s with
            | [] => Err Panic
            | argc :: counts =>
                if isFuncCall then
                  let argc := if prevIs (prev s) TLParen then 0 else wrap_incr argc in
                  match stack' with
                  | fn :: stack'' =>
                      if TokenType_eqb (Typ fn) TFunc
                      then Ok (mkP (out' ++ [withArity fn argc]) stack'' frames counts (Some t))
                      else Err ErrMissingFuncName
                  | [] => Err ErrMissingFuncName
                  end
                else Ok (mkP out' stack' frames counts (Some t))
            end
        end
  | TOp =>
      let t' := rewriteSign (prev s) t in
      let '(stack', out') := popOperators t' (stack s) (out s) in
      Ok (mkP out' (t' :: stack') (funcParen s) (argCount s) (Some t))
  end.

Fixpoint toRPNLoop (tokens : list Token) (s : pstate) : result pstate :=
  match tokens with
  | [] => Ok s
  | t :: rest =>
      s' <- rpnStep t (hd_error rest) s ;;
      toRPNLoop rest s'
  end.

(** The final loop of [toRPN]: what is left on the stack goes to [out]. *)
Fixpoint drain (stack out : list Token) : result (list Token) :=
  match stack with
  | [] => Ok out
  | top :: below =>
      if TokenType_eqb (Typ top) TLParen || TokenType_eqb (Typ top) TRParen
      then Err ErrMismatchedParens
      else if TokenType_eqb (Typ top) TFunc then Err ErrFuncMissingParens
      else drain below (out ++ [top])
  end.

Definition toRPN (tokens : list Token) : result (list Token) :=
  s <- toRPNLoop tokens (mkP [] [] [] [] None) ;;
  drain (stack s) (out s).

(** ** Go's package [math]

    The float evaluator calls functions of Go's standard library.  Those
    that IEEE 754 determines ([Sqrt], [Abs]) are the kernel's operations.
    [Pow] is transcribed from the library's portable implementation
    ([math/pow.go], used on every architecture but s390x), because several
    properties below depend on its value.  The remaining ones are the
    fields of [MathLib]: every statement about the evaluator holds for any
    implementation of them. *)

Record MathLib : Type := {
  Sin : float -> float;
  Cos : float -> float;
  Tan : float -> float;
  Asin : float -> float;
  Acos : float -> float;
  Atan : float -> float;
  Log : float -> float;
  Log10 : float -> float;
  Exp : float -> float;
  Floor : float -> float;
  Ceil : float -> float;
  Round : float -> float;
  Atan2 : float -> float -> float
}.

Definition Sqrt : float -> float := PrimFloat.sqrt.
Definition Abs : float -> float := PrimFloat.abs.
Definition IsNaN (f : float) : bool := is_nan f.
Definition IsInfPos (f : float) : bool := (f =? infinity)%float.   (* IsInf(f, 1) *)
Definition IsInfNeg (f : float) : bool := (f =? neg_infinity)%float. (* IsInf(f, -1) *)
Definition IsInfAny (f : float) : bool := IsInfPos f || IsInfNeg f. (* IsInf(f, 0) *)

(** [Signbit] on the values [pow] passes to it (never a NaN). *)
Definition Signbit (f : float) : bool := get_sign f.

(** The float64 holding the integer [z] (rounded when [2^53 < |z|]). *)
Definition floatOfZ (z : Z) : float := SF2Prim (binary_normalize prec emax z 0 false).

(** The integer part of a finite float, toward zero. *)
Definition truncZ (f : float) : Z :=
  match Prim2SF f with
  | S754_finite s m e =>
      let v := if 0 <=? e then Z.shiftl (Zpos m) e else Z.shiftr (Zpos m) (- e) in
      if s then - v else v
  | _ => 0
  end.

(** [Modf] on [1 <= f], infinities and NaN: the fraction bits are cleared. *)
Definition truncFloat (f : float) : float :=
  match Prim2SF f with
  | S754_finite _ m e => if 0 <=? e then f else floatOfZ (truncZ f)
  | _ => f
  end.

Definition modfNonneg (f : float) : float * float :=
  if (f <? 1)%float then
    if (f =? 0)%float then (f, f) else (0%float, f)
  else let i := truncFloat f in (i, (f - i)%float).

Definition Modf (f : float) : float * float :=
  if (f <? 1)%float && (f <? 0)%float then
    let '(i, fr) := modfNonneg (- f)%float in ((- i)%float, (- fr)%float)
  else modfNonneg f.

Definition Frexp (f : float) : float * Z :=
  if (f =? 0)%float || IsInfAny f || IsNaN f then (f, 0) else FloatOps.Z.frexp f.

Definition Ldexp (frac : float) (exp : Z) : float := FloatOps.Z.ldexp frac exp.

Definition isOddInt (x : float) : bool :=
  if (0x1p53 <=? Abs x)%float then false
  else
    let '(xi, xf) := Modf x in
    (xf =? 0)%float && Z.odd (truncZ xi).

(** The loop [for i := int64(yi); i != 0; i >>= 1] of [pow], by recursion on
    the binary digits of [i]: [a1 * 2^ae] accumulates [x^yi] while
    [x1 * 2^xe] runs through the repeated squares of [x]. *)
Fixpoint powLoop (i : positive) (x1 : float) (xe : Z) (a1 : float) (ae : Z)
  : float * Z :=
  if (xe <? - 2 ^ 12) || (2 ^ 12 <? xe) then (a1, ae + xe)
  else
    let '(a1, ae) := if Z.odd (Zpos i) then ((a1 * x1)%float, ae + xe) else (a1, ae) in
    let x1 := (x1 * x1)%float in
    let xe := 2 * xe in
    let '(x1, xe) := if (x1 <? 0.5)%float then ((x1 + x1)%float, xe - 1) else (x1, xe) in
    match i with
    | xH => (a1, ae)
    | xO i' | xI i' => powLoop i' x1 xe a1 ae
    end.

Section Pow.

Context (M : MathLib).

(** The body of [pow]; [self] stands for the one recursive call
    [Pow(1/x, -y)], made when [x] is minus infinity. *)
Definition powBody (self : float -> float -> float) (x y : float) : float :=
  let special : option float :=
    if (y =? 0)%float || (x =? 1)%float then Some 1%float
    else if (y =? 1)%float then Some x
    else if IsNaN x || IsNaN y then Some nan
    else if (x =? 0)%float then
      if (y <? 0)%float then
        if Signbit x && isOddInt y
        then Some (if Signbit x then neg_infinity else infinity)
        else Some infinity
      else if (0 <? y)%float then
        if Signbit x && isOddInt y then Some x else Some 0%float
      else None
    else if IsInfAny y then
      if (x =? -1)%float then Some 1%float
      else if Bool.eqb (Abs x <? 1)%float (IsInfPos y) then Some 0%float
      else Some infinity
    else if IsInfAny x then
      if IsInfNeg x then Some (self (1 / x)%float (- y)%float)
      else if (y <? 0)%float then Some 0%float
      else if (0 <? y)%float then Some infinity
      else None
    else if (y =? 0.5)%float then Some (Sqrt x)
    else if (y =? -0.5)%float then Some (1 / Sqrt x)%float
    else None in
  match special with
  | Some r => r
  | None =>
      let '(yi, yf) := Modf (Abs y) in
      if negb (yf =? 0)%float && (x <? 0)%float then nan
      else if (0x1p63 <=? yi)%float then
        if (x =? -1)%float then 1%float
        else if Bool.eqb (Abs x <? 1)%float (0 <? y)%float then 0%float
        else infinity
      else
        let '(yi, a1) :=
          if negb (yf =? 0)%float then
            let '(yf, yi) :=
              if (0.5 <? yf)%float then ((yf - 1)%float, (yi + 1)%float) else (yf, yi) in
            (yi, Exp M (yf * Log M x)%float)
          else (yi, 1%float) in
        let '(x1, xe) := Frexp x in
        let '(a1, ae) :=
          match truncZ yi with
          | Zpos i => powLoop i x1 xe a1 0
          | _ => (a1, 0)
          end in
        let '(a1, ae) := if (y <? 0)%float then ((1 / a1)%float, - ae) else (a1, ae) in
        Ldexp a1 ae
  end.

(** [math.Pow]: the recursive call is on [x = -0], which the case
    [x == 0] answers without recursion. *)
Definition Pow (x y : float) : float := powBody (powBody (fun _ _ => nan)) x y.

End Pow.

(** ** Float evaluator *)

Section FloatEvaluator.

Context (M : MathLib).

(** The closure [pop] of [evalRPN]: the popped value and the rest. *)
Definition pop (st : list float) : result (float * list float) :=
  match st with
  | [] => Err ErrNotEnoughOperands
  | v :: st' => Ok (v, st')
  end.

(** The closure [popN]: the [n] topmost values, deepest first (the order
    in which they were pushed), and the rest. *)
Definition popN (n : Z) (st : list float) : result (list float * list float) :=
  if n <? 0 then Err ErrInvalidArgCount
  else if Z.of_nat (List.length st) <? n then Err ErrNotEnoughOperands
  else Ok (rev (firstn (Z.to_nat n) st), skipn (Z.to_nat n) st).

Definition unaryFunctions : list string :=
  ["sin"; "cos"; "tan"; "asin"; "acos"; "atan"; "sqrt"; "abs"; "ln"; "log";
   "exp"; "floor"; "ceil"; "round"].

(** The inner switch of the one-argument functions. *)
Definition applyUnary (name : string) (x : float) : float :=
  if String.eqb name "sin" then Sin M x
  else if String.eqb name "cos" then Cos M x
  else if String.eqb name "tan" then Tan M x
  else if String.eqb name "asin" then Asin M x
  else if String.eqb name "acos" then Acos M x
  else if String.eqb name "atan" then Atan M x
  else if String.eqb name "sqrt" then Sqrt x
  else if String.eqb name "abs" then Abs x
  else if String.eqb name "ln" then Log M x
  else if String.eqb name "log" then Log10 M x
  else if String.eqb name "exp" then Exp M x
  else if String.eqb name "floor" then Floor M x
  else if String.eqb name "ceil" then Ceil M x
  else if String.eqb name "round" then Round M x
  else 0%float.

(** The loop of [min] and [max] over [args[1:]], starting from
    [res = args[0]]. *)
Fixpoint foldMinMax (name : string) (res : float) (args : list float) : float :=
  match args with
  | [] => res
  | a :: args' =>
      let res :=
        if String.eqb name "min"
        then (if (a <? res)%float then a else res)
        else (if (res <? a)%float then a else res) in
      foldMinMax name res args'
  end.

(** The inner switch of the binary operators; [a] is the left operand. *)
Definition applyBinary (op : string) (a b : float) : float :=
  if String.eqb op "+" then (a + b)%float
  else if String.eqb op "-" then (a - b)%float
  else if String.eqb op "*" then (a * b)%float
  else if String.eqb op "/" then (a / b)%float
  else if String.eqb op "%" then (a * b / 100)%float
  else if String.eqb op "^" then Pow M a b
  else 0%float.

(** One iteration of the loop of [evalRPN] on token [t]. *)
Definition evalStep (t : Token) (st : list float) : result (list float) :=
  match Typ t with
  | TNumber => Ok (Value t :: st)
  | TFunc =>
      if inb (Text t) unaryFunctions then
        if negb (Arity t =? 1) then Err (ErrExpects1 (Text t))
        else
          '(args, st) <- popN 1 st ;;
          match args with
          | x :: _ => Ok (applyUnary (Text t) x :: st)
          | [] => Err Panic
          end
      else if inb (Text t) ["min"; "max"] then
        if Arity t <? 2 then Err (ErrExpectsAtLeast2 (Text t))
        else
          '(args, st) <- popN (Arity t) st ;;
          match args with
          | a0 :: args' => Ok (foldMinMax (Text t) a0 args' :: st)
          | [] => Err Panic
          end
      else if inb (Text t) ["pow"; "atan2"] then
        if negb (Arity t =? 2) then Err (ErrExpects2 (Text t))
        else
          '(args, st) <- popN 2 st ;;
          match args with
          | x :: y :: _ =>
              if String.eqb (Text t) "pow" then Ok (Pow M x y :: st)
              else Ok (Atan2 M x y :: st)
          | _ => Err Panic
          end
      else if String.eqb (Text t) "logn" then
        if negb (Arity t =? 2) then Err (ErrExpects2 (Text t))
        else
          '(args, st) <- popN 2 st ;;
          match args with
          | x :: y :: _ => Ok ((Log M x / Log M y)%float :: st)
          | _ => Err Panic
          end
      else Err (ErrUnknownFunction (Text t))
  | TOp =>
      if String.eqb (Text t) "NEG" then
        '(a, st) <- pop st ;;
        Ok ((- a)%float :: st)
      else if String.eqb (Text t) "POS" then
        '(a, st) <- pop st ;;
        Ok (a :: st)
      else if inb (Text t) ["+"; "-"; "*"; "/"; "%"; "^"] then
        '(b, st) <- pop st ;;
        '(a, st) <- pop st ;;
        Ok (applyBinary (Text t) a b :: st)
      else Err (ErrUnknownOperator (Text t))
  | _ => Err ErrUnexpectedToken
  end.

Fixpoint evalLoop (rpn : list Token) (st : list float) : result (list float) :=
  match rpn with
  | [] => Ok st
  | t :: rest =>
      st' <- evalStep t st ;;
      evalLoop rest st'
  end.

Definition evalRPN (rpn : list Token) : result float :=
  st <- evalLoop rpn [] ;;
  match st with
  | [v] => Ok v
  | _ => Err ErrExtraValues
  end.

Definition EvalExpression (expr : string) : result float :=
  toks <- tokenize expr ;;
  rpn <- toRPN toks ;;
  evalRPN rpn.

End FloatEvaluator.

(** ** Checked int64 arithmetic ([money.go]) *)

Definition moneyScale : Z := 100.
Definition percentScale : Z := 10000.

Definition addInt64 (a b : Z) : result Z :=
  if (0 <? b) && (MaxInt64 - b <? a) then Err ErrOverflowAdd
  else if (b <? 0) && (a <? MinInt64 - b) then Err ErrOverflowAdd
  else Ok (wrap64 (a + b)).

Definition subInt64 (a b : Z) : result Z :=
  if (0 <? b) && (a <? MinInt64 + b) then Err ErrOverflowSub
  else if (b <? 0) && (MaxInt64 + b <? a) then Err ErrOverflowSub
  else Ok (wrap64 (a - b)).

(** [uint64(v)] for [v >= 0], else [uint64(^v) + 1]. *)
Definition absUint64 (v : Z) : Z :=
  if 0 <=? v then wrapU64 v
  else wrapU64 (wrapU64 (Z.lnot v) + 1).

(** [bits.Mul64]: the high and low words of the 128-bit product. *)
Definition Mul64 (x y : Z) : Z * Z :=
  ((x * y) / 2 ^ 64, (x * y) mod 2 ^ 64).

Definition mulInt64 (a b : Z) : result Z :=
  if (a =? 0) || (b =? 0) then Ok 0
  else
    let signNegative := negb (Bool.eqb (a <? 0) (b <? 0)) in
    let ua := absUint64 a in
    let ub := absUint64 b in
    let '(hi, lo) := Mul64 ua ub in
    if negb (hi =? 0) then Err ErrOverflowMul
    else if negb signNegative then
      if MaxInt64 <? lo then Err ErrOverflowMul
      else Ok (wrap64 lo)
    else if MaxInt64 + 1 <? lo then Err ErrOverflowMul
    else if lo =? MaxInt64 + 1 then Ok MinInt64
    else Ok (wrap64 (- wrap64 lo)).

(** Go's [/] and [%] on int64 truncate toward zero ([Z.quot], [Z.rem]);
    the one quotient that does not fit, [MinInt64 / -1], wraps. *)
Definition divRound (n d : Z) : result Z :=
  if d =? 0 then Err ErrDivisionByZero
  else
    let q := wrap64 (Z.quot n d) in
    let r := Z.rem n d in
    if r =? 0 then Ok q
    else
      let absR := absUint64 r in
      let absD := absUint64 d in
      if absD <=? wrapU64 (absR * 2) then
        if Bool.eqb (0 <? n) (0 <? d) then Ok (wrap64 (q + 1))
        else Ok (wrap64 (q - 1))
      else Ok q.

(** ** Money literals *)

Fixpoint allDigitsLoop (s : string) : bool :=
  match s with
  | EmptyString => true
  | String c rest => if isDigit c then allDigitsLoop rest else false
  end.

Definition allDigits (s : string) : bool :=
  match s with
  | EmptyString => false
  | String _ _ => allDigitsLoop s
  end.

(** [strings.ContainsAny(txt, "eE")]. *)
Fixpoint containsExpMark (s : string) : bool :=
  match s with
  | EmptyString => false
  | String c rest => isExpMark c || containsExpMark rest
  end.

(** [strings.Count(txt, ".")]. *)
Fixpoint countDots (s : string) : Z :=
  match s with
  | EmptyString => 0
  | String c rest => (if Ascii.eqb c "." then 1 else 0) + countDots rest
  end.

(** [strings.SplitN(txt, ".", 2)]: [(txt, None)] when there is no point,
    else the parts before and after the first point. *)
Fixpoint splitAtDot (s : string) : string * option string :=
  match s with
  | EmptyString => (EmptyString, None)
  | String c rest =>
      if Ascii.eqb c "." then (EmptyString, Some rest)
      else let '(a, b) := splitAtDot rest in (String c a, b)
  end.

(** The loop in the middle of [isNumericLiteral]. *)
Fixpoint numericLoop (s : string) (dotSeen : bool) : bool :=
  match s with
  | EmptyString => true
  | String c rest =>
      if Ascii.eqb c "." then
        if dotSeen then false else numericLoop rest true
      else if negb (isDigit c) then false
      else numericLoop rest dotSeen
  end.

Definition isNumericLiteral (txt : string) : bool :=
  match txt with
  | EmptyString => false
  | String _ _ =>
      if containsExpMark txt then false
      else numericLoop txt false
  end.

(** [strconv.ParseInt(s, 10, 64)] (Go's standard library): an optional
    sign and decimal digits; [None] for a syntax error or a value outside
    int64. *)
Definition ParseInt (s : string) : option Z :=
  let '(neg, ds) :=
    match s with
    | String c rest => if isSign c then (Ascii.eqb c "-", rest) else (false, s)
    | EmptyString => (false, s)
    end in
  if allDigits ds then
    let v := if neg then - digitsToZ 0 ds else digitsToZ 0 ds in
    if (MinInt64 <=? v) && (v <=? MaxInt64) then Some v else None
  else None.

(** [if part == "" { part = "0" }]. *)
Definition zeroIfEmpty (part : string) : string :=
  match part with
  | EmptyString => "0"
  | String _ _ => part
  end.

(** [for len(fracPart) < 2 { fracPart += "0" }]. *)
Definition padFrac (fracPart : string) : string :=
  match fracPart with
  | EmptyString => "00"
  | String c EmptyString => String c "0"
  | _ => fracPart
  end.

Definition parseCents (txt : string) : result Z :=
  match txt with
  | EmptyString => Err ErrEmptyNumber
  | String _ _ =>
      if containsExpMark txt then Err (ErrExponentNotation txt)
      else if 1 <? countDots txt then Err (ErrInvalidMoney txt)
      else
        let '(intPart, frac) := splitAtDot txt in
        let fracPart := match frac with Some f => f | None => EmptyString end in
        let intPart := zeroIfEmpty intPart in
        let fracPart := zeroIfEmpty fracPart in
        if negb (allDigits intPart) || negb (allDigits fracPart)
        then Err (ErrInvalidMoney txt)
        else if (2 <? String.length fracPart)%nat then Err (ErrTooManyDecimals txt)
        else
          let fracPart := padFrac fracPart in
          match ParseInt intPart with
          | None => Err (ErrInvalidMoneyRange txt)
          | Some whole =>
              match ParseInt fracPart with
              | None => Err (ErrInvalidMoneyRange txt)
              | Some frac =>
                  match mulInt64 whole moneyScale with
                  | Err _ => Err (ErrMoneyOverflow txt)
                  | Ok wholeCents => addInt64 wholeCents frac
                  end
              end
          end
  end.

(** ** Money evaluator *)

Definition popM (st : list Z) : result (Z * list Z) :=
  match st with
  | [] => Err ErrNotEnoughOperands
  | v :: st' => Ok (v, st')
  end.

Definition popNM (n : Z) (st : list Z) : result (list Z * list Z) :=
  if n <? 0 then Err ErrInvalidArgCount
  else if Z.of_nat (List.length st) <? n then Err ErrNotEnoughOperands
  else Ok (rev (firstn (Z.to_nat n) st), skipn (Z.to_nat n) st).

Fixpoint foldMinMaxM (name : string) (res : Z) (args : list Z) : Z :=
  match args with
  | [] => res
  | a :: args' =>
      let res :=
        if String.eqb name "min"
        then (if a <? res then a else res)
        else (if res <? a then a else res) in
      foldMinMaxM name res args'
  end.

(** The inner switch of the binary operators of [evalRPNMoney]. *)
Definition applyBinaryM (op : string) (a b : Z) : result Z :=
  if String.eqb op "+" then addInt64 a b
  else if String.eqb op "-" then subInt64 a b
  else if String.eqb op "*" then
    prod <- mulInt64 a b ;; divRound prod moneyScale
  else if String.eqb op "/" then
    num <- mulInt64 a moneyScale ;; divRound num b
  else if String.eqb op "%" then
    prod <- mulInt64 a b ;; divRound prod percentScale
  else Ok 0.

(** One iteration of the loop of [evalRPNMoney] on token [t]. *)
Definition evalStepMoney (t : Token) (st : list Z) : result (list Z) :=
  match Typ t with
  | TNumber =>
      if negb (isNumericLiteral (Text t)) then Err (ErrNonNumericLiteral (Text t))
      else
        v <- parseCents (Text t) ;;
        Ok (v :: st)
  | TFunc =>
      if String.eqb (Text t) "abs" then
        if negb (Arity t =? 1) then Err (ErrExpects1 (Text t))
        else
          '(args, st) <- popNM 1 st ;;
          match args with
          | x :: _ =>
              if x =? MinInt64 then Err ErrOverflowAbs
              else if x <? 0 then Ok (wrap64 (- x) :: st)
              else Ok (x :: st)
          | [] => Err Panic
          end
      else if inb (Text t) ["min"; "max"] then
        if Arity t <? 2 then Err (ErrExpectsAtLeast2 (Text t))
        else
          '(args, st) <- popNM (Arity t) st ;;
          match args with
          | a0 :: args' => Ok (foldMinMaxM (Text t) a0 args' :: st)
          | [] => Err Panic
          end
      else Err (ErrMoneyFunction (Text t))
  | TOp =>
      if String.eqb (Text t) "NEG" then
        '(a, st) <- popM st ;;
        if a =? MinInt64 then Err ErrOverflowNeg
        else Ok (wrap64 (- a) :: st)
      else if String.eqb (Text t) "POS" then
        '(a, st) <- popM st ;;
        Ok (a :: st)
      else if inb (Text t) ["+"; "-"; "*"; "/"; "%"] then
        '(b, st) <- popM st ;;
        '(a, st) <- popM st ;;
        res <- applyBinaryM (Text t) a b ;;
        Ok (res :: st)
      else Err (ErrMoneyOperator (Text t))
  | _ => Err ErrUnexpectedToken
  end.

Fixpoint evalLoopMoney (rpn : list Token) (st : list Z) : result (list Z) :=
  match rpn with
  | [] => Ok st
  | t :: rest =>
      st' <- evalStepMoney t st ;;
      evalLoopMoney rest st'
  end.

Definition evalRPNMoney (rpn : list Token) : result Z :=
  st <- evalLoopMoney rpn [] ;;
  match st with
  | [v] => Ok v
  | _ => Err ErrExtraValues
  end.

Definition EvalMoneyExpression (expr : string) : result Z :=
  toks <- tokenize expr ;;
  rpn <- toRPN toks ;;
  evalRPNMoney rpn.

(** ** Vocabulary of the specification

    The definitions below are not part of the program: they say, in the
    words of the specification, what the program is compared with. *)

Definition inInt64b (z : Z) : bool := (MinInt64 <=? z) && (z <=? MaxInt64).

(** Round half away from zero: the truncated quotient, moved one unit away
    from zero exactly when twice the remainder's absolute value is at
    least the divisor's absolute value. *)
Definition roundHalfAway (n d : Z) : Z :=
  let q := Z.quot n d in
  let r := Z.rem n d in
  if Z.abs d <=? 2 * Z.abs r then q + Z.sgn n * Z.sgn d else q.

(** A plain decimal literal: digits [ip], then possibly a point and digits
    [fp]. *)
Definition literalText (ip : string) (frac : option string) : string :=
  match frac with
  | Some fp => ip ++ "." ++ fp
  | None => ip
  end.

Definition fracDigits (frac : option string) : string :=
  match frac with
  | Some fp => fp
  | None => EmptyString
  end.

(** The fractional digits as hundredths, right-padded with zeros to two
    digits: [""] is 0, ["5"] is 50, ["05"] is 5. *)
Definition fracCents (fp : string) : Z :=
  digitsToZ 0 fp * 10 ^ (2 - Z.of_nat (String.length fp)).

(** The cents a literal stands for: [whole * 100 + frac]. *)
Definition centsOf (ip : string) (frac : option string) : Z :=
  digitsToZ 0 ip * 100 + fracCents (fracDigits frac).

(** The token [^] of an RPN sequence. *)
Definition isCaret (t : Token) : bool :=
  TokenType_eqb (Typ t) TOp && String.eqb (Text t) "^".

(** The tokens of a call [f(a1, ..., an)]. *)
Definition commaSep (args : list Token) : list Token :=
  match args with
  | [] => []
  | a :: rest => a :: flat_map (fun x => [tok TComma ","; x]) rest
  end.

Definition callTokens (f : Token) (args : list Token) : list Token :=
  f :: tok TLParen "(" :: commaSep args ++ [tok TRParen ")"].

(** An identifier of the lexer: [[A-Za-z_][A-Za-z0-9_]*]. *)
Fixpoint allIdentContinue (s : string) : bool :=
  match s with
  | EmptyString => true
  | String c rest => isIdentContinue c && allIdentContinue rest
  end.

(** The positions in which [+] and [-] are prefix signs: at the start of
    the input, or right after an operator, a left parenthesis or a comma. *)
Definition unaryPosition (prev : option Token) : Prop :=
  match prev with
  | None => True
  | Some p => Typ p = TOp \/ Typ p = TLParen \/ Typ p = TComma
  end.

(** Some implementation of [MathLib], for the closed instances of
    statements that hold for every implementation. *)
Definition someMathLib : MathLib :=
  {| Sin := fun x => x; Cos := fun x => x; Tan := fun x => x;
     Asin := fun x => x; Acos := fun x => x; Atan := fun x => x;
     Log := fun x => x; Log10 := fun x => x; Exp := fun x => x;
     Floor := fun x => x; Ceil := fun x => x; Round := fun x => x;
     Atan2 := fun x _ => x |}.

Definition notLParen (t : Token) : Prop := Typ t <> TLParen.
Definition isNumber (t : Token) : Prop := Typ t = TNumber.

(** In [a o1 b o2 c] the earlier operator [o1] is applied first when it
    binds tighter than [o2], or as tightly and [o2] associates to the
    left. *)
Definition appliedFirst (o1 o2 : string) : bool :=
  (precedence o2 <? precedence o1) ||
  ((precedence o2 =? precedence o1) && negb (rightAssociative o2)).

Definition binaryOperators : list string := ["+"; "-"; "*"; "/"; "%"; "^"].

(** ** Vocabulary of the invariants

    Not part of the program either: what the parser, the lexer and the
    evaluators keep true, in the terms of the last part of this file. *)

(** The kinds of token a postfix sequence is made of. *)
Definition isRpnKind (t : Token) : bool :=
  match Typ t with
  | TNumber | TOp | TFunc => true
  | _ => false
  end.

(** The kinds of token the operator stack of [toRPN] holds. *)
Definition isStackKind (t : Token) : bool :=
  match Typ t with
  | TOp | TFunc | TLParen => true
  | _ => false
  end.

Definition hasTyp (ty : TokenType) (t : Token) : bool := TokenType_eqb (Typ t) ty.

Definition countTyp (ty : TokenType) (tokens : list Token) : nat :=
  List.length (filter (hasTyp ty) tokens).

(** What [toRPN] keeps true of its variables after reading [done]. *)
Record parserInvariant (done : list Token) (s : pstate) : Prop := {
  inv_out_kinds : forallb isRpnKind (out s) = true;
  inv_stack_kinds : forallb isStackKind (stack s) = true;
  inv_frames : List.length (funcParen s) = countTyp TLParen (stack s);
  inv_counts : List.length (argCount s) = List.length (funcParen s);
  inv_balance :
    (countTyp TLParen (stack s) + countTyp TRParen done = countTyp TLParen done)%nat;
  inv_numbers : filter (hasTyp TNumber) (out s) = filter (hasTyp TNumber) done;
  inv_length :
    (List.length (out s) + List.length (filter (fun t => negb (hasTyp TLParen t)) (stack s))
     = List.length (filter isRpnKind done))%nat
}.

(** The error messages of each stage that a call of [EvalExpression] or
    [EvalMoneyExpression] can end with. *)
Definition isLexError (e : error) : bool :=
  match e with
  | ErrInvalidNumber _ | ErrInvalidExponent _ | ErrParseNumber _
  | ErrUnexpectedChar _ => true
  | _ => false
  end.

Definition isParseError (e : error) : bool :=
  match e with
  | ErrFuncNotCalled _ | ErrMisplacedComma | ErrMismatchedParens => true
  | _ => false
  end.

Definition isFloatEvalError (e : error) : bool :=
  match e with
  | ErrNotEnoughOperands | ErrExpects1 _ | ErrExpectsAtLeast2 _ | ErrExpects2 _
  | ErrUnknownFunction _ | ErrExtraValues => true
  | _ => false
  end.

Definition isMoneyEvalError (e : error) : bool :=
  match e with
  | ErrNotEnoughOperands | ErrExpects1 _ | ErrExpectsAtLeast2 _ | ErrExtraValues
  | ErrNonNumericLiteral _ | ErrMoneyFunction _ | ErrMoneyOperator _
  | ErrOverflowAbs | ErrOverflowNeg
  | ErrTooManyDecimals _ | ErrInvalidMoneyRange _ | ErrMoneyOverflow _
  | ErrOverflowAdd | ErrOverflowSub | ErrOverflowMul | ErrDivisionByZero => true
  | _ => false
  end.

(** The operator stack of [toRPN] next to its frame flags: operators, and
    left parentheses that sit directly on their function exactly when
    their flag says they open a call. *)
Inductive stackShape : list Token -> list bool -> Prop :=
  | shapeEmpty : stackShape [] []
  | shapeOperator o stk fp :
      Typ o = TOp -> stackShape stk fp -> stackShape (o :: stk) fp
  | shapeCall lp fn stk fp :
      Typ lp = TLParen -> Typ fn = TFunc -> stackShape stk fp ->
      stackShape (lp :: fn :: stk) (true :: fp)
  | shapeGroup lp stk fp :
      Typ lp = TLParen -> stackShape stk fp -> stackShape (lp :: stk) (false :: fp).

(** Between two iterations of [toRPN], with [rest] still to read: either
    the stack has the shape above, or a function was just pushed and the
    next token is its left parenthesis. *)
Definition shapeInvariant (rest : list Token) (s : pstate) : Prop :=
  (stackShape (stack s) (funcParen s) /\ prevIs (prev s) TFunc = false) \/
  (exists fn stk,
      stack s = fn :: stk /\ Typ fn = TFunc /\ stackShape stk (funcParen s) /\
      prevIs (prev s) TFunc = true /\ prevIs (hd_error rest) TLParen = true).

(** The operator texts the evaluators know: the six operator bytes and the
    two markers of the parser. *)
Definition isKnownOp (t : Token) : bool :=
  match Typ t with
  | TOp => inb (Text t) ("NEG" :: "POS" :: binaryOperators)
  | _ => true
  end.

(** [x] is the input token [t] as [toRPN] emits it: the same token, but for
    a sign rewritten to its marker or the arity of a function. *)
Definition derivedFrom (x t : Token) : Prop :=
  Typ x = Typ t /\ Value x = Value t /\
  (Text x = Text t \/
   (Typ t = TOp /\ (Text t = "-" /\ Text x = "NEG" \/ Text t = "+" /\ Text x = "POS"))) /\
  (Typ t <> TFunc -> Arity x = Arity t).

Definition fromInput (done : list Token) (x : Token) : Prop :=
  exists t, In t done /\ derivedFrom x t.

(** A lower-case identifier. *)
Fixpoint noUpper (s : string) : bool :=
  match s with
  | EmptyString => true
  | String c rest => negb (between "A" "Z" c) && noUpper rest
  end.

Definition isLowerIdent (s : string) : bool :=
  match s with
  | EmptyString => false
  | String c rest => isIdentStart c && allIdentContinue rest && noUpper s
  end.

(** What holds of every token the lexer emits. *)
Definition lexTokenOK (t : Token) : Prop :=
  Arity t = 0 /\
  match Typ t with
  | TNumber =>
      lookup (Text t) constants = Some (Value t) \/
      ParseFloat (Text t) = Ok (Value t)
  | TOp => inb (Text t) binaryOperators = true
  | TFunc => isLowerIdent (Text t) = true /\ lookup (Text t) constants = None
  | TComma => Text t = ","
  | TLParen => Text t = "("
  | TRParen => Text t = ")"
  end.

(** A string of white space only. *)
Fixpoint allSpace (s : string) : bool :=
  match s with
  | EmptyString => true
  | String c rest => IsSpace c && allSpace rest
  end.

(** The input without its white space. *)
Fixpoint dropSpace (s : string) : string :=
  match s with
  | EmptyString => EmptyString
  | String c rest => if IsSpace c then dropSpace rest else String c (dropSpace rest)
  end.

(** The texts of a token sequence, one after the other. *)
Fixpoint joinTexts (tokens : list Token) : string :=
  match tokens with
  | [] => EmptyString
  | t :: rest => Text t ++ joinTexts rest
  end.

(** A token with the text of a number literal lower-cased: what the lexer
    emits for the lower-cased input. *)
Definition foldLiteral (t : Token) : Token :=
  match Typ t with
  | TNumber => withText t (ToLower (Text t))
  | _ => t
  end.

(** The image of a result, and of the parser's variables, under a map on
    tokens. *)
Definition mapResult {A B} (f : A -> B) (r : result A) : result B :=
  match r with
  | Ok a => Ok (f a)
  | Err e => Err e
  end.

Definition mapState (f : Token -> Token) (s : pstate) : pstate :=
  mkP (map f (out s)) (map f (stack s)) (funcParen s) (argCount s)
      (option_map f (prev s)).

(** What a successful iteration of [toRPN] does to the variables. *)
Inductive stepShape (t : Token) (s s' : pstate) : Prop :=
  | shapeNumber :
      Typ t = TNumber ->
      s' = mkP (out s ++ [t]) (stack s) (funcParen s) (argCount s) (Some t) ->
      stepShape t s s'
  | shapeFunc :
      Typ t = TFunc ->
      s' = mkP (out s) (t :: stack s) (funcParen s) (argCount s) (Some t) ->
      stepShape t s s'
  | shapeLParen :
      Typ t = TLParen ->
      s' = mkP (out s) (t :: stack s) (prevIs (prev s) TFunc :: funcParen s)
               (0 :: argCount s) (Some t) ->
      stepShape t s s'
  | shapeComma ops lp rest frames k counts :
      Typ t = TComma ->
      stack s = (ops ++ lp :: rest)%list -> Forall notLParen ops -> Typ lp = TLParen ->
      funcParen s = true :: frames -> argCount s = k :: counts ->
      s' = mkP (out s ++ ops) (lp :: rest) (funcParen s) (wrap_incr k :: counts) (Some t) ->
      stepShape t s s'
  | shapeRParenGroup ops lp rest frames k counts :
      Typ t = TRParen ->
      stack s = (ops ++ lp :: rest)%list -> Forall notLParen ops -> Typ lp = TLParen ->
      funcParen s = false :: frames -> argCount s = k :: counts ->
      s' = mkP (out s ++ ops) rest frames counts (Some t) ->
      stepShape t s s'
  | shapeRParenCall ops lp fn rest frames k counts n :
      Typ t = TRParen ->
      stack s = (ops ++ lp :: fn :: rest)%list -> Forall notLParen ops ->
      Typ lp = TLParen -> Typ fn = TFunc ->
      funcParen s = true :: frames -> argCount s = k :: counts ->
      s' = mkP (out s ++ ops ++ [withArity fn n]) rest frames counts (Some t) ->
      stepShape t s s'
  | shapeOp ops below :
      Typ t = TOp ->
      stack s = (ops ++ below)%list -> Forall (fun o => Typ o = TOp) ops ->
      s' = mkP (out s ++ ops) (rewriteSign (prev s) t :: below)
               (funcParen s) (argCount s) (Some t) ->
      stepShape t s s'.

(** * Properties *)

(** ** Facts about machine integers *)

Lemma inInt64b_spec z : inInt64b z = true <-> inInt64 z.
Proof.
  unfold inInt64b, inInt64. rewrite andb_true_iff, !Z.leb_le. tauto.
Qed.

Lemma inInt64b_false z : inInt64b z = false -> ~ inInt64 z.
Proof.
  intros E H. apply inInt64b_spec in H. congruence.
Qed.

Lemma wrap64_id z : inInt64 z -> wrap64 z = z.
Proof.
  unfold inInt64, wrap64, MinInt64, MaxInt64. intros H.
  rewrite Z.mod_small; lia.
Qed.

Lemma wrapU64_id z : 0 <= z < 2 ^ 64 -> wrapU64 z = z.
Proof.
  intros H. unfold wrapU64. now apply Z.mod_small.
Qed.

Lemma absUint64_abs v : inInt64 v -> absUint64 v = Z.abs v.
Proof.
  unfold inInt64, absUint64, MinInt64, MaxInt64. intros H.
  destruct (Z.leb_spec 0 v).
  - rewrite wrapU64_id; lia.
  - unfold Z.lnot, Z.pred. rewrite (wrapU64_id (- v + -1)) by lia.
    rewrite wrapU64_id; lia.
Qed.

Ltac int64_bounds := unfold inInt64, inInt64b, MinInt64, MaxInt64 in *.

Lemma addInt64_spec a b :
  inInt64 a -> inInt64 b ->
  addInt64 a b = if inInt64b (a + b) then Ok (a + b) else Err ErrOverflowAdd.
Proof.
  intros Ha Hb. unfold addInt64.
  destruct (inInt64b (a + b)) eqn:E.
  - apply inInt64b_spec in E. rewrite (wrap64_id _ E). int64_bounds.
    destruct (Z.ltb_spec 0 b), (Z.ltb_spec (2 ^ 63 - 1 - b) a),
      (Z.ltb_spec b 0), (Z.ltb_spec a (- 2 ^ 63 - b));
      simpl; try reflexivity; lia.
  - apply inInt64b_false in E. int64_bounds.
    destruct (Z.ltb_spec 0 b), (Z.ltb_spec (2 ^ 63 - 1 - b) a),
      (Z.ltb_spec b 0), (Z.ltb_spec a (- 2 ^ 63 - b));
      simpl; try reflexivity; lia.
Qed.

Lemma subInt64_spec a b :
  inInt64 a -> inInt64 b ->
  subInt64 a b = if inInt64b (a - b) then Ok (a - b) else Err ErrOverflowSub.
Proof.
  intros Ha Hb. unfold subInt64.
  destruct (inInt64b (a - b)) eqn:E.
  - apply inInt64b_spec in E. rewrite (wrap64_id _ E). int64_bounds.
    destruct (Z.ltb_spec 0 b), (Z.ltb_spec a (- 2 ^ 63 + b)),
      (Z.ltb_spec b 0), (Z.ltb_spec (2 ^ 63 - 1 + b) a);
      simpl; try reflexivity; lia.
  - apply inInt64b_false in E. int64_bounds.
    destruct (Z.ltb_spec 0 b), (Z.ltb_spec a (- 2 ^ 63 + b)),
      (Z.ltb_spec b 0), (Z.ltb_spec (2 ^ 63 - 1 + b) a);
      simpl; try reflexivity; lia.
Qed.

(** The sign test of [mulInt64] is the sign of the product. *)
Lemma sign_differs a b :
  a <> 0 -> b <> 0 ->
  negb (Bool.eqb (a <? 0) (b <? 0)) = (a * b <? 0).
Proof.
  intros Ha Hb.
  destruct (Z.ltb_spec a 0), (Z.ltb_spec b 0), (Z.ltb_spec (a * b) 0);
    simpl; try reflexivity; nia.
Qed.

Lemma mulInt64_spec a b :
  inInt64 a -> inInt64 b ->
  mulInt64 a b = if inInt64b (a * b) then Ok (a * b) else Err ErrOverflowMul.
Proof.
  intros Ha Hb. unfold mulInt64.
  destruct (Z.eqb_spec a 0) as [->|Na]; [reflexivity|].
  destruct (Z.eqb_spec b 0) as [->|Nb]; [rewrite Z.mul_0_r; reflexivity|].
  cbn [orb]. unfold Mul64.
  rewrite !absUint64_abs by assumption.
  rewrite <- Z.abs_mul, sign_differs by assumption.
  assert (Hnz : a * b <> 0) by (apply Z.neq_mul_0; tauto).
  set (p := a * b) in *. clearbody p.
  destruct (Z.eqb_spec (Z.abs p / 2 ^ 64) 0) as [H0|H0]; cbn [negb].
  - (* the high word is zero: the low word is |p| *)
    assert (Hlt : Z.abs p < 2 ^ 64) by (apply Z.div_small_iff in H0; lia).
    rewrite (Z.mod_small (Z.abs p)) by lia.
    int64_bounds.
    destruct (Z.ltb_spec p 0); cbn [negb].
    + destruct (Z.ltb_spec (2 ^ 63 - 1 + 1) (Z.abs p)).
      * destruct (Z.leb_spec (- 2 ^ 63) p); [lia|reflexivity].
      * destruct (Z.eqb_spec (Z.abs p) (2 ^ 63 - 1 + 1)).
        { replace p with (- 2 ^ 63) by lia. reflexivity. }
        { rewrite (wrap64_id (Z.abs p)) by (int64_bounds; lia).
          rewrite wrap64_id by (int64_bounds; lia).
          destruct (Z.leb_spec (- 2 ^ 63) p), (Z.leb_spec p (2 ^ 63 - 1)); try lia.
          simpl. f_equal. lia. }
    + destruct (Z.ltb_spec (2 ^ 63 - 1) (Z.abs p)).
      * destruct (Z.leb_spec (- 2 ^ 63) p), (Z.leb_spec p (2 ^ 63 - 1));
          try lia; reflexivity.
      * rewrite wrap64_id by (int64_bounds; lia).
        destruct (Z.leb_spec (- 2 ^ 63) p), (Z.leb_spec p (2 ^ 63 - 1)); try lia.
        simpl. f_equal. lia.
  - (* the high word is not zero: |p| does not fit 64 bits *)
    assert (Hge : 2 ^ 64 <= Z.abs p).
    { destruct (Z.lt_ge_cases (Z.abs p) (2 ^ 64)); [|assumption].
      exfalso. apply H0. apply Z.div_small. lia. }
    int64_bounds.
    destruct (Z.leb_spec (- 2 ^ 63) p), (Z.leb_spec p (2 ^ 63 - 1));
      try lia; reflexivity.
Qed.

(** ** Rounding division *)

(** [roundHalfAway n d] is the integer nearest to [n / d], and on a tie
    the one of larger magnitude. *)
Lemma roundHalfAway_nearest n d :
  d <> 0 ->
  2 * Z.abs (n - roundHalfAway n d * d) <= Z.abs d /\
  (2 * Z.abs (n - roundHalfAway n d * d) = Z.abs d ->
   Z.abs n < Z.abs (roundHalfAway n d * d)).
Proof.
  intros Hd. unfold roundHalfAway. cbv zeta.
  pose proof (Z.quot_rem' n d) as E.
  pose proof (Z.rem_bound_abs n d Hd) as B.
  pose proof (Z.rem_sign_mul n d Hd) as S.
  assert (Hn0 : n = 0 -> Z.rem n d = 0) by (intros ->; now apply Z.rem_0_l).
  set (q := Z.quot n d) in *. set (r := Z.rem n d) in *. clearbody q r.
  destruct (Z.leb_spec (Z.abs d) (2 * Z.abs r)).
  - destruct (Z.sgn_spec n) as [[? ->]|[[? ->]|[? ->]]],
             (Z.sgn_spec d) as [[? ->]|[[? ->]|[? ->]]];
      try lia; split; try nia.
  - split; [nia|]. intros. nia.
Qed.

Lemma divRound_spec n d :
  inInt64 n -> inInt64 d -> d <> 0 -> ~ (n = MinInt64 /\ d = -1) ->
  divRound n d = Ok (roundHalfAway n d).
Proof.
  intros Hn Hd Hd0 Hex. unfold divRound, roundHalfAway.
  destruct (Z.eqb_spec d 0) as [|_]; [contradiction|].
  pose proof (Z.quot_rem' n d) as E.
  pose proof (Z.rem_bound_abs n d Hd0) as B.
  pose proof (Z.rem_sign_mul n d Hd0) as S.
  assert (Hn0 : n = 0 -> Z.rem n d = 0) by (intros ->; now apply Z.rem_0_l).
  set (q := Z.quot n d) in *. set (r := Z.rem n d) in *. clearbody q r.
  assert (Hq : inInt64 q) by (int64_bounds; nia).
  rewrite (wrap64_id q Hq).
  destruct (Z.eqb_spec r 0) as [->|Hr].
  - replace (Z.abs d <=? 2 * Z.abs 0) with false; [reflexivity|].
    symmetry. apply Z.leb_gt. lia.
  - assert (Hrr : inInt64 r) by (int64_bounds; lia).
    rewrite !absUint64_abs by assumption.
    rewrite wrapU64_id by (int64_bounds; lia).
    rewrite (Z.mul_comm (Z.abs r) 2).
    destruct (Z.leb_spec (Z.abs d) (2 * Z.abs r)); [|reflexivity].
    assert (Hq2 : inInt64 (q + 1) /\ inInt64 (q - 1)) by (int64_bounds; nia).
    destruct Hq2.
    destruct (Z.ltb_spec 0 n), (Z.ltb_spec 0 d); cbn [Bool.eqb];
      rewrite wrap64_id by assumption; f_equal;
      destruct (Z.sgn_spec n) as [[? ->]|[[? ->]|[? ->]]],
               (Z.sgn_spec d) as [[? ->]|[[? ->]|[? ->]]]; try lia; nia.
Qed.

(** The rounded quotient of int64 operands fits int64, but for the pair
    the previous lemma excludes. *)
Lemma roundHalfAway_inInt64 n d :
  inInt64 n -> inInt64 d -> d <> 0 -> ~ (n = MinInt64 /\ d = -1) ->
  inInt64 (roundHalfAway n d).
Proof.
  intros Hn Hd Hd0 Hex.
  destruct (roundHalfAway_nearest n d Hd0) as [N T].
  set (k := roundHalfAway n d) in *. clearbody k.
  int64_bounds. nia.
Qed.

(** C1 (counterexample).  The quotient of the smallest int64 by -1 is
    [2^63], which no int64 holds: Go's division wraps, the remainder is 0,
    and [divRound] returns the dividend itself. *)
Lemma divRound_MinInt64_by_minus_one :
  inInt64 MinInt64 /\ inInt64 (-1) /\
  divRound MinInt64 (-1) = Ok MinInt64 /\
  roundHalfAway MinInt64 (-1) = 2 ^ 63 /\
  divRound MinInt64 (-1) <> Ok (roundHalfAway MinInt64 (-1)).
Proof.
  repeat split; try (int64_bounds; lia); try reflexivity.
  vm_compute. discriminate.
Qed.

(** C1 (amended).  For every int64 dividend [n] and nonzero int64 divisor
    [d], the pair [(MinInt64, -1)] excepted, [divRound n d] returns the
    quotient rounded half away from zero: the truncated quotient moved one
    unit away from zero exactly when [2 * |n rem d| >= |d|]; that value is
    the integer nearest to [n / d], of larger magnitude on a tie.  In
    money mode ["1200%10"] is 12000, ["10/3"] is 333 and ["7.5%2"] is 15. *)
Theorem divRound_rounds_half_away_from_zero :
  (forall n d : Z,
      inInt64 n -> inInt64 d -> d <> 0 -> ~ (n = MinInt64 /\ d = -1) ->
      divRound n d = Ok (roundHalfAway n d) /\
      2 * Z.abs (n - roundHalfAway n d * d) <= Z.abs d /\
      (2 * Z.abs (n - roundHalfAway n d * d) = Z.abs d ->
       Z.abs n < Z.abs (roundHalfAway n d * d))) /\
  EvalMoneyExpression "1200%10" = Ok 12000 /\
  EvalMoneyExpression "10/3" = Ok 333 /\
  EvalMoneyExpression "7.5%2" = Ok 15.
Proof.
  split; [|repeat split; vm_compute; reflexivity].
  intros n d Hn Hd Hd0 Hex. split.
  - now apply divRound_spec.
  - now apply roundHalfAway_nearest.
Qed.

Lemma divRound_rounds_half_away_from_zero_witness :
  divRound (-7) 2 = Ok (-4) /\ divRound 5 (-10) = Ok (-1).
Proof.
  split.
  - apply (proj1 (proj1 divRound_rounds_half_away_from_zero (-7) 2
                    ltac:(unfold inInt64, MinInt64, MaxInt64; lia)
                    ltac:(unfold inInt64, MinInt64, MaxInt64; lia)
                    ltac:(lia)
                    ltac:(unfold MinInt64; lia))).
  - apply (proj1 (proj1 divRound_rounds_half_away_from_zero 5 (-10)
                    ltac:(unfold inInt64, MinInt64, MaxInt64; lia)
                    ltac:(unfold inInt64, MinInt64, MaxInt64; lia)
                    ltac:(lia)
                    ltac:(unfold MinInt64; lia))).
Defined.

(** ** Overflow checks of the money evaluator *)

(** No product [a * 100] is the smallest int64, so the division operator
    never passes [divRound] the one pair on which it wraps. *)
Lemma scaled_not_MinInt64 a : a * moneyScale <> MinInt64.
Proof.
  unfold moneyScale, MinInt64. lia.
Qed.

Lemma applyBinaryM_mul a b :
  inInt64 a -> inInt64 b ->
  applyBinaryM "*" a b =
    if inInt64b (a * b) then Ok (roundHalfAway (a * b) 100) else Err ErrOverflowMul.
Proof.
  intros Ha Hb. unfold applyBinaryM. cbn [String.eqb Ascii.eqb Bool.eqb].
  rewrite mulInt64_spec by assumption.
  destruct (inInt64b (a * b)) eqn:E; [|reflexivity].
  apply inInt64b_spec in E. cbn [bind]. unfold moneyScale.
  apply divRound_spec; try assumption; try (int64_bounds; lia).
Qed.

Lemma applyBinaryM_percent a b :
  inInt64 a -> inInt64 b ->
  applyBinaryM "%" a b =
    if inInt64b (a * b) then Ok (roundHalfAway (a * b) 10000) else Err ErrOverflowMul.
Proof.
  intros Ha Hb. unfold applyBinaryM. cbn [String.eqb Ascii.eqb Bool.eqb].
  rewrite mulInt64_spec by assumption.
  destruct (inInt64b (a * b)) eqn:E; [|reflexivity].
  apply inInt64b_spec in E. cbn [bind]. unfold percentScale.
  apply divRound_spec; try assumption; try (int64_bounds; lia).
Qed.

Lemma applyBinaryM_div a b :
  inInt64 a -> inInt64 b ->
  applyBinaryM "/" a b =
    if inInt64b (a * 100) then
      if b =? 0 then Err ErrDivisionByZero else Ok (roundHalfAway (a * 100) b)
    else Err ErrOverflowMul.
Proof.
  intros Ha Hb. unfold applyBinaryM. cbn [String.eqb Ascii.eqb Bool.eqb].
  rewrite mulInt64_spec by (try assumption; int64_bounds; unfold moneyScale; lia).
  unfold moneyScale.
  destruct (inInt64b (a * 100)) eqn:E; [|reflexivity].
  apply inInt64b_spec in E. cbn [bind].
  destruct (Z.eqb_spec b 0) as [->|Hb0]; [reflexivity|].
  apply divRound_spec; try assumption.
  intros [H _]. now apply (scaled_not_MinInt64 a).
Qed.

Lemma popNM_one a st : popNM 1 (a :: st) = Ok ([a], st).
Proof.
  unfold popNM. cbn [Z.ltb Z.compare].
  destruct (Z.ltb_spec (Z.of_nat (List.length (a :: st))) 1) as [H|H].
  - cbn [List.length] in H. lia.
  - reflexivity.
Qed.

Lemma evalStepMoney_NEG t a st :
  Typ t = TOp -> Text t = "NEG" -> inInt64 a ->
  evalStepMoney t (a :: st) =
    if a =? MinInt64 then Err ErrOverflowNeg else Ok (- a :: st).
Proof.
  intros Hty Htx Ha. unfold evalStepMoney. rewrite Hty, Htx.
  cbn [String.eqb Ascii.eqb Bool.eqb popM bind].
  destruct (Z.eqb_spec a MinInt64); [reflexivity|].
  rewrite wrap64_id by (int64_bounds; lia). reflexivity.
Qed.

Lemma evalStepMoney_abs t a st :
  Typ t = TFunc -> Text t = "abs" -> Arity t = 1 -> inInt64 a ->
  evalStepMoney t (a :: st) =
    if a =? MinInt64 then Err ErrOverflowAbs else Ok (Z.abs a :: st).
Proof.
  intros Hty Htx Har Ha. unfold evalStepMoney. rewrite Hty, Htx, Har.
  cbn [String.eqb Ascii.eqb Bool.eqb Z.eqb negb].
  rewrite popNM_one. cbn [bind].
  destruct (Z.eqb_spec a MinInt64); [reflexivity|].
  destruct (Z.ltb_spec a 0).
  - rewrite wrap64_id by (int64_bounds; lia). rewrite Z.abs_neq by lia. reflexivity.
  - rewrite Z.abs_eq by lia. reflexivity.
Qed.

Lemma evalStepMoney_binary t a b st :
  Typ t = TOp -> inb (Text t) ["+"; "-"; "*"; "/"; "%"] = true ->
  evalStepMoney t (b :: a :: st) =
    (res <- applyBinaryM (Text t) a b ;; Ok (res :: st)).
Proof.
  intros Hty Hop. unfold evalStepMoney. rewrite Hty.
  assert (String.eqb (Text t) "NEG" = false /\ String.eqb (Text t) "POS" = false)
    as [-> ->].
  { cbn [inb] in Hop. rewrite !orb_true_iff in Hop.
    destruct Hop as [H|[H|[H|[H|[H|H]]]]]; try discriminate;
      apply String.eqb_eq in H; rewrite H; split; reflexivity. }
  rewrite Hop. reflexivity.
Qed.

(** C6.  Money mode never wraps.  On int64 operands [addInt64], [subInt64]
    and [mulInt64] (through the 128-bit product) return the exact result
    when it fits int64 and their overflow error otherwise; [NEG] and [abs]
    fail with an overflow error on the smallest int64 and are exact on every
    other value; the operators [+ - * / %] of the evaluator are these
    helpers followed by the rounding division, which is exact as well. *)
Theorem money_arithmetic_detects_overflow :
  (forall a b : Z, inInt64 a -> inInt64 b ->
      addInt64 a b = (if inInt64b (a + b) then Ok (a + b) else Err ErrOverflowAdd) /\
      subInt64 a b = (if inInt64b (a - b) then Ok (a - b) else Err ErrOverflowSub) /\
      mulInt64 a b = (if inInt64b (a * b) then Ok (a * b) else Err ErrOverflowMul)) /\
  (forall (t : Token) (a : Z) (st : list Z),
      Typ t = TOp -> Text t = "NEG" -> inInt64 a ->
      evalStepMoney t (a :: st) =
        if a =? MinInt64 then Err ErrOverflowNeg else Ok (- a :: st)) /\
  (forall (t : Token) (a : Z) (st : list Z),
      Typ t = TFunc -> Text t = "abs" -> Arity t = 1 -> inInt64 a ->
      evalStepMoney t (a :: st) =
        if a =? MinInt64 then Err ErrOverflowAbs else Ok (Z.abs a :: st)) /\
  (forall (t : Token) (a b : Z) (st : list Z),
      Typ t = TOp -> inb (Text t) ["+"; "-"; "*"; "/"; "%"] = true ->
      evalStepMoney t (b :: a :: st) =
        (res <- applyBinaryM (Text t) a b ;; Ok (res :: st))) /\
  (forall a b : Z, inInt64 a -> inInt64 b ->
      applyBinaryM "+" a b = addInt64 a b /\
      applyBinaryM "-" a b = subInt64 a b /\
      applyBinaryM "*" a b =
        (if inInt64b (a * b) then Ok (roundHalfAway (a * b) 100)
         else Err ErrOverflowMul) /\
      applyBinaryM "/" a b =
        (if inInt64b (a * 100) then
           if b =? 0 then Err ErrDivisionByZero else Ok (roundHalfAway (a * 100) b)
         else Err ErrOverflowMul) /\
      applyBinaryM "%" a b =
        (if inInt64b (a * b) then Ok (roundHalfAway (a * b) 10000)
         else Err ErrOverflowMul)) /\
  EvalMoneyExpression "92233720368547758.07+0.01" = Err ErrOverflowAdd /\
  EvalMoneyExpression "-92233720368547758.07-0.02" = Err ErrOverflowSub /\
  EvalMoneyExpression "40000000000*40000000000" = Err ErrOverflowMul /\
  EvalMoneyExpression "-(-92233720368547758.07-0.01)" = Err ErrOverflowNeg /\
  EvalMoneyExpression "abs(-92233720368547758.07-0.01)" = Err ErrOverflowAbs.
Proof.
  split; [|split; [|split; [|split; [|split]]]].
  - intros a b Ha Hb. split; [|split].
    + now apply addInt64_spec.
    + now apply subInt64_spec.
    + now apply mulInt64_spec.
  - intros. now apply evalStepMoney_NEG.
  - intros. now apply evalStepMoney_abs.
  - intros. now apply evalStepMoney_binary.
  - intros a b Ha Hb. split; [reflexivity|]. split; [reflexivity|].
    split; [now apply applyBinaryM_mul|].
    split; [now apply applyBinaryM_div|now apply applyBinaryM_percent].
  - repeat split; vm_compute; reflexivity.
Qed.

Lemma money_arithmetic_detects_overflow_witness :
  addInt64 MaxInt64 1 = Err ErrOverflowAdd /\
  subInt64 MinInt64 1 = Err ErrOverflowSub /\
  mulInt64 (2 ^ 32) (- 2 ^ 31) = Ok MinInt64 /\
  evalStepMoney (tok TOp "NEG") [MinInt64] = Err ErrOverflowNeg /\
  evalStepMoney (mkToken TFunc "abs" 0%float 1) [-5] = Ok [5].
Proof.
  pose proof money_arithmetic_detects_overflow as [Harith [Hneg [Habs _]]].
  assert (Hmax : inInt64 MaxInt64) by (unfold inInt64, MinInt64, MaxInt64; lia).
  assert (Hmin : inInt64 MinInt64) by (unfold inInt64, MinInt64, MaxInt64; lia).
  assert (H1 : inInt64 1) by (unfold inInt64, MinInt64, MaxInt64; lia).
  split; [|split; [|split; [|split]]].
  - apply (proj1 (Harith MaxInt64 1 Hmax H1)).
  - apply (proj1 (proj2 (Harith MinInt64 1 Hmin H1))).
  - apply (proj2 (proj2 (Harith (2 ^ 32) (- 2 ^ 31)
             ltac:(unfold inInt64, MinInt64, MaxInt64; lia)
             ltac:(unfold inInt64, MinInt64, MaxInt64; lia)))).
  - apply (Hneg (tok TOp "NEG") MinInt64 [] eq_refl eq_refl Hmin).
  - apply (Habs (mkToken TFunc "abs" 0%float 1) (-5) [] eq_refl eq_refl eq_refl
             ltac:(unfold inInt64, MinInt64, MaxInt64; lia)).
Defined.

(** ** Lexer: termination and constants *)

Lemma span_length p s a b :
  span p s = (a, b) -> (String.length b <= String.length s)%nat.
Proof.
  revert a b. induction s as [|c s IH]; intros a b H; cbn [span] in H.
  - inversion H. apply Nat.le_refl.
  - destruct (p c).
    + destruct (span p s) as [a' b'] eqn:E. inversion H; subst.
      specialize (IH _ _ eq_refl). cbn [String.length]. lia.
    + inversion H. apply Nat.le_refl.
Qed.

Lemma scanNumber_length s acc dc hd txt rest :
  scanNumber s acc dc hd = Ok (txt, rest) ->
  (String.length rest <= String.length s)%nat.
Proof.
  revert acc dc hd. induction s as [|c s IH]; intros acc dc hd H; cbn [scanNumber] in H.
  - inversion H. apply Nat.le_refl.
  - destruct (Ascii.eqb c ".").
    { destruct (1 <? dc + 1); [discriminate|].
      apply IH in H. cbn [String.length]. lia. }
    destruct (isDigit c).
    { apply IH in H. cbn [String.length]. lia. }
    destruct (isExpMark c && hd).
    + destruct (match s with
                | String c' rest' => if isSign c' then (str1 c', rest') else (EmptyString, s)
                | EmptyString => (EmptyString, s)
                end) as [sign after] eqn:Es.
      assert (Hafter : (String.length after <= String.length s)%nat).
      { destruct s as [|c' s']; [inversion Es; apply Nat.le_refl|].
        destruct (isSign c'); inversion Es; subst; cbn [String.length]; lia. }
      destruct (span isDigit after) as [ds tail] eqn:Ed.
      apply span_length in Ed.
      destruct ds; [discriminate|]. inversion H; subst.
      cbn [String.length]. lia.
    + inversion H; subst. apply Nat.le_refl.
Qed.

Lemma scanNumber_start c s txt rest :
  isNumStart (String c s) = true ->
  scanNumber (String c s) EmptyString 0 false = Ok (txt, rest) ->
  (String.length rest <= String.length s)%nat.
Proof.
  intros Hstart H. cbn [scanNumber isNumStart] in *.
  destruct (Ascii.eqb c ".").
  { cbn in H. now apply scanNumber_length in H. }
  destruct (isDigit c); [|discriminate].
  now apply scanNumber_length in H.
Qed.

Lemma scanNumber_error s acc dc hd e :
  scanNumber s acc dc hd = Err e -> e <> OutOfFuel.
Proof.
  revert acc dc hd. induction s as [|c s IH]; intros acc dc hd H; cbn [scanNumber] in H.
  - discriminate.
  - destruct (Ascii.eqb c ".").
    { destruct (1 <? dc + 1); [inversion H; discriminate|]. now apply IH in H. }
    destruct (isDigit c); [now apply IH in H|].
    destruct (isExpMark c && hd); [|discriminate].
    destruct (match s with
              | String c' rest' => if isSign c' then (str1 c', rest') else (EmptyString, s)
              | EmptyString => (EmptyString, s)
              end) as [sign after].
    destruct (span isDigit after) as [ds tail].
    destruct ds; [inversion H; discriminate|discriminate].
Qed.

Lemma ParseFloat_error txt e : ParseFloat txt = Err e -> e = ErrParseNumber txt.
Proof.
  unfold ParseFloat. destruct (readDecimal txt) as [[m ex]|]; [|now inversion 1].
  destruct (roundDecimal m ex); now inversion 1.
Qed.

Lemma tokenizeLoop_fuel fuel s tokens :
  (String.length s <= fuel)%nat -> tokenizeLoop fuel s tokens <> Err OutOfFuel.
Proof.
  revert s tokens. induction fuel as [|fuel IH]; intros s tokens Hlen.
  - destruct s; [discriminate|]. cbn [String.length] in Hlen. lia.
  - destruct s as [|c rest]; [discriminate|].
    cbn [String.length] in Hlen. cbn [tokenizeLoop].
    assert (Hrest : (String.length rest <= fuel)%nat) by lia.
    destruct (IsSpace c); [now apply IH|].
    destruct (Ascii.eqb c ","); [now apply IH|].
    destruct (Ascii.eqb c "("); [now apply IH|].
    destruct (Ascii.eqb c ")"); [now apply IH|].
    destruct (isOpByte c); [now apply IH|].
    destruct (isIdentStart c).
    { destruct (span isIdentContinue rest) as [more rest'] eqn:E.
      apply span_length in E.
      destruct (lookup _ constants); apply IH; lia. }
    destruct (isNumStart (String c rest)) eqn:Hstart; [|discriminate].
    destruct (scanNumber (String c rest) EmptyString 0 false) as [[txt rest']|e] eqn:Es.
    + cbn [bind]. apply scanNumber_start in Es; [|assumption].
      destruct (ParseFloat txt) as [v|e] eqn:Ep; cbn [bind].
      * apply IH. lia.
      * apply ParseFloat_error in Ep. rewrite Ep. discriminate.
    + cbn [bind]. apply scanNumber_error in Es. congruence.
Qed.

(** The lexer always returns: the bound of [tokenizeLoop] is never hit. *)
Lemma tokenize_total s : tokenize s <> Err OutOfFuel.
Proof.
  apply tokenizeLoop_fuel. apply Nat.le_refl.
Qed.

Lemma identStart_not_punct c :
  isIdentStart c = true ->
  IsSpace c = false /\ Ascii.eqb c "," = false /\ Ascii.eqb c "(" = false /\
  Ascii.eqb c ")" = false /\ isOpByte c = false.
Proof.
  destruct c as [[] [] [] [] [] [] [] []]; vm_compute; intros H;
    try discriminate H; repeat split.
Qed.

Lemma span_allIdentContinue s :
  allIdentContinue s = true -> span isIdentContinue s = (s, EmptyString).
Proof.
  induction s as [|c s IH]; cbn [allIdentContinue span]; [reflexivity|].
  intros H. apply andb_true_iff in H as [Hc Hs]. rewrite Hc, (IH Hs). reflexivity.
Qed.

Lemma tokenizeLoop_constant fuel c rest tokens more rest' v :
  isIdentStart c = true ->
  span isIdentContinue rest = (more, rest') ->
  lookup (ToLower (String c more)) constants = Some v ->
  tokenizeLoop (S fuel) (String c rest) tokens =
    tokenizeLoop fuel rest' (tokens ++ [numTok (ToLower (String c more)) v]).
Proof.
  intros Hc Hspan Hv.
  destruct (identStart_not_punct c Hc) as (H1 & H2 & H3 & H4 & H5).
  cbn [tokenizeLoop]. rewrite H1, H2, H3, H4, H5, Hc, Hspan, Hv. reflexivity.
Qed.

(** C9 (counterexample).  The identifier [PI] is lexed to a Number token
    whose text is [pi], the case-folded name, not the source text. *)
Lemma constant_token_text_is_case_folded :
  tokenize "PI" = Ok [numTok "pi" Pi] /\
  Text (numTok "pi" Pi) <> "PI".
Proof.
  split; [vm_compute; reflexivity|]. cbn. discriminate.
Qed.

(** C9 (amended).  Whenever the lexer stands at an identifier whose
    lower-cased form is an entry of the constant table, it emits a Number
    token that carries the constant's value and whose text is the
    LOWER-CASED identifier; in particular an input that is such an
    identifier lexes to that single token ([PI], [Pi] and [pi] all give the
    token [pi], and [E] gives [e]). *)
Theorem lexer_constant_token :
  (forall (fuel : nat) (c : ascii) (rest : string) (tokens : list Token)
          (more rest' : string) (v : float),
      isIdentStart c = true ->
      span isIdentContinue rest = (more, rest') ->
      lookup (ToLower (String c more)) constants = Some v ->
      tokenizeLoop (S fuel) (String c rest) tokens =
        tokenizeLoop fuel rest' (tokens ++ [numTok (ToLower (String c more)) v])) /\
  (forall (c : ascii) (more : string) (v : float),
      isIdentStart c = true ->
      allIdentContinue more = true ->
      lookup (ToLower (String c more)) constants = Some v ->
      tokenize (String c more) = Ok [numTok (ToLower (String c more)) v]) /\
  tokenize "PI" = Ok [numTok "pi" Pi] /\
  tokenize "Pi" = Ok [numTok "pi" Pi] /\
  tokenize "pi" = Ok [numTok "pi" Pi] /\
  tokenize "E" = Ok [numTok "e" E] /\
  tokenize "2*Pi" = Ok [numTok "2" 2%float; tok TOp "*"; numTok "pi" Pi].
Proof.
  split; [|split].
  - intros. now apply tokenizeLoop_constant.
  - intros c more v Hc Hmore Hv. unfold tokenize. cbn [String.length].
    rewrite (tokenizeLoop_constant _ c more [] more EmptyString v Hc
               (span_allIdentContinue more Hmore) Hv).
    destruct (String.length more); reflexivity.
  - repeat split; vm_compute; reflexivity.
Qed.

Lemma lexer_constant_token_witness :
  tokenize "pI" = Ok [numTok "pi" Pi].
Proof.
  apply (proj1 (proj2 lexer_constant_token) "p"%char "I" Pi
           eq_refl eq_refl eq_refl).
Defined.

(** ** Parser: precedence, associativity, unary signs *)

Lemma rewriteSign_unary prev t :
  Text t = "-" \/ Text t = "+" ->
  unaryPosition prev ->
  rewriteSign prev t =
    withText t (if String.eqb (Text t) "-" then "NEG" else "POS").
Proof.
  intros Hop Hpos. unfold rewriteSign.
  replace (String.eqb (Text t) "-" || String.eqb (Text t) "+") with true
    by (destruct Hop as [-> | ->]; reflexivity).
  destruct prev as [p|]; [|reflexivity].
  cbn [unaryPosition] in Hpos. unfold prevIsNil, prevIs.
  destruct Hpos as [-> | [-> | ->]]; reflexivity.
Qed.

Lemma rewriteSign_binary prev t :
  ~ unaryPosition prev -> rewriteSign prev t = t.
Proof.
  intros Hpos. unfold rewriteSign.
  destruct prev as [p|]; [|exfalso; apply Hpos; exact I].
  cbn [unaryPosition] in Hpos. unfold prevIsNil, prevIs.
  destruct (Typ p); try (exfalso; apply Hpos; tauto);
    cbn; rewrite andb_false_r; reflexivity.
Qed.


Lemma rpnStep_operator t next s :
  Typ t = TOp ->
  rpnStep t next s =
    Ok (mkP (snd (popOperators (rewriteSign (prev s) t) (stack s) (out s)))
            (rewriteSign (prev s) t
               :: fst (popOperators (rewriteSign (prev s) t) (stack s) (out s)))
            (funcParen s) (argCount s) (Some t)).
Proof.
  intros Hty. unfold rpnStep. rewrite Hty.
  destruct (popOperators _ _ _) as [stack' out']. reflexivity.
Qed.

Lemma rewriteSign_after_number p t : Typ p = TNumber -> rewriteSign (Some p) t = t.
Proof.
  intros Hp. apply rewriteSign_binary. cbn [unaryPosition]. rewrite Hp.
  intros [H|[H|H]]; discriminate H.
Qed.

Lemma popOperators_one o2 o1 outp :
  Typ o1 = TOp ->
  popOperators o2 [o1] outp =
    if appliedFirst (Text o1) (Text o2) then ([], (outp ++ [o1])%list) else ([o1], outp).
Proof.
  intros H1. cbn [popOperators]. rewrite H1. cbn [TokenType_eqb negb].
  unfold appliedFirst.
  destruct (rightAssociative (Text o2)); cbn [andb negb orb];
    destruct (Z.ltb_spec (precedence (Text o2)) (precedence (Text o1))),
             (Z.leb_spec (precedence (Text o2)) (precedence (Text o1))),
             (Z.eqb_spec (precedence (Text o2)) (precedence (Text o1)));
    try lia; reflexivity.
Qed.

Lemma toRPN_two_operators a o1 b o2 c :
  isNumber a -> isNumber b -> isNumber c -> Typ o1 = TOp -> Typ o2 = TOp ->
  toRPN [a; o1; b; o2; c] =
    Ok (if appliedFirst (Text o1) (Text o2)
        then [a; b; o1; c; o2] else [a; b; c; o2; o1]).
Proof.
  unfold isNumber. intros Ha Hb Hc H1 H2. unfold toRPN.
  cbn [toRPNLoop hd_error]. unfold rpnStep at 1. rewrite Ha. cbn [bind].
  rewrite (rpnStep_operator o1 _ _ H1). cbn [bind prev stack out funcParen argCount].
  rewrite (rewriteSign_after_number a o1 Ha). cbn [popOperators fst snd app].
  unfold rpnStep at 1. rewrite Hb. cbn [bind prev stack out funcParen argCount app].
  rewrite (rpnStep_operator o2 _ _ H2). cbn [bind prev stack out funcParen argCount].
  rewrite (rewriteSign_after_number b o2 Hb).
  rewrite (popOperators_one o2 o1 _ H1).
  unfold rpnStep at 1. rewrite Hc. cbn [bind].
  destruct (appliedFirst (Text o1) (Text o2));
    cbn [fst snd stack out drain app]; rewrite ?H1, H2; reflexivity.
Qed.

Lemma evalStep_binary M t a b st :
  Typ t = TOp -> inb (Text t) binaryOperators = true ->
  evalStep M t (b :: a :: st) = Ok (applyBinary M (Text t) a b :: st).
Proof.
  intros Hty Hop. unfold evalStep. rewrite Hty.
  assert (String.eqb (Text t) "NEG" = false /\ String.eqb (Text t) "POS" = false)
    as [-> ->].
  { unfold binaryOperators in Hop. cbn [inb] in Hop. rewrite !orb_true_iff in Hop.
    destruct Hop as [H|[H|[H|[H|[H|[H|H]]]]]]; try discriminate;
      apply String.eqb_eq in H; rewrite H; split; reflexivity. }
  change (inb (Text t) binaryOperators) with
    (inb (Text t) ["+"; "-"; "*"; "/"; "%"; "^"]) in Hop.
  rewrite Hop. reflexivity.
Qed.

Lemma evalStep_number M t st :
  Typ t = TNumber -> evalStep M t st = Ok (Value t :: st).
Proof.
  intros Hty. unfold evalStep. rewrite Hty. reflexivity.
Qed.

Lemma evalRPN_two_operators M a o1 b o2 c :
  isNumber a -> isNumber b -> isNumber c -> Typ o1 = TOp -> Typ o2 = TOp ->
  inb (Text o1) binaryOperators = true ->
  inb (Text o2) binaryOperators = true ->
  (rpn <- toRPN [a; o1; b; o2; c] ;; evalRPN M rpn) =
    Ok (if appliedFirst (Text o1) (Text o2)
        then applyBinary M (Text o2)
               (applyBinary M (Text o1) (Value a) (Value b)) (Value c)
        else applyBinary M (Text o1) (Value a)
               (applyBinary M (Text o2) (Value b) (Value c))).
Proof.
  intros Ha Hb Hc H1 H2 Hop1 Hop2.
  rewrite (toRPN_two_operators a o1 b o2 c Ha Hb Hc H1 H2). cbn [bind].
  unfold isNumber in *. unfold evalRPN.
  destruct (appliedFirst (Text o1) (Text o2)); cbn [evalLoop];
    repeat (first [ rewrite evalStep_number by assumption
                  | rewrite evalStep_binary by assumption ]; cbn [bind]);
    reflexivity.
Qed.

(** C2.  The precedence table is: [NEG] and [POS] 4, right-associative;
    [^] 3, right-associative; [*], [/], [%] 2, left-associative; binary [+]
    and [-] 1, left-associative.  The parser applies it: in [a o1 b o2 c]
    the operator [o1] is emitted, and so evaluated, before [o2] exactly
    when it binds tighter, or as tightly with [o2] left-associative.
    Hence ["2^3^2"] evaluates to 512, ["2+3*4"] to 14 and ["10-6/3"] to
    8. *)
Theorem precedence_and_associativity :
  (precedence "NEG" = 4 /\ precedence "POS" = 4 /\
   rightAssociative "NEG" = true /\ rightAssociative "POS" = true) /\
  (precedence "^" = 3 /\ rightAssociative "^" = true) /\
  (precedence "*" = 2 /\ precedence "/" = 2 /\ precedence "%" = 2 /\
   rightAssociative "*" = false /\ rightAssociative "/" = false /\
   rightAssociative "%" = false) /\
  (precedence "+" = 1 /\ precedence "-" = 1 /\
   rightAssociative "+" = false /\ rightAssociative "-" = false) /\
  (forall a o1 b o2 c : Token,
      isNumber a -> isNumber b -> isNumber c -> Typ o1 = TOp -> Typ o2 = TOp ->
      toRPN [a; o1; b; o2; c] =
        Ok (if appliedFirst (Text o1) (Text o2)
            then [a; b; o1; c; o2] else [a; b; c; o2; o1])) /\
  (forall (M : MathLib) (a o1 b o2 c : Token),
      isNumber a -> isNumber b -> isNumber c -> Typ o1 = TOp -> Typ o2 = TOp ->
      inb (Text o1) binaryOperators = true ->
      inb (Text o2) binaryOperators = true ->
      (rpn <- toRPN [a; o1; b; o2; c] ;; evalRPN M rpn) =
        Ok (if appliedFirst (Text o1) (Text o2)
            then applyBinary M (Text o2)
                   (applyBinary M (Text o1) (Value a) (Value b)) (Value c)
            else applyBinary M (Text o1) (Value a)
                   (applyBinary M (Text o2) (Value b) (Value c)))) /\
  (forall M : MathLib,
      EvalExpression M "2^3^2" = Ok 512%float /\
      EvalExpression M "2+3*4" = Ok 14%float /\
      EvalExpression M "10-6/3" = Ok 8%float).
Proof.
  split; [|split; [|split; [|split; [|split; [|split]]]]].
  - repeat split.
  - repeat split.
  - repeat split.
  - repeat split.
  - apply toRPN_two_operators.
  - apply evalRPN_two_operators.
  - intros M. repeat split; vm_compute; reflexivity.
Qed.

Lemma precedence_and_associativity_witness :
  toRPN [numTok "2" 2%float; tok TOp "^"; numTok "3" 3%float; tok TOp "^";
         numTok "2" 2%float]
    = Ok [numTok "2" 2%float; numTok "3" 3%float; numTok "2" 2%float;
          tok TOp "^"; tok TOp "^"] /\
  (rpn <- toRPN [numTok "10" 10%float; tok TOp "-"; numTok "6" 6%float;
                 tok TOp "/"; numTok "3" 3%float] ;;
   evalRPN someMathLib rpn) = Ok 8%float.
Proof.
  pose proof precedence_and_associativity as (_ & _ & _ & _ & Hparse & Heval & _).
  split.
  - apply (Hparse (numTok "2" 2%float) (tok TOp "^") (numTok "3" 3%float)
             (tok TOp "^") (numTok "2" 2%float)
             eq_refl eq_refl eq_refl eq_refl eq_refl).
  - apply (Heval someMathLib (numTok "10" 10%float) (tok TOp "-")
             (numTok "6" 6%float) (tok TOp "/") (numTok "3" 3%float)
             eq_refl eq_refl eq_refl eq_refl eq_refl eq_refl eq_refl).
Defined.



(** ** Float evaluator: the percent operator *)

(** Two float results differ when their IEEE decompositions do. *)
Ltac float_results_differ :=
  let H := fresh "H" in
  intros H;
  apply (f_equal (fun r => match r with
                           | Ok f => Prim2SF f
                           | Err _ => S754_nan
                           end)) in H;
  vm_compute in H; discriminate H.

(** C5.  On the operator [%] the float evaluator pops [b], then [a], and
    pushes [a * b / 100]: the percentage, not the remainder of [a] by [b].
    So ["5%2"] is [5 * 2 / 100] (0.1) and ["7.5%2"] is [7.5 * 2 / 100]
    (0.15), where the remainders would be 1 and 1.5. *)
Theorem percent_is_percentage_of :
  (forall (M : MathLib) (v : float) (n : Z) (a b : float) (st : list float),
      evalStep M (mkToken TOp "%" v n) (b :: a :: st)
        = Ok ((a * b / 100)%float :: st)) /\
  (forall (M : MathLib) (ta tb : string) (a b : float),
      evalRPN M [numTok ta a; numTok tb b; tok TOp "%"]
        = Ok (a * b / 100)%float) /\
  (forall M : MathLib,
      EvalExpression M "5%2" = Ok (5 * 2 / 100)%float /\
      EvalExpression M "5%2" <> Ok 1%float /\
      EvalExpression M "7.5%2" = Ok (7.5 * 2 / 100)%float /\
      EvalExpression M "7.5%2" <> Ok 1.5%float /\
      EvalExpression M "200%10" = Ok 20%float).
Proof.
  split; [|split].
  - intros. reflexivity.
  - intros. reflexivity.
  - intros M. repeat split; try (vm_compute; reflexivity); float_results_differ.
Qed.

(** ** Malformed input *)

(** C8.  ["(2+3"] fails with the mismatched-parentheses error; ["sin"], an
    identifier not followed by a left parenthesis, with the error that the
    function must be called with parentheses; ["1..2"] with the
    invalid-number error of the lexer, which reports the text [1..]; and
    ["2,3"], a comma outside any call, with the misplaced-comma error. *)
Theorem malformed_input_errors :
  forall M : MathLib,
    EvalExpression M "(2+3" = Err ErrMismatchedParens /\
    EvalExpression M "sin" = Err (ErrFuncNotCalled "sin") /\
    EvalExpression M "1..2" = Err (ErrInvalidNumber "1..") /\
    EvalExpression M "2,3" = Err ErrMisplacedComma.
Proof.
  intros M. repeat split; vm_compute; reflexivity.
Qed.

(** ** Parser: calls and arity *)

Lemma TokenType_eqb_eq a b : TokenType_eqb a b = true <-> a = b.
Proof.
  destruct a, b; cbn; split; (reflexivity || discriminate).
Qed.

Lemma TokenType_eqb_neq a b : a <> b -> TokenType_eqb a b = false.
Proof.
  intros H. destruct (TokenType_eqb a b) eqn:E; [|reflexivity].
  apply TokenType_eqb_eq in E. contradiction.
Qed.

Lemma popThroughLParen_app ops lp rest out :
  Forall notLParen ops -> Typ lp = TLParen ->
  popThroughLParen (ops ++ lp :: rest) out = (true, rest, (out ++ ops)%list).
Proof.
  intros Hops Hlp. revert out.
  induction Hops as [|o ops Ho Hops IH]; intros out; cbn [app popThroughLParen].
  - rewrite Hlp, app_nil_r. reflexivity.
  - rewrite (TokenType_eqb_neq _ _ Ho), IH, <- app_assoc. reflexivity.
Qed.

Lemma popToLParen_app ops lp rest out :
  Forall notLParen ops -> Typ lp = TLParen ->
  popToLParen (ops ++ lp :: rest) out = (true, lp :: rest, (out ++ ops)%list).
Proof.
  intros Hops Hlp. revert out.
  induction Hops as [|o ops Ho Hops IH]; intros out; cbn [app popToLParen].
  - rewrite Hlp, app_nil_r. reflexivity.
  - rewrite (TokenType_eqb_neq _ _ Ho), IH, <- app_assoc. reflexivity.
Qed.

Lemma wrap_incr_id k : 0 <= k < MaxInt64 -> wrap_incr k = k + 1.
Proof.
  intros H. unfold wrap_incr, wrap64, MaxInt64 in *. rewrite Z.mod_small; lia.
Qed.

Lemma rpnStep_lparen t next s :
  Typ t = TLParen ->
  rpnStep t next s =
    Ok (mkP (out s) (t :: stack s)
            (prevIs (prev s) TFunc :: funcParen s) (0 :: argCount s) (Some t)).
Proof.
  intros H. unfold rpnStep. rewrite H. reflexivity.
Qed.

Lemma rpnStep_comma t next s ops lp rest frames k counts :
  Typ t = TComma ->
  stack s = (ops ++ lp :: rest)%list -> Forall notLParen ops -> Typ lp = TLParen ->
  funcParen s = true :: frames -> argCount s = k :: counts ->
  0 <= k < MaxInt64 ->
  rpnStep t next s =
    Ok (mkP (out s ++ ops) (lp :: rest) (true :: frames) (k + 1 :: counts) (Some t)).
Proof.
  intros Hty Hst Hops Hlp Hfp Hac Hk. unfold rpnStep.
  rewrite Hty, Hst, (popToLParen_app _ _ _ _ Hops Hlp), Hfp, Hac, (wrap_incr_id k Hk).
  reflexivity.
Qed.

Lemma rpnStep_rparen_call t next s ops lp fn rest frames k counts :
  Typ t = TRParen ->
  stack s = (ops ++ lp :: fn :: rest)%list -> Forall notLParen ops ->
  Typ lp = TLParen -> Typ fn = TFunc ->
  funcParen s = true :: frames -> argCount s = k :: counts ->
  0 <= k < MaxInt64 ->
  rpnStep t next s =
    Ok (mkP (out s ++ ops ++ [withArity fn (if prevIs (prev s) TLParen then 0 else k + 1)])
            rest frames counts (Some t)).
Proof.
  intros Hty Hst Hops Hlp Hfn Hfp Hac Hk. unfold rpnStep.
  rewrite Hty, Hst, (popThroughLParen_app _ _ _ _ Hops Hlp), Hfp, Hac, (wrap_incr_id k Hk), Hfn.
  cbn. rewrite <- app_assoc. reflexivity.
Qed.

Lemma toRPNLoop_more_args f (rest : list Token) :
  Typ f = TFunc ->
  Forall isNumber rest ->
  forall (emitted : list Token) (k : Z) (p : Token),
    Typ p = TNumber ->
    0 <= k -> k + Z.of_nat (List.length rest) < MaxInt64 ->
    toRPNLoop (flat_map (fun x => [tok TComma ","; x]) rest ++ [tok TRParen ")"])
              (mkP emitted [tok TLParen "("; f] [true] [k] (Some p))
    = Ok (mkP (emitted ++ rest ++ [withArity f (k + Z.of_nat (List.length rest) + 1)])
              [] [] [] (Some (tok TRParen ")"))).
Proof.
  intros Hf Hrest. induction Hrest as [|a rest Ha Hrest IH]; intros emitted k p Hp Hk Hlen.
  - cbn [flat_map app toRPNLoop List.length].
    rewrite (rpnStep_rparen_call _ _ _ [] (tok TLParen "(") f [] [] k [])
      by (try reflexivity; try assumption; try constructor; cbn in *; lia).
    cbn [bind prev toRPNLoop]. unfold prevIs. rewrite Hp. cbn.
    rewrite Z.add_0_r. reflexivity.
  - cbn [flat_map app toRPNLoop List.length].
    rewrite (rpnStep_comma _ _ _ [] (tok TLParen "(") [f] [] k [])
      by (try reflexivity; try assumption; try constructor; cbn [List.length] in *; lia).
    cbn [bind toRPNLoop]. unfold rpnStep at 1. rewrite Ha. cbn [bind].
    cbn [out stack funcParen argCount].
    rewrite app_nil_r.
    rewrite (IH (emitted ++ [a])%list (k + 1) a Ha) by (cbn [List.length] in *; lia).
    rewrite <- app_assoc. cbn [app].
    replace (k + 1 + Z.of_nat (List.length rest) + 1)
      with (k + Z.of_nat (List.length (a :: rest)) + 1)
      by (cbn [List.length]; lia).
    reflexivity.
Qed.

Lemma toRPN_call f args :
  Typ f = TFunc -> Forall isNumber args ->
  Z.of_nat (List.length args) < MaxInt64 ->
  toRPN (callTokens f args) = Ok (args ++ [withArity f (Z.of_nat (List.length args))])%list.
Proof.
  intros Hf Hargs Hlen. unfold toRPN, callTokens.
  cbn [toRPNLoop hd_error]. unfold rpnStep at 1. rewrite Hf.
  cbn [prevIs Typ tok TokenType_eqb negb bind].
  cbn [out stack funcParen argCount prev].
  destruct Hargs as [|a rest Ha Hrest].
  - cbn. rewrite Hf. reflexivity.
  - cbn [commaSep app toRPNLoop]. unfold rpnStep at 1. cbn [Typ tok bind]. 
    cbn [out stack funcParen argCount prev]. unfold prevIs at 1. rewrite Hf. cbn [TokenType_eqb].
    unfold rpnStep at 1. rewrite Ha. cbn [bind out stack funcParen argCount prev app].
    rewrite (toRPNLoop_more_args f rest Hf Hrest [a] 0 a Ha) by (cbn [List.length] in *; lia).
    cbn [bind stack out drain app].
    replace (0 + Z.of_nat (List.length rest) + 1)
      with (Z.of_nat (List.length (a :: rest)))
      by (cbn [List.length]; lia).
    reflexivity.
Qed.

(** ** Float evaluator: variadic functions *)

Lemma firstn_length_app {A} (l st : list A) : firstn (List.length l) (l ++ st) = l.
Proof.
  induction l as [|x l IH]; cbn; [now destruct st|]. now rewrite IH.
Qed.

Lemma skipn_length_app {A} (l st : list A) : skipn (List.length l) (l ++ st) = st.
Proof.
  induction l as [|x l IH]; cbn; [reflexivity|]. exact IH.
Qed.

Lemma popN_args args st :
  popN (Z.of_nat (List.length args)) (rev args ++ st) = Ok (args, st).
Proof.
  unfold popN.
  destruct (Z.ltb_spec (Z.of_nat (List.length args)) 0); [lia|].
  destruct (Z.ltb_spec (Z.of_nat (List.length (rev args ++ st)))
                       (Z.of_nat (List.length args))) as [H1|H1].
  - rewrite length_app, length_rev in H1. lia.
  - rewrite Nat2Z.id, <- (length_rev args), firstn_length_app, skipn_length_app,
      rev_involutive.
    reflexivity.
Qed.

Lemma popN_short n st :
  Z.of_nat (List.length st) < n -> popN n st = Err ErrNotEnoughOperands.
Proof.
  intros H. unfold popN.
  destruct (Z.ltb_spec n 0); [lia|].
  destruct (Z.ltb_spec (Z.of_nat (List.length st)) n); [reflexivity|lia].
Qed.

Lemma foldMinMax_In name res args :
  In (foldMinMax name res args) (res :: args).
Proof.
  revert res. induction args as [|a args IH]; intros res; cbn [foldMinMax].
  - now left.
  - destruct (IH (if String.eqb name "min"
                  then if (a <? res)%float then a else res
                  else if (res <? a)%float then a else res)) as [H|H].
    + rewrite <- H.
      destruct (String.eqb name "min"), (a <? res)%float, (res <? a)%float;
        cbn; auto.
    + right. now right.
Qed.

Lemma evalStep_minmax M t a0 a1 args st :
  Typ t = TFunc -> Text t = "min" \/ Text t = "max" ->
  Arity t = Z.of_nat (List.length (a0 :: a1 :: args)) ->
  evalStep M t (rev (a0 :: a1 :: args) ++ st)
    = Ok (foldMinMax (Text t) a0 (a1 :: args) :: st).
Proof.
  intros Hty Hname Har. unfold evalStep. rewrite Hty.
  replace (inb (Text t) unaryFunctions) with false
    by (destruct Hname as [-> | ->]; reflexivity).
  replace (inb (Text t) ["min"; "max"]) with true
    by (destruct Hname as [-> | ->]; reflexivity).
  destruct (Z.ltb_spec (Arity t) 2) as [H|_].
  { rewrite Har in H. cbn [List.length] in H. lia. }
  rewrite Har, popN_args. reflexivity.
Qed.

Lemma evalStep_minmax_arity M t st :
  Typ t = TFunc -> Text t = "min" \/ Text t = "max" ->
  Arity t < 2 ->
  evalStep M t st = Err (ErrExpectsAtLeast2 (Text t)).
Proof.
  intros Hty Hname Har. unfold evalStep. rewrite Hty.
  replace (inb (Text t) unaryFunctions) with false
    by (destruct Hname as [-> | ->]; reflexivity).
  replace (inb (Text t) ["min"; "max"]) with true
    by (destruct Hname as [-> | ->]; reflexivity).
  destruct (Z.ltb_spec (Arity t) 2); [reflexivity|lia].
Qed.

Lemma evalStep_minmax_short M t st :
  Typ t = TFunc -> Text t = "min" \/ Text t = "max" ->
  2 <= Arity t -> Z.of_nat (List.length st) < Arity t ->
  evalStep M t st = Err ErrNotEnoughOperands.
Proof.
  intros Hty Hname Har Hlen. unfold evalStep. rewrite Hty.
  replace (inb (Text t) unaryFunctions) with false
    by (destruct Hname as [-> | ->]; reflexivity).
  replace (inb (Text t) ["min"; "max"]) with true
    by (destruct Hname as [-> | ->]; reflexivity).
  destruct (Z.ltb_spec (Arity t) 2); [lia|].
  rewrite popN_short by assumption. reflexivity.
Qed.

(** C4.  A left parenthesis opens a frame whose counter is 0 and which is a
    call exactly when the previous token is a Function; a comma adds one
    to the counter of the innermost frame; at the right parenthesis of a
    call the Function token is emitted with arity the counter plus one,
    or zero when the previous token is the left parenthesis itself.  Hence
    a call with [n] number arguments parses to the arguments followed by
    the function with arity [n].  The float evaluator gives [min] and
    [max] exactly [Arity] popped arguments, in the order they were written,
    and folds them; an arity below 2 is the expects-at-least-2 error and a
    stack shorter than the arity is the not-enough-operands error.  So
    ["min(5,2,7,3)"] is 2. *)
Theorem call_arity_and_variadic_functions :
  (forall (t : Token) (next : option Token) (s : pstate),
      Typ t = TLParen ->
      rpnStep t next s =
        Ok (mkP (out s) (t :: stack s)
                (prevIs (prev s) TFunc :: funcParen s) (0 :: argCount s) (Some t))) /\
  (forall (t : Token) (next : option Token) (s : pstate)
          (ops : list Token) (lp : Token) (rest : list Token)
          (frames : list bool) (k : Z) (counts : list Z),
      Typ t = TComma ->
      stack s = (ops ++ lp :: rest)%list -> Forall notLParen ops -> Typ lp = TLParen ->
      funcParen s = true :: frames -> argCount s = k :: counts ->
      0 <= k < MaxInt64 ->
      rpnStep t next s =
        Ok (mkP (out s ++ ops) (lp :: rest) (true :: frames) (k + 1 :: counts)
                (Some t))) /\
  (forall (t : Token) (next : option Token) (s : pstate)
          (ops : list Token) (lp fn : Token) (rest : list Token)
          (frames : list bool) (k : Z) (counts : list Z),
      Typ t = TRParen ->
      stack s = (ops ++ lp :: fn :: rest)%list -> Forall notLParen ops ->
      Typ lp = TLParen -> Typ fn = TFunc ->
      funcParen s = true :: frames -> argCount s = k :: counts ->
      0 <= k < MaxInt64 ->
      rpnStep t next s =
        Ok (mkP (out s ++ ops ++
                   [withArity fn (if prevIs (prev s) TLParen then 0 else k + 1)])
                rest frames counts (Some t))) /\
  (forall (f : Token) (args : list Token),
      Typ f = TFunc -> Forall isNumber args ->
      Z.of_nat (List.length args) < MaxInt64 ->
      toRPN (callTokens f args)
        = Ok (args ++ [withArity f (Z.of_nat (List.length args))])%list) /\
  (forall (M : MathLib) (t : Token) (a0 a1 : float) (args st : list float),
      Typ t = TFunc -> Text t = "min" \/ Text t = "max" ->
      Arity t = Z.of_nat (List.length (a0 :: a1 :: args)) ->
      evalStep M t (rev (a0 :: a1 :: args) ++ st)
        = Ok (foldMinMax (Text t) a0 (a1 :: args) :: st) /\
      In (foldMinMax (Text t) a0 (a1 :: args)) (a0 :: a1 :: args)) /\
  (forall (M : MathLib) (t : Token) (st : list float),
      Typ t = TFunc -> Text t = "min" \/ Text t = "max" ->
      (Arity t < 2 -> evalStep M t st = Err (ErrExpectsAtLeast2 (Text t))) /\
      (2 <= Arity t -> Z.of_nat (List.length st) < Arity t ->
       evalStep M t st = Err ErrNotEnoughOperands)) /\
  (forall M : MathLib,
      EvalExpression M "min(5,2,7,3)" = Ok 2%float /\
      EvalExpression M "max(5,2,7,3)" = Ok 7%float /\
      EvalExpression M "min(2, max(3, 4, 1))" = Ok 2%float /\
      EvalExpression M "min(5)" = Err (ErrExpectsAtLeast2 "min") /\
      EvalExpression M "max()" = Err (ErrExpectsAtLeast2 "max")).
Proof.
  split; [|split; [|split; [|split; [|split; [|split]]]]].
  - intros. now apply rpnStep_lparen.
  - intros. now apply rpnStep_comma.
  - intros. eapply rpnStep_rparen_call; eassumption.
  - intros. now apply toRPN_call.
  - intros M t a0 a1 args st Hty Hname Har. split.
    + now apply evalStep_minmax.
    + apply foldMinMax_In.
  - intros M t st Hty Hname. split; intros.
    + now apply evalStep_minmax_arity.
    + now apply evalStep_minmax_short.
  - intros M. repeat split; vm_compute; reflexivity.
Qed.

Lemma call_arity_and_variadic_functions_witness :
  toRPN (callTokens (tok TFunc "max")
           [numTok "5" 5%float; numTok "2" 2%float; numTok "7" 7%float])
    = Ok [numTok "5" 5%float; numTok "2" 2%float; numTok "7" 7%float;
          mkToken TFunc "max" 0%float 3] /\
  rpnStep (tok TRParen ")") None
      (mkP [] [tok TLParen "("; tok TFunc "f"] [true] [0] (Some (tok TLParen "(")))
    = Ok (mkP [mkToken TFunc "f" 0%float 0] [] [] [] (Some (tok TRParen ")"))) /\
  rpnStep (tok TComma ",") None
      (mkP [numTok "1" 1%float] [tok TLParen "("; tok TFunc "f"] [true] [0]
           (Some (numTok "1" 1%float)))
    = Ok (mkP [numTok "1" 1%float] [tok TLParen "("; tok TFunc "f"] [true] [1]
              (Some (tok TComma ","))) /\
  evalStep someMathLib (mkToken TFunc "max" 0%float 3) [7%float; 2%float; 5%float]
    = Ok [7%float] /\
  evalStep someMathLib (mkToken TFunc "min" 0%float 1) [5%float]
    = Err (ErrExpectsAtLeast2 "min").
Proof.
  pose proof call_arity_and_variadic_functions
    as (_ & Hcomma & Hrparen & Hcall & Heval & Herr & _).
  split; [|split; [|split; [|split]]].
  - apply (Hcall (tok TFunc "max")
             [numTok "5" 5%float; numTok "2" 2%float; numTok "7" 7%float]
             eq_refl).
    + repeat constructor.
    + unfold MaxInt64. cbn. lia.
  - apply (Hrparen (tok TRParen ")") None
             (mkP [] [tok TLParen "("; tok TFunc "f"] [true] [0]
                  (Some (tok TLParen "(")))
             [] (tok TLParen "(") (tok TFunc "f") [] [] 0 []
             eq_refl eq_refl (Forall_nil _) eq_refl eq_refl eq_refl eq_refl).
    unfold MaxInt64. lia.
  - apply (Hcomma (tok TComma ",") None
             (mkP [numTok "1" 1%float] [tok TLParen "("; tok TFunc "f"] [true] [0]
                  (Some (numTok "1" 1%float)))
             [] (tok TLParen "(") [tok TFunc "f"] [] 0 []
             eq_refl eq_refl (Forall_nil _) eq_refl eq_refl eq_refl).
    unfold MaxInt64. lia.
  - apply (proj1 (Heval someMathLib (mkToken TFunc "max" 0%float 3)
                    5%float 2%float [7%float] []
                    eq_refl (or_intror eq_refl) eq_refl)).
  - apply (proj1 (Herr someMathLib (mkToken TFunc "min" 0%float 1) [5%float]
                    eq_refl (or_introl eq_refl))).
    cbn. lia.
Defined.

(** ** Money evaluator: exponentiation *)

Lemma isCaret_spec t : isCaret t = true -> Typ t = TOp /\ Text t = "^".
Proof.
  unfold isCaret. intros H. apply andb_true_iff in H as [H1 H2].
  split; [now apply TokenType_eqb_eq|now apply String.eqb_eq].
Qed.

Lemma evalStepMoney_caret t st :
  isCaret t = true -> evalStepMoney t st = Err (ErrMoneyOperator "^").
Proof.
  intros H. apply isCaret_spec in H as [Hty Htx].
  unfold evalStepMoney. rewrite Hty, Htx. reflexivity.
Qed.

Lemma evalLoopMoney_app pre post st :
  evalLoopMoney (pre ++ post) st = (st' <- evalLoopMoney pre st ;; evalLoopMoney post st').
Proof.
  revert st. induction pre as [|t pre IH]; intros st; cbn [app evalLoopMoney bind].
  - reflexivity.
  - destruct (evalStepMoney t st) as [st'|e]; cbn [bind]; [apply IH|reflexivity].
Qed.

Lemma evalLoopMoney_caret rpn st :
  existsb isCaret rpn = true -> exists e, evalLoopMoney rpn st = Err e.
Proof.
  revert st. induction rpn as [|t rpn IH]; intros st H; cbn [existsb] in H.
  - discriminate.
  - cbn [evalLoopMoney]. destruct (isCaret t) eqn:Ht.
    + rewrite (evalStepMoney_caret t st Ht). cbn [bind]. eauto.
    + cbn [orb] in H. destruct (evalStepMoney t st) as [st'|e]; cbn [bind].
      * now apply IH.
      * eauto.
Qed.

Lemma evalRPNMoney_caret rpn :
  existsb isCaret rpn = true -> exists e, evalRPNMoney rpn = Err e.
Proof.
  intros H. unfold evalRPNMoney.
  destruct (evalLoopMoney_caret rpn [] H) as [e ->]. cbn [bind]. eauto.
Qed.

Lemma evalRPNMoney_reaches_caret pre t post st :
  isCaret t = true -> evalLoopMoney pre [] = Ok st ->
  evalRPNMoney (pre ++ t :: post) = Err (ErrMoneyOperator "^").
Proof.
  intros Ht Hpre. unfold evalRPNMoney.
  rewrite evalLoopMoney_app, Hpre. cbn [bind evalLoopMoney].
  rewrite (evalStepMoney_caret t st Ht). reflexivity.
Qed.

Lemma EvalMoneyExpression_caret expr toks rpn :
  tokenize expr = Ok toks -> toRPN toks = Ok rpn ->
  existsb isCaret rpn = true ->
  exists e, EvalMoneyExpression expr = Err e.
Proof.
  intros Htok Hrpn H. unfold EvalMoneyExpression.
  rewrite Htok. cbn [bind]. rewrite Hrpn. cbn [bind].
  now apply evalRPNMoney_caret.
Qed.

Lemma evalRPNMoney_fails_before pre post e :
  evalLoopMoney pre [] = Err e -> evalRPNMoney (pre ++ post) = Err e.
Proof.
  intros Hpre. unfold evalRPNMoney.
  rewrite evalLoopMoney_app, Hpre. reflexivity.
Qed.

(** C10 (counterexample).  The postfix form of ["(1/0)^2"] holds the token
    [^], yet money mode answers with the division-by-zero error: the
    division is evaluated, and fails, before the [^] is reached.  Likewise
    ["pi^2"] fails on its literal. *)
Lemma caret_error_may_be_preceded :
  (toks <- tokenize "(1/0)^2" ;; rpn <- toRPN toks ;; Ok (existsb isCaret rpn))
    = Ok true /\
  EvalMoneyExpression "(1/0)^2" = Err ErrDivisionByZero /\
  EvalMoneyExpression "(1/0)^2" <> Err (ErrMoneyOperator "^") /\
  (toks <- tokenize "pi^2" ;; rpn <- toRPN toks ;; Ok (existsb isCaret rpn))
    = Ok true /\
  EvalMoneyExpression "pi^2" = Err (ErrNonNumericLiteral "pi").
Proof.
  repeat split; try (vm_compute; reflexivity).
  vm_compute. discriminate.
Qed.

(** C10 (amended).  The lexer and the parser accept [^] (in float mode
    ["2^3"] is 8), the money evaluator does not: a postfix sequence that
    holds a [^] operator token never evaluates to a number in money mode.
    The error is the operator-not-supported error when the tokens before
    the first [^] evaluate without error, as in ["2^3"]; when one of them
    fails, the error is that token's. *)
Theorem money_rejects_exponentiation :
  (forall rpn : list Token,
      existsb isCaret rpn = true -> exists e, evalRPNMoney rpn = Err e) /\
  (forall (pre : list Token) (t : Token) (post : list Token) (st : list Z),
      isCaret t = true -> evalLoopMoney pre [] = Ok st ->
      evalRPNMoney (pre ++ t :: post) = Err (ErrMoneyOperator "^")) /\
  (forall (pre post : list Token) (e : error),
      evalLoopMoney pre [] = Err e -> evalRPNMoney (pre ++ post) = Err e) /\
  (forall (expr : string) (toks rpn : list Token),
      tokenize expr = Ok toks -> toRPN toks = Ok rpn ->
      existsb isCaret rpn = true ->
      exists e, EvalMoneyExpression expr = Err e) /\
  EvalMoneyExpression "2^3" = Err (ErrMoneyOperator "^") /\
  EvalMoneyExpression "1+2^3*4" = Err (ErrMoneyOperator "^") /\
  (forall M : MathLib, EvalExpression M "2^3" = Ok 8%float).
Proof.
  split; [|split; [|split; [|split]]].
  - apply evalRPNMoney_caret.
  - apply evalRPNMoney_reaches_caret.
  - apply evalRPNMoney_fails_before.
  - apply EvalMoneyExpression_caret.
  - repeat split; try intros M; vm_compute; reflexivity.
Qed.

Lemma money_rejects_exponentiation_witness :
  evalRPNMoney [numTok "2" 2%float; numTok "3" 3%float; tok TOp "^"]
    = Err (ErrMoneyOperator "^") /\
  exists e, EvalMoneyExpression "(1/0)^2" = Err e.
Proof.
  pose proof money_rejects_exponentiation as (_ & Hreach & _ & Hexpr & _).
  split.
  - apply (Hreach [numTok "2" 2%float; numTok "3" 3%float] (tok TOp "^") []
             [300; 200] eq_refl).
    vm_compute. reflexivity.
  - apply (Hexpr "(1/0)^2"
             [tok TLParen "("; numTok "1" 1%float; tok TOp "/"; numTok "0" 0%float;
              tok TRParen ")"; tok TOp "^"; numTok "2" 2%float]
             [numTok "1" 1%float; numTok "0" 0%float; tok TOp "/";
              numTok "2" 2%float; tok TOp "^"]).
    + vm_compute. reflexivity.
    + vm_compute. reflexivity.
    + reflexivity.
Defined.

(** ** Money literals: accepted texts and their values *)

Lemma digit_facts c :
  isDigit c = true ->
  Ascii.eqb c "." = false /\ isExpMark c = false /\ isSign c = false /\
  0 <= digitVal c <= 9.
Proof.
  destruct c as [[] [] [] [] [] [] [] []]; vm_compute; intros H;
    try discriminate H; repeat split; discriminate.
Qed.

Lemma digitsToZ_acc acc s :
  digitsToZ acc s = acc * 10 ^ Z.of_nat (String.length s) + digitsToZ 0 s.
Proof.
  revert acc. induction s as [|c s IH]; intros acc; cbn [digitsToZ String.length].
  - cbn. lia.
  - rewrite IH, (IH (10 * 0 + digitVal c)).
    rewrite Nat2Z.inj_succ, Z.pow_succ_r by lia. lia.
Qed.

Lemma digitsToZ_nonneg s : allDigitsLoop s = true -> 0 <= digitsToZ 0 s.
Proof.
  induction s as [|c s IH]; cbn [allDigitsLoop digitsToZ]; [lia|].
  destruct (isDigit c) eqn:Hc; [|discriminate]. intros Hs.
  rewrite digitsToZ_acc. destruct (digit_facts c Hc) as (_ & _ & _ & Hv).
  specialize (IH Hs). 
  assert (0 <= 10 ^ Z.of_nat (String.length s)) by (apply Z.pow_nonneg; lia).
  nia.
Qed.

Lemma containsExpMark_digits s : allDigitsLoop s = true -> containsExpMark s = false.
Proof.
  induction s as [|c s IH]; cbn [allDigitsLoop containsExpMark]; [reflexivity|].
  destruct (isDigit c) eqn:Hc; [|discriminate]. intros Hs.
  destruct (digit_facts c Hc) as (_ & -> & _). now apply IH.
Qed.

Lemma containsExpMark_app a b :
  containsExpMark (a ++ b) = containsExpMark a || containsExpMark b.
Proof.
  induction a as [|c a IH]; cbn [append containsExpMark]; [reflexivity|].
  rewrite IH. apply orb_assoc.
Qed.

Lemma countDots_digits s : allDigitsLoop s = true -> countDots s = 0.
Proof.
  induction s as [|c s IH]; cbn [allDigitsLoop countDots]; [reflexivity|].
  destruct (isDigit c) eqn:Hc; [|discriminate]. intros Hs.
  destruct (digit_facts c Hc) as (-> & _). rewrite (IH Hs). reflexivity.
Qed.

Lemma countDots_app a b : countDots (a ++ b) = countDots a + countDots b.
Proof.
  induction a as [|c a IH]; cbn [append countDots]; [reflexivity|].
  rewrite IH. lia.
Qed.

Lemma splitAtDot_digits s : allDigitsLoop s = true -> splitAtDot s = (s, None).
Proof.
  induction s as [|c s IH]; cbn [allDigitsLoop splitAtDot]; [reflexivity|].
  destruct (isDigit c) eqn:Hc; [|discriminate]. intros Hs.
  destruct (digit_facts c Hc) as (-> & _). rewrite (IH Hs). reflexivity.
Qed.

Lemma splitAtDot_point ip fp :
  allDigitsLoop ip = true -> splitAtDot (ip ++ "." ++ fp) = (ip, Some fp).
Proof.
  induction ip as [|c s IH]; cbn [allDigitsLoop splitAtDot append]; [reflexivity|].
  destruct (isDigit c) eqn:Hc; [|discriminate]. intros Hs.
  destruct (digit_facts c Hc) as (-> & _). cbn [append] in IH. rewrite (IH Hs). reflexivity.
Qed.

Lemma numericLoop_digits s b : allDigitsLoop s = true -> numericLoop s b = true.
Proof.
  induction s as [|c s IH]; cbn [allDigitsLoop numericLoop]; [reflexivity|].
  destruct (isDigit c) eqn:Hc; [|discriminate]. intros Hs.
  destruct (digit_facts c Hc) as (-> & _). cbn [negb]. now apply IH.
Qed.

Lemma numericLoop_point ip fp :
  allDigitsLoop ip = true -> allDigitsLoop fp = true ->
  numericLoop (ip ++ "." ++ fp) false = true.
Proof.
  intros Hip Hfp. induction ip as [|c s IH]; cbn [append numericLoop].
  - now apply numericLoop_digits.
  - cbn [allDigitsLoop] in Hip. destruct (isDigit c) eqn:Hc; [|discriminate].
    destruct (digit_facts c Hc) as (-> & _). cbn [negb]. now apply IH.
Qed.

Lemma numericLoop_seen s : numericLoop s true = true -> allDigitsLoop s = true.
Proof.
  induction s as [|c s IH]; cbn [allDigitsLoop numericLoop]; [reflexivity|].
  destruct (Ascii.eqb c "."); [discriminate|].
  destruct (isDigit c); [exact IH|discriminate].
Qed.

Lemma numericLoop_inv s :
  numericLoop s false = true ->
  exists ip frac,
    s = literalText ip frac /\ allDigitsLoop ip = true /\
    allDigitsLoop (fracDigits frac) = true.
Proof.
  induction s as [|c s IH]; cbn [numericLoop].
  - intros _. exists EmptyString, None. repeat split.
  - destruct (Ascii.eqb_spec c ".") as [->|Hne].
    + intros H. apply numericLoop_seen in H.
      exists EmptyString, (Some s). repeat split. exact H.
    + destruct (isDigit c) eqn:Hc; [|discriminate]. cbn [negb]. intros H.
      destruct (IH H) as (ip & frac & -> & Hip & Hfp).
      exists (String c ip), frac. repeat split.
      * destruct frac; reflexivity.
      * cbn [allDigitsLoop]. now rewrite Hc.
      * exact Hfp.
Qed.

(** [isNumericLiteral] accepts exactly the non-empty plain decimal literals. *)
Lemma isNumericLiteral_spec txt :
  isNumericLiteral txt = true <->
  txt <> EmptyString /\
  exists ip frac,
    txt = literalText ip frac /\ allDigitsLoop ip = true /\
    allDigitsLoop (fracDigits frac) = true.
Proof.
  split.
  - destruct txt as [|c s]; [discriminate|]. unfold isNumericLiteral.
    destruct (containsExpMark (String c s)); [discriminate|].
    intros H. split; [discriminate|]. now apply numericLoop_inv.
  - intros (Hne & ip & frac & -> & Hip & Hfp).
    assert (Hexp : containsExpMark (literalText ip frac) = false).
    { destruct frac as [fp|]; cbn [literalText fracDigits] in *.
      - rewrite !containsExpMark_app, (containsExpMark_digits ip Hip),
          (containsExpMark_digits fp Hfp). reflexivity.
      - now apply containsExpMark_digits. }
    assert (Hloop : numericLoop (literalText ip frac) false = true).
    { destruct frac as [fp|]; cbn [literalText fracDigits] in *.
      - now apply numericLoop_point.
      - now apply numericLoop_digits. }
    unfold isNumericLiteral.
    destruct (literalText ip frac); [contradiction|].
    rewrite Hexp. exact Hloop.
Qed.

Lemma zeroIfEmpty_digits s :
  allDigitsLoop s = true ->
  allDigits (zeroIfEmpty s) = true /\ digitsToZ 0 (zeroIfEmpty s) = digitsToZ 0 s.
Proof.
  destruct s as [|c s]; [split; reflexivity|]. intros H. split; [exact H|reflexivity].
Qed.

Lemma allDigits_loop s : allDigits s = true -> allDigitsLoop s = true.
Proof.
  destruct s; [discriminate|]. trivial.
Qed.

Lemma ParseInt_digits ds :
  allDigits ds = true ->
  ParseInt ds =
    if digitsToZ 0 ds <=? MaxInt64 then Some (digitsToZ 0 ds) else None.
Proof.
  intros H. pose proof (digitsToZ_nonneg ds (allDigits_loop ds H)) as Hv.
  unfold ParseInt. destruct ds as [|c r]; [discriminate|].
  assert (Hc : isDigit c = true).
  { cbn in H. destruct (isDigit c); [reflexivity|discriminate]. }
  destruct (digit_facts c Hc) as (_ & _ & -> & _).
  rewrite H.
  destruct (Z.leb_spec MinInt64 (digitsToZ 0 (String c r))) as [_|Hlt];
    [reflexivity|unfold MinInt64 in Hlt; lia].
Qed.

Lemma padFrac_value fp :
  allDigitsLoop fp = true -> (String.length fp <= 2)%nat ->
  allDigits (padFrac (zeroIfEmpty fp)) = true /\
  digitsToZ 0 (padFrac (zeroIfEmpty fp)) = fracCents fp /\
  0 <= fracCents fp <= 99.
Proof.
  intros Hd Hlen. unfold fracCents.
  destruct fp as [|c1 [|c2 [|c3 fp]]]; cbn [String.length] in Hlen; try lia.
  - repeat split; cbn; lia.
  - cbn [allDigitsLoop] in Hd. destruct (isDigit c1) eqn:H1; [|discriminate].
    destruct (digit_facts c1 H1) as (_ & _ & _ & Hv).
    cbn [zeroIfEmpty padFrac allDigits allDigitsLoop digitsToZ String.length].
    rewrite H1. change (isDigit "0") with true.
    change (digitVal "0") with 0. change (2 - Z.of_nat 1) with 1.
    repeat split; lia.
  - cbn [allDigitsLoop] in Hd. destruct (isDigit c1) eqn:H1; [|discriminate].
    destruct (isDigit c2) eqn:H2; [|discriminate].
    destruct (digit_facts c1 H1) as (_ & _ & _ & Hv1).
    destruct (digit_facts c2 H2) as (_ & _ & _ & Hv2).
    cbn [zeroIfEmpty padFrac allDigits allDigitsLoop digitsToZ String.length].
    rewrite H1, H2. change (2 - Z.of_nat 2) with 0.
    repeat split; lia.
Qed.

Lemma zeroIfEmpty_length fp :
  (2 <? String.length (zeroIfEmpty fp))%nat = (2 <? String.length fp)%nat.
Proof.
  destruct fp; reflexivity.
Qed.

Lemma literalText_split ip frac :
  allDigitsLoop ip = true -> allDigitsLoop (fracDigits frac) = true ->
  containsExpMark (literalText ip frac) = false /\
  (1 <? countDots (literalText ip frac)) = false /\
  splitAtDot (literalText ip frac) = (ip, frac).
Proof.
  intros Hip Hfp. destruct frac as [fp|]; cbn [literalText fracDigits] in *.
  - rewrite !containsExpMark_app, !countDots_app, (containsExpMark_digits ip Hip),
      (containsExpMark_digits fp Hfp), (countDots_digits ip Hip),
      (countDots_digits fp Hfp), (splitAtDot_point ip fp Hip).
    repeat split.
  - rewrite (containsExpMark_digits ip Hip), (countDots_digits ip Hip),
      (splitAtDot_digits ip Hip).
    repeat split.
Qed.

Lemma parseCents_literal ip frac :
  allDigitsLoop ip = true -> allDigitsLoop (fracDigits frac) = true ->
  literalText ip frac <> EmptyString ->
  parseCents (literalText ip frac) =
    if (2 <? String.length (fracDigits frac))%nat
    then Err (ErrTooManyDecimals (literalText ip frac))
    else if MaxInt64 <? digitsToZ 0 ip
    then Err (ErrInvalidMoneyRange (literalText ip frac))
    else if MaxInt64 <? digitsToZ 0 ip * 100
    then Err (ErrMoneyOverflow (literalText ip frac))
    else if MaxInt64 <? centsOf ip frac then Err ErrOverflowAdd
    else Ok (centsOf ip frac).
Proof.
  intros Hip Hfp Hne.
  destruct (literalText_split ip frac Hip Hfp) as (Hexp & Hdots & Hsplit).
  destruct (zeroIfEmpty_digits ip Hip) as [Hip1 Hip2].
  destruct (zeroIfEmpty_digits _ Hfp) as [Hfp1 _].
  pose proof (digitsToZ_nonneg ip Hip) as Hnn.
  unfold parseCents.
  destruct (literalText ip frac) as [|c0 s0] eqn:Etxt; [contradiction|].
  rewrite Hexp, Hdots, Hsplit.
  change (match frac with Some f => f | None => EmptyString end) with (fracDigits frac).
  rewrite Hip1, Hfp1. cbn [negb orb].
  rewrite zeroIfEmpty_length.
  destruct (2 <? String.length (fracDigits frac))%nat eqn:Hlen; [reflexivity|].
  apply Nat.ltb_ge in Hlen.
  destruct (padFrac_value _ Hfp Hlen) as (Hpad1 & Hpad2 & Hpad3).
  rewrite (ParseInt_digits _ Hip1), Hip2.
  destruct (Z.leb_spec (digitsToZ 0 ip) MaxInt64) as [Hle|Hgt];
    destruct (Z.ltb_spec MaxInt64 (digitsToZ 0 ip)); try lia; [|reflexivity].
  rewrite (ParseInt_digits _ Hpad1), Hpad2.
  destruct (Z.leb_spec (fracCents (fracDigits frac)) MaxInt64) as [_|Hbad];
    [|unfold MaxInt64 in Hbad; lia].
  assert (Hw : inInt64 (digitsToZ 0 ip)) by (int64_bounds; lia).
  rewrite mulInt64_spec by (try assumption; int64_bounds; unfold moneyScale; lia).
  unfold moneyScale. unfold centsOf.
  destruct (Z.ltb_spec MaxInt64 (digitsToZ 0 ip * 100)) as [Hov|Hok].
  - replace (inInt64b (digitsToZ 0 ip * 100)) with false; [reflexivity|].
    symmetry. int64_bounds. apply andb_false_iff. right. apply Z.leb_gt. lia.
  - replace (inInt64b (digitsToZ 0 ip * 100)) with true.
    2:{ symmetry. apply inInt64b_spec. int64_bounds. lia. }
    rewrite addInt64_spec by (int64_bounds; lia).
    destruct (Z.ltb_spec MaxInt64 (digitsToZ 0 ip * 100 + fracCents (fracDigits frac))).
    + replace (inInt64b _) with false; [reflexivity|].
      symmetry. int64_bounds. apply andb_false_iff. right. apply Z.leb_gt. lia.
    + replace (inInt64b _) with true; [reflexivity|].
      symmetry. apply inInt64b_spec. int64_bounds. lia.
Qed.

Lemma evalStepMoney_not_plain t st :
  Typ t = TNumber -> isNumericLiteral (Text t) = false ->
  evalStepMoney t st = Err (ErrNonNumericLiteral (Text t)).
Proof.
  intros Hty Hlit. unfold evalStepMoney. rewrite Hty, Hlit. reflexivity.
Qed.

Lemma evalStepMoney_literal t st ip frac :
  Typ t = TNumber -> Text t = literalText ip frac ->
  allDigitsLoop ip = true -> allDigitsLoop (fracDigits frac) = true ->
  literalText ip frac <> EmptyString ->
  evalStepMoney t st =
    if (2 <? String.length (fracDigits frac))%nat
    then Err (ErrTooManyDecimals (literalText ip frac))
    else if MaxInt64 <? digitsToZ 0 ip
    then Err (ErrInvalidMoneyRange (literalText ip frac))
    else if MaxInt64 <? digitsToZ 0 ip * 100
    then Err (ErrMoneyOverflow (literalText ip frac))
    else if MaxInt64 <? centsOf ip frac then Err ErrOverflowAdd
    else Ok (centsOf ip frac :: st).
Proof.
  intros Hty Htx Hip Hfp Hne.
  assert (Hlit : isNumericLiteral (Text t) = true).
  { apply isNumericLiteral_spec. rewrite Htx. split; [assumption|].
    exists ip, frac. repeat split; assumption. }
  unfold evalStepMoney. rewrite Hty, Hlit, Htx. cbn [negb].
  rewrite (parseCents_literal ip frac Hip Hfp Hne).
  destruct (2 <? String.length (fracDigits frac))%nat; [reflexivity|].
  destruct (MaxInt64 <? digitsToZ 0 ip); [reflexivity|].
  destruct (MaxInt64 <? digitsToZ 0 ip * 100); [reflexivity|].
  destruct (MaxInt64 <? centsOf ip frac); reflexivity.
Qed.

(** C7.  In money mode a Number token is accepted exactly when its text
    is a plain decimal literal (digits, at most one point, no exponent)
    with at most two fractional digits.  A text that is not a plain
    literal, such as the token [pi] of a constant or [1e2], fails with the
    non-numeric-literal error, and a plain literal with three or more
    fractional digits with the too-many-decimal-places error.  An accepted
    literal with whole digits [ip] and fractional digits [fp] pushes
    [ip * 100 + fp], [fp] right-padded with zeros to two digits, when that
    fits int64; when the whole part, its scaling by 100 or the final sum
    exceeds int64, the result is an error instead of a wrapped value. *)
Theorem money_literals :
  (forall (t : Token) (st : list Z),
      Typ t = TNumber -> isNumericLiteral (Text t) = false ->
      evalStepMoney t st = Err (ErrNonNumericLiteral (Text t))) /\
  (forall txt : string,
      isNumericLiteral txt = true <->
      txt <> EmptyString /\
      exists ip frac,
        txt = literalText ip frac /\ allDigitsLoop ip = true /\
        allDigitsLoop (fracDigits frac) = true) /\
  (forall (t : Token) (st : list Z) (ip : string) (frac : option string),
      Typ t = TNumber -> Text t = literalText ip frac ->
      allDigitsLoop ip = true -> allDigitsLoop (fracDigits frac) = true ->
      literalText ip frac <> EmptyString ->
      evalStepMoney t st =
        if (2 <? String.length (fracDigits frac))%nat
        then Err (ErrTooManyDecimals (literalText ip frac))
        else if MaxInt64 <? digitsToZ 0 ip
        then Err (ErrInvalidMoneyRange (literalText ip frac))
        else if MaxInt64 <? digitsToZ 0 ip * 100
        then Err (ErrMoneyOverflow (literalText ip frac))
        else if MaxInt64 <? centsOf ip frac then Err ErrOverflowAdd
        else Ok (centsOf ip frac :: st)) /\
  (EvalMoneyExpression "1e2" = Err (ErrNonNumericLiteral "1e2") /\
   EvalMoneyExpression "pi" = Err (ErrNonNumericLiteral "pi") /\
   EvalMoneyExpression "1.234" = Err (ErrTooManyDecimals "1.234") /\
   EvalMoneyExpression "sin(1)" = Err (ErrMoneyFunction "sin")) /\
  (EvalMoneyExpression "12.5" = Ok 1250 /\
   EvalMoneyExpression "0.05" = Ok 5 /\
   EvalMoneyExpression ".5" = Ok 50 /\
   EvalMoneyExpression "7." = Ok 700 /\
   EvalMoneyExpression "92233720368547758.07" = Ok MaxInt64) /\
  (EvalMoneyExpression "92233720368547758.08" = Err ErrOverflowAdd /\
   EvalMoneyExpression "92233720368547759"
     = Err (ErrMoneyOverflow "92233720368547759") /\
   EvalMoneyExpression "9223372036854775808"
     = Err (ErrInvalidMoneyRange "9223372036854775808")).
Proof.
  split; [|split; [|split]].
  - apply evalStepMoney_not_plain.
  - apply isNumericLiteral_spec.
  - apply evalStepMoney_literal.
  - repeat split; vm_compute; reflexivity.
Qed.

Lemma money_literals_witness :
  evalStepMoney (numTok "1e2" 100%float) [] = Err (ErrNonNumericLiteral "1e2") /\
  evalStepMoney (numTok "12.5" 12.5%float) [] = Ok [1250] /\
  evalStepMoney (numTok "1.375" 1.375%float) [] = Err (ErrTooManyDecimals "1.375").
Proof.
  pose proof money_literals as (Hbad & _ & Hlit & _).
  split; [|split].
  - apply (Hbad (numTok "1e2" 100%float) [] eq_refl eq_refl).
  - apply (Hlit (numTok "12.5" 12.5%float) [] "12" (Some "5")
             eq_refl eq_refl eq_refl eq_refl).
    cbn. discriminate.
  - apply (Hlit (numTok "1.375" 1.375%float) [] "1" (Some "375")
             eq_refl eq_refl eq_refl eq_refl).
    cbn. discriminate.
Defined.

(** * Invariants, error cases and laws of the operations *)

(** ** Parser: what a successful parse guarantees *)

Lemma popToLParen_inv stk outp stk' out' :
  popToLParen stk outp = (true, stk', out') ->
  exists ops lp rest,
    stk = (ops ++ lp :: rest)%list /\ Forall notLParen ops /\ Typ lp = TLParen /\
    stk' = lp :: rest /\ out' = (outp ++ ops)%list.
Proof.
  revert outp. induction stk as [|top below IH]; intros outp H; cbn [popToLParen] in H.
  - discriminate.
  - destruct (TokenType_eqb (Typ top) TLParen) eqn:E.
    + inversion H; subst. apply TokenType_eqb_eq in E.
      exists [], top, below. rewrite app_nil_r. repeat split; auto.
    + apply IH in H as (ops & lp & rest & -> & Hops & Hlp & -> & ->).
      exists (top :: ops), lp, rest. rewrite <- app_assoc. repeat split; auto.
      constructor; [|assumption]. intros C. unfold notLParen in *.
      rewrite C in E. discriminate.
Qed.

Lemma popThroughLParen_inv stk outp stk' out' :
  popThroughLParen stk outp = (true, stk', out') ->
  exists ops lp,
    stk = (ops ++ lp :: stk')%list /\ Forall notLParen ops /\ Typ lp = TLParen /\
    out' = (outp ++ ops)%list.
Proof.
  revert outp. induction stk as [|top below IH]; intros outp H; cbn [popThroughLParen] in H.
  - discriminate.
  - destruct (TokenType_eqb (Typ top) TLParen) eqn:E.
    + inversion H; subst. apply TokenType_eqb_eq in E.
      exists [], top. rewrite app_nil_r. repeat split; auto.
    + apply IH in H as (ops & lp & -> & Hops & Hlp & ->).
      exists (top :: ops), lp. rewrite <- app_assoc. repeat split; auto.
      constructor; [|assumption]. intros C. rewrite C in E. discriminate.
Qed.

Lemma popOperators_inv t stk outp :
  exists ops,
    stk = (ops ++ fst (popOperators t stk outp))%list /\
    Forall (fun o => Typ o = TOp) ops /\
    snd (popOperators t stk outp) = (outp ++ ops)%list.
Proof.
  revert outp. induction stk as [|top below IH]; intros outp; cbn [popOperators].
  - exists []. cbn [fst snd app]. rewrite app_nil_r. repeat split; auto.
  - destruct (TokenType_eqb (Typ top) TOp) eqn:E; cbn [negb].
    2:{ exists []. cbn [fst snd app]. rewrite app_nil_r. repeat split; auto. }
    apply TokenType_eqb_eq in E.
    destruct (_ || _).
    + destruct (IH (outp ++ [top])%list) as (ops & H1 & H2 & H3).
      exists (top :: ops). rewrite H3, <- app_assoc. cbn [app].
      rewrite <- H1. repeat split; auto.
    + exists []. cbn [fst snd app]. rewrite app_nil_r. repeat split; auto.
Qed.

Lemma rpnStep_shape t next s s' :
  rpnStep t next s = Ok s' -> stepShape t s s'.
Proof.
  unfold rpnStep. destruct (Typ t) eqn:Hty.
  - intros H. inversion H. apply shapeNumber; first [assumption | reflexivity | congruence].
  - pose proof (popOperators_inv (rewriteSign (prev s) t) (stack s) (out s))
      as (ops & H1 & H2 & H3).
    destruct (popOperators (rewriteSign (prev s) t) (stack s) (out s))
      as [stk' out'] eqn:E.
    cbn [fst snd] in H1, H3.
    intros H. inversion H. subst out'.
    apply (shapeOp t s _ ops stk'); [exact Hty|exact H1|exact H2|reflexivity].
  - destruct (negb _); [discriminate|]. intros H. inversion H. apply shapeFunc; first [assumption | reflexivity | congruence].
  - destruct (popToLParen (stack s) (out s)) as [[found stk'] out'] eqn:E.
    destruct (funcParen s) as [|[] frames] eqn:Hfp; try discriminate.
    destruct found; cbn [negb]; [|discriminate].
    destruct (argCount s) as [|k counts] eqn:Hac; [discriminate|].
    intros H. inversion H.
    apply popToLParen_inv in E as (ops & lp & rest & Hst & Hops & Hlp & -> & ->).
    apply (shapeComma t s _ ops lp rest frames k counts); first [assumption | reflexivity | congruence].
  - intros H. inversion H. apply shapeLParen; first [assumption | reflexivity | congruence].
  - destruct (popThroughLParen (stack s) (out s)) as [[found stk'] out'] eqn:E.
    destruct found; cbn [negb]; [|discriminate].
    apply popThroughLParen_inv in E as (ops & lp & Hst & Hops & Hlp & ->).
    destruct (funcParen s) as [|b frames] eqn:Hfp; [discriminate|].
    destruct (argCount s) as [|k counts] eqn:Hac; [discriminate|].
    destruct b.
    + destruct stk' as [|fn rest]; [discriminate|].
      destruct (TokenType_eqb (Typ fn) TFunc) eqn:Hfn; [|discriminate].
      apply TokenType_eqb_eq in Hfn.
      intros H. inversion H. rewrite <- app_assoc.
      apply (shapeRParenCall t s _ ops lp fn rest frames k counts
               (if prevIs (prev s) TLParen then 0 else wrap_incr k)); first [assumption | reflexivity | congruence].
    + intros H. inversion H.
      apply (shapeRParenGroup t s _ ops lp stk' frames k counts); first [assumption | reflexivity | congruence].
Qed.

Lemma Typ_withArity fn n : Typ (withArity fn n) = Typ fn.
Proof. reflexivity. Qed.

Lemma Typ_rewriteSign prev t : Typ (rewriteSign prev t) = Typ t.
Proof.
  unfold rewriteSign. destruct (_ && _); reflexivity.
Qed.

Lemma countTyp_app ty a b : countTyp ty (a ++ b) = (countTyp ty a + countTyp ty b)%nat.
Proof.
  unfold countTyp. now rewrite filter_app, length_app.
Qed.

Lemma countTyp_cons ty t l :
  countTyp ty (t :: l) = ((if hasTyp ty t then 1 else 0) + countTyp ty l)%nat.
Proof.
  unfold countTyp. cbn [filter]. destruct (hasTyp ty t); reflexivity.
Qed.

(** Operators and functions popped from below a parenthesis. *)
Lemma popped_facts ops :
  Forall notLParen ops -> forallb isStackKind ops = true ->
  forallb isRpnKind ops = true /\ countTyp TLParen ops = 0%nat /\
  filter (hasTyp TNumber) ops = [] /\
  filter (fun t => negb (hasTyp TLParen t)) ops = ops.
Proof.
  induction 1 as [|o ops Ho Hops IH]; cbn [forallb filter]; [repeat split|].
  intros H. apply andb_true_iff in H as [Hk Hks].
  destruct (IH Hks) as (I1 & I2 & I3 & I4).
  unfold notLParen in Ho. rewrite countTyp_cons.
  unfold isStackKind, isRpnKind, hasTyp in *.
  destruct (Typ o); try discriminate; try contradiction;
    cbn [TokenType_eqb negb andb]; rewrite ?I1, ?I2, ?I3, ?I4; repeat split.
Qed.

Lemma operators_notLParen ops :
  Forall (fun o => Typ o = TOp) ops ->
  Forall notLParen ops /\ forallb isStackKind ops = true.
Proof.
  induction 1 as [|o ops Ho Hops [IH1 IH2]]; [split; [constructor|reflexivity]|].
  split.
  - constructor; [|assumption]. unfold notLParen. rewrite Ho. discriminate.
  - cbn [forallb]. unfold isStackKind at 1. rewrite Ho. exact IH2.
Qed.

Lemma stepShape_invariant done t s s' :
  parserInvariant done s -> stepShape t s s' -> parserInvariant (done ++ [t]) s'.
Proof.
  intros [Iout Istk Ifr Icnt Ibal Inum Ilen] Hshape.
  destruct Hshape as
    [Hty -> | Hty -> | Hty ->
    | ops lp rest frames k counts Hty Hst Hops Hlp Hfp Hac ->
    | ops lp rest frames k counts Hty Hst Hops Hlp Hfp Hac ->
    | ops lp fn rest frames k counts n Hty Hst Hops Hlp Hfn Hfp Hac ->
    | ops below Hty Hst Hops ->].
  - constructor; cbn [out stack funcParen argCount]; try assumption.
    + rewrite forallb_app, Iout. cbn. unfold isRpnKind. now rewrite Hty.
    + rewrite !countTyp_app, !countTyp_cons. unfold hasTyp. rewrite Hty. cbn. lia.
    + rewrite !filter_app, Inum. cbn [filter]. reflexivity.
    + rewrite !filter_app, !length_app, <- Ilen. cbn [filter].
      unfold isRpnKind at 1. rewrite Hty. cbn. lia.
  - constructor; cbn [out stack funcParen argCount]; try assumption.
    + cbn [forallb]. unfold isStackKind at 1. now rewrite Hty.
    + rewrite countTyp_cons. unfold hasTyp. rewrite Hty. cbn. exact Ifr.
    + rewrite !countTyp_app, !countTyp_cons. unfold hasTyp. rewrite Hty. cbn. lia.
    + rewrite !filter_app, Inum. cbn [filter]. unfold hasTyp. rewrite Hty.
      cbn. now rewrite app_nil_r.
    + rewrite !filter_app, !length_app, <- Ilen. cbn [filter].
      unfold isRpnKind at 1. unfold hasTyp at 1. rewrite Hty. cbn. lia.
  - constructor; cbn [out stack funcParen argCount]; try assumption.
    + cbn [forallb]. unfold isStackKind at 1. now rewrite Hty.
    + rewrite countTyp_cons. unfold hasTyp. rewrite Hty. cbn. now rewrite Ifr.
    + cbn [List.length]. now rewrite Icnt.
    + rewrite !countTyp_app, !countTyp_cons. unfold hasTyp. rewrite Hty. cbn. lia.
    + rewrite !filter_app, Inum. cbn [filter]. unfold hasTyp. rewrite Hty.
      cbn. now rewrite app_nil_r.
    + rewrite !filter_app, !length_app, <- Ilen. cbn [filter].
      unfold isRpnKind at 1. unfold hasTyp at 1. rewrite Hty. cbn. lia.
  - rewrite Hst in *. rewrite forallb_app in Istk. apply andb_true_iff in Istk as [Iops Irest].
    destruct (popped_facts ops Hops Iops) as (P1 & P2 & P3 & P4).
    constructor; cbn [out stack funcParen argCount].
    + now rewrite forallb_app, Iout, P1.
    + exact Irest.
    + rewrite Ifr, countTyp_app, P2. reflexivity.
    + rewrite <- Icnt, Hac. reflexivity.
    + rewrite !countTyp_app, !countTyp_cons in *. unfold hasTyp in *. rewrite Hty in *.
      cbn in *. lia.
    + rewrite !filter_app, Inum, P3. cbn [filter]. unfold hasTyp. rewrite Hty.
      cbn. now rewrite !app_nil_r.
    + rewrite !filter_app, !length_app in *. rewrite P4 in Ilen. rewrite <- Ilen.
      cbn [filter]. unfold isRpnKind at 1. rewrite Hty. cbn. lia.
  - rewrite Hst in *. rewrite forallb_app in Istk. apply andb_true_iff in Istk as [Iops Irest].
    destruct (popped_facts ops Hops Iops) as (P1 & P2 & P3 & P4).
    cbn [forallb] in Irest. apply andb_true_iff in Irest as [_ Irest].
    rewrite Hfp, Hac in *.
    constructor; cbn [out stack funcParen argCount].
    + now rewrite forallb_app, Iout, P1.
    + exact Irest.
    + rewrite countTyp_app, countTyp_cons, P2 in Ifr. unfold hasTyp in Ifr.
      rewrite Hlp in Ifr. cbn in Ifr. lia.
    + cbn [List.length] in Icnt. lia.
    + rewrite !countTyp_app, !countTyp_cons in *. unfold hasTyp in *.
      rewrite Hty, Hlp, P2 in *. cbn in *. lia.
    + rewrite !filter_app, Inum, P3. cbn [filter]. unfold hasTyp. rewrite Hty.
      cbn. now rewrite !app_nil_r.
    + assert (Elp : hasTyp TLParen lp = true) by (unfold hasTyp; now rewrite Hlp).
      rewrite filter_app, length_app, P4 in Ilen. cbn [filter] in Ilen.
      rewrite Elp in Ilen. cbn [negb] in Ilen.
      rewrite !filter_app, !length_app, <- Ilen. cbn [filter].
      unfold isRpnKind at 1. rewrite Hty. cbn. lia.
  - rewrite Hst in *. rewrite forallb_app in Istk. apply andb_true_iff in Istk as [Iops Irest].
    destruct (popped_facts ops Hops Iops) as (P1 & P2 & P3 & P4).
    cbn [forallb] in Irest. apply andb_true_iff in Irest as [_ Irest].
    apply andb_true_iff in Irest as [_ Irest].
    rewrite Hfp, Hac in *.
    constructor; cbn [out stack funcParen argCount].
    + rewrite !forallb_app, Iout, P1. cbn. unfold isRpnKind. now rewrite Typ_withArity, Hfn.
    + exact Irest.
    + rewrite countTyp_app, !countTyp_cons, P2 in Ifr. unfold hasTyp in Ifr.
      rewrite Hlp, Hfn in Ifr. cbn in Ifr. lia.
    + cbn [List.length] in Icnt. lia.
    + rewrite !countTyp_app, !countTyp_cons in *. unfold hasTyp in *.
      rewrite Hty, Hlp, Hfn, P2 in *. cbn in *. lia.
    + rewrite !filter_app, Inum, P3. cbn [filter]. unfold hasTyp.
      rewrite Typ_withArity, Hty, Hfn. cbn. now rewrite !app_nil_r.
    + assert (Elp : hasTyp TLParen lp = true) by (unfold hasTyp; now rewrite Hlp).
      assert (Efn : hasTyp TLParen fn = false) by (unfold hasTyp; now rewrite Hfn).
      rewrite filter_app, length_app, P4 in Ilen. cbn [filter] in Ilen.
      rewrite Elp, Efn in Ilen. cbn [negb List.length] in Ilen.
      rewrite !filter_app, !length_app, <- Ilen. cbn [filter].
      unfold isRpnKind at 1. rewrite Hty. cbn. lia.
  - rewrite Hst in *. rewrite forallb_app in Istk. apply andb_true_iff in Istk as [Iops Irest].
    destruct (operators_notLParen ops Hops) as [Hnl _].
    destruct (popped_facts ops Hnl Iops) as (P1 & P2 & P3 & P4).
    constructor; cbn [out stack funcParen argCount].
    + now rewrite forallb_app, Iout, P1.
    + cbn [forallb]. unfold isStackKind at 1. now rewrite Typ_rewriteSign, Hty.
    + rewrite countTyp_cons. unfold hasTyp. rewrite Typ_rewriteSign, Hty. cbn.
      rewrite Ifr, countTyp_app, P2. reflexivity.
    + exact Icnt.
    + rewrite !countTyp_app, !countTyp_cons in *. unfold hasTyp in *.
      rewrite Typ_rewriteSign, Hty, P2 in *. cbn in *. lia.
    + rewrite !filter_app, Inum, P3. cbn [filter]. unfold hasTyp. rewrite Hty.
      cbn. now rewrite !app_nil_r.
    + rewrite !filter_app, !length_app in *. rewrite P4 in Ilen. rewrite <- Ilen.
      cbn [filter]. unfold isRpnKind at 1. unfold hasTyp at 1.
      rewrite Typ_rewriteSign, Hty. cbn. lia.
Qed.

Lemma parserInvariant_init : parserInvariant [] (mkP [] [] [] [] None).
Proof.
  constructor; reflexivity.
Qed.

Lemma toRPNLoop_invariant tokens :
  forall done s s',
    parserInvariant done s -> toRPNLoop tokens s = Ok s' ->
    parserInvariant (done ++ tokens) s'.
Proof.
  induction tokens as [|t rest IH]; intros done s s' Hinv H; cbn [toRPNLoop] in H.
  - inversion H; subst. now rewrite app_nil_r.
  - destruct (rpnStep t (hd_error rest) s) as [s1|e] eqn:Hstep; [|discriminate].
    cbn [bind] in H. apply rpnStep_shape in Hstep.
    replace (done ++ t :: rest)%list with ((done ++ [t]) ++ rest)%list
      by (rewrite <- app_assoc; reflexivity).
    apply (IH _ s1); [|assumption].
    now apply (stepShape_invariant done t s).
Qed.

Lemma drain_inv stk outp rpn :
  drain stk outp = Ok rpn -> forallb isStackKind stk = true ->
  rpn = (outp ++ stk)%list /\ Forall (fun o => Typ o = TOp) stk.
Proof.
  revert outp. induction stk as [|top below IH]; intros outp H Hk; cbn [drain] in H.
  - inversion H. rewrite app_nil_r. split; [reflexivity|constructor].
  - cbn [forallb] in Hk. apply andb_true_iff in Hk as [Hk Hks].
    unfold isStackKind in Hk.
    destruct (Typ top) eqn:Hty; try discriminate.
    cbn [TokenType_eqb orb] in H.
    destruct (IH _ H Hks) as [-> Hops].
    rewrite <- app_assoc. split; [reflexivity|]. now constructor.
Qed.

(** What [toRPN] guarantees about a successful parse. *)
Lemma toRPN_invariants tokens rpn :
  toRPN tokens = Ok rpn ->
  forallb isRpnKind rpn = true /\
  countTyp TLParen tokens = countTyp TRParen tokens /\
  filter (hasTyp TNumber) rpn = filter (hasTyp TNumber) tokens /\
  List.length rpn = List.length (filter isRpnKind tokens).
Proof.
  unfold toRPN. destruct (toRPNLoop tokens _) as [s|e] eqn:Hloop; [|discriminate].
  cbn [bind]. intros Hdrain.
  pose proof (toRPNLoop_invariant tokens [] _ s parserInvariant_init Hloop)
    as [Iout Istk Ifr Icnt Ibal Inum Ilen].
  cbn [app] in *.
  destruct (drain_inv _ _ _ Hdrain Istk) as [-> Hops].
  destruct (operators_notLParen _ Hops) as [Hnl _].
  destruct (popped_facts _ Hnl Istk) as (P1 & P2 & P3 & P4).
  repeat split.
  - now rewrite forallb_app, Iout, P1.
  - rewrite P2 in Ibal. cbn in Ibal. lia.
  - now rewrite filter_app, P3, app_nil_r.
  - rewrite P4 in Ilen. now rewrite length_app.
Qed.

(** X1.  A token sequence that [toRPN] accepts has as many left as right
    parentheses. *)
Theorem toRPN_balanced_parentheses tokens rpn :
  toRPN tokens = Ok rpn -> countTyp TLParen tokens = countTyp TRParen tokens.
Proof.
  intros H. now destruct (toRPN_invariants tokens rpn H) as (_ & Hb & _).
Qed.

Lemma toRPN_balanced_parentheses_witness :
  countTyp TLParen [tok TLParen "("; numTok "1" 1; tok TRParen ")"] =
  countTyp TRParen [tok TLParen "("; numTok "1" 1; tok TRParen ")"].
Proof.
  apply (toRPN_balanced_parentheses _ [numTok "1" 1]). reflexivity.
Defined.

(** X2.  The postfix sequence that [toRPN] returns holds numbers, operators
    and functions only, and exactly as many tokens as the input has of
    these three kinds: the parentheses and commas are dropped, and no other
    token is dropped or added. *)
Theorem toRPN_postfix_tokens tokens rpn :
  toRPN tokens = Ok rpn ->
  forallb isRpnKind rpn = true /\
  List.length rpn = List.length (filter isRpnKind tokens).
Proof.
  intros H. destruct (toRPN_invariants tokens rpn H) as (Hk & _ & _ & Hl).
  now split.
Qed.

Lemma toRPN_postfix_tokens_witness :
  forallb isRpnKind [numTok "1" 1; numTok "2" 2; tok TOp "+"] = true /\
  List.length [numTok "1" 1; numTok "2" 2; tok TOp "+"] =
  List.length (filter isRpnKind
    [tok TLParen "("; numTok "1" 1; tok TOp "+"; numTok "2" 2; tok TRParen ")"]).
Proof.
  apply (toRPN_postfix_tokens
           [tok TLParen "("; numTok "1" 1; tok TOp "+"; numTok "2" 2; tok TRParen ")"]).
  reflexivity.
Defined.

(** X3.  [toRPN] keeps the operands in the order of the input: the number
    tokens of the postfix sequence are the number tokens of the input,
    unchanged and in the same order. *)
Theorem toRPN_number_order tokens rpn :
  toRPN tokens = Ok rpn ->
  filter (hasTyp TNumber) rpn = filter (hasTyp TNumber) tokens.
Proof.
  intros H. now destruct (toRPN_invariants tokens rpn H) as (_ & _ & Hn & _).
Qed.

Lemma toRPN_number_order_witness :
  filter (hasTyp TNumber)
    [numTok "1" 1; numTok "2" 2; numTok "3" 3; tok TOp "*"; tok TOp "+"] =
  filter (hasTyp TNumber)
    [numTok "1" 1; tok TOp "+"; numTok "2" 2; tok TOp "*"; numTok "3" 3].
Proof.
  apply (toRPN_number_order
           [numTok "1" 1; tok TOp "+"; numTok "2" 2; tok TOp "*"; numTok "3" 3]).
  reflexivity.
Defined.

(** ** Parser: where the postfix tokens come from *)

Lemma derivedFrom_refl t : derivedFrom t t.
Proof.
  repeat split; auto.
Qed.

Lemma derivedFrom_rewriteSign prev t :
  Typ t = TOp -> derivedFrom (rewriteSign prev t) t.
Proof.
  intros Hty. unfold rewriteSign.
  destruct (String.eqb (Text t) "-") eqn:Em; cbn [orb andb].
  - apply String.eqb_eq in Em.
    destruct (_ || _); [|apply derivedFrom_refl].
    unfold derivedFrom. cbn [withText Typ Value Text Arity]. tauto.
  - destruct (String.eqb (Text t) "+") eqn:Ep; cbn [andb]; [|apply derivedFrom_refl].
    apply String.eqb_eq in Ep.
    destruct (_ || _); [|apply derivedFrom_refl].
    unfold derivedFrom. cbn [withText Typ Value Text Arity]. tauto.
Qed.

Lemma derivedFrom_withArity x t n :
  Typ t = TFunc -> derivedFrom x t -> derivedFrom (withArity x n) t.
Proof.
  intros Hty (H1 & H2 & H3 & H4). repeat split; auto. intros C. contradiction.
Qed.

Lemma fromInput_more done t x : fromInput done x -> fromInput (done ++ [t]) x.
Proof.
  intros (t0 & Hin & Hd). exists t0. split; [|assumption].
  apply in_or_app. now left.
Qed.

Lemma fromInput_last done t x : derivedFrom x t -> fromInput (done ++ [t]) x.
Proof.
  intros Hd. exists t. split; [|assumption]. apply in_or_app. right. now left.
Qed.

Lemma stepShape_provenance done t s s' :
  Forall (fromInput done) (out s) -> Forall (fromInput done) (stack s) ->
  stepShape t s s' ->
  Forall (fromInput (done ++ [t])) (out s') /\
  Forall (fromInput (done ++ [t])) (stack s').
Proof.
  intros Hout Hstk Hshape.
  assert (Hout' : Forall (fromInput (done ++ [t])) (out s))
    by (eapply Forall_impl; [apply fromInput_more|exact Hout]).
  assert (Hstk' : Forall (fromInput (done ++ [t])) (stack s))
    by (eapply Forall_impl; [apply fromInput_more|exact Hstk]).
  clear Hout Hstk.
  destruct Hshape as
    [Hty -> | Hty -> | Hty ->
    | ops lp rest frames k counts Hty Hst Hops Hlp Hfp Hac ->
    | ops lp rest frames k counts Hty Hst Hops Hlp Hfp Hac ->
    | ops lp fn rest frames k counts n Hty Hst Hops Hlp Hfn Hfp Hac ->
    | ops below Hty Hst Hops ->];
    cbn [out stack]; try rewrite Hst in Hstk';
    repeat match goal with
           | H : Forall _ (_ ++ _) |- _ => apply Forall_app in H as [? ?]
           | H : Forall _ (_ :: _) |- _ => apply Forall_cons_iff in H as [? ?]
           end.
  - split; [|assumption]. apply Forall_app. split; [assumption|].
    constructor; [|constructor]. apply fromInput_last, derivedFrom_refl.
  - split; [assumption|]. constructor; [|assumption].
    apply fromInput_last, derivedFrom_refl.
  - split; [assumption|]. constructor; [|assumption].
    apply fromInput_last, derivedFrom_refl.
  - split; [apply Forall_app; now split|now constructor].
  - split; [apply Forall_app; now split|assumption].
  - split; [|assumption]. apply Forall_app. split; [assumption|].
    apply Forall_app. split; [assumption|]. constructor; [|constructor].
    match goal with
    | H : fromInput _ fn |- _ => destruct H as (t0 & Hin & Hd)
    end.
    exists t0. split; [assumption|]. apply derivedFrom_withArity; [|assumption].
    destruct Hd as (Hd & _). congruence.
  - split; [apply Forall_app; now split|]. constructor; [|assumption].
    now apply fromInput_last, derivedFrom_rewriteSign.
Qed.

Lemma toRPNLoop_provenance tokens :
  forall done s s',
    Forall (fromInput done) (out s) -> Forall (fromInput done) (stack s) ->
    toRPNLoop tokens s = Ok s' ->
    Forall (fromInput (done ++ tokens)) (out s') /\
    Forall (fromInput (done ++ tokens)) (stack s').
Proof.
  induction tokens as [|t rest IH]; intros done s s' Hout Hstk H; cbn [toRPNLoop] in H.
  - inversion H; subst. rewrite app_nil_r. now split.
  - destruct (rpnStep t (hd_error rest) s) as [s1|e] eqn:Hstep; [|discriminate].
    cbn [bind] in H. apply rpnStep_shape in Hstep.
    destruct (stepShape_provenance done t s s1 Hout Hstk Hstep) as [Ho1 Hs1].
    replace (done ++ t :: rest)%list with ((done ++ [t]) ++ rest)%list
      by (rewrite <- app_assoc; reflexivity).
    now apply (IH _ s1).
Qed.

Lemma toRPN_provenance tokens rpn :
  toRPN tokens = Ok rpn -> Forall (fromInput tokens) rpn.
Proof.
  unfold toRPN. destruct (toRPNLoop tokens _) as [s|e] eqn:Hloop; [|discriminate].
  cbn [bind]. intros Hdrain.
  destruct (toRPNLoop_provenance tokens [] (mkP [] [] [] [] None) s
              (Forall_nil _) (Forall_nil _) Hloop) as [Hout Hstk].
  cbn [app] in *.
  pose proof (toRPNLoop_invariant tokens [] _ s parserInvariant_init Hloop) as [_ Istk _ _ _ _ _].
  destruct (drain_inv _ _ _ Hdrain Istk) as [-> _].
  apply Forall_app. now split.
Qed.

(** X4.  Every token of the postfix sequence comes from a token of the
    input: it has the same type and value, the same text unless it is a
    prefix [-] or [+] rewritten to [NEG] or [POS], and the same arity unless
    it is a function, whose arity the parser sets. *)
Theorem toRPN_tokens_from_input tokens rpn :
  toRPN tokens = Ok rpn -> Forall (fromInput tokens) rpn.
Proof.
  apply toRPN_provenance.
Qed.

Lemma toRPN_tokens_from_input_witness :
  Forall (fromInput [tok TOp "-"; numTok "1" 1])
         [numTok "1" 1; tok TOp "NEG"].
Proof.
  apply (toRPN_tokens_from_input [tok TOp "-"; numTok "1" 1]). reflexivity.
Defined.

(** ** Parser: error cases *)

Lemma rpnStep_no_panic done t next s :
  parserInvariant done s -> rpnStep t next s <> Err Panic.
Proof.
  intros [_ _ _ Icnt _ _ _]. unfold rpnStep.
  destruct (Typ t); try discriminate.
  - destruct (popOperators _ _ _). discriminate.
  - destruct (negb _); discriminate.
  - destruct (popToLParen _ _) as [[found stk'] out'].
    destruct (funcParen s) as [|[] frames]; try discriminate.
    destruct (negb found); [discriminate|].
    destruct (argCount s); [discriminate Icnt|discriminate].
  - destruct (popThroughLParen _ _) as [[found stk'] out'].
    destruct (negb found); [discriminate|].
    destruct (funcParen s) as [|b frames]; [discriminate|].
    destruct (argCount s); [discriminate Icnt|].
    destruct b; [|discriminate].
    destruct stk' as [|fn rest]; [discriminate|].
    destruct (TokenType_eqb _ _); discriminate.
Qed.

Lemma toRPNLoop_no_panic tokens :
  forall done s, parserInvariant done s -> toRPNLoop tokens s <> Err Panic.
Proof.
  induction tokens as [|t rest IH]; intros done s Hinv; cbn [toRPNLoop].
  - discriminate.
  - destruct (rpnStep t (hd_error rest) s) as [s1|e] eqn:Hstep; cbn [bind].
    + apply (IH (done ++ [t])%list).
      apply (stepShape_invariant done t s); [assumption|].
      now apply rpnStep_shape in Hstep.
    + intros C. inversion C; subst.
      now apply (rpnStep_no_panic done t (hd_error rest) s Hinv).
Qed.

Lemma drain_no_panic stk outp : drain stk outp <> Err Panic.
Proof.
  revert outp. induction stk as [|top below IH]; intros outp; cbn [drain].
  - discriminate.
  - destruct (_ || _); [discriminate|].
    destruct (TokenType_eqb _ _); [discriminate|apply IH].
Qed.

Lemma toRPN_no_panic tokens : toRPN tokens <> Err Panic.
Proof.
  unfold toRPN.
  destruct (toRPNLoop tokens _) as [s|e] eqn:Hloop; cbn [bind].
  - apply drain_no_panic.
  - intros C. inversion C; subst.
    now apply (toRPNLoop_no_panic tokens [] _ parserInvariant_init).
Qed.

Lemma rpnStep_errors t next s e :
  rpnStep t next s = Err e ->
  isParseError e = true \/ e = Panic \/ e = ErrMissingFuncName.
Proof.
  unfold rpnStep. destruct (Typ t); try discriminate.
  - destruct (popOperators _ _ _). discriminate.
  - destruct (negb _); [|discriminate]. intros H. inversion H. now left.
  - destruct (popToLParen _ _) as [[found stk'] out'].
    destruct (funcParen s) as [|[] frames]; try (intros H; inversion H; now left).
    destruct (negb found); [intros H; inversion H; now left|].
    destruct (argCount s); [intros H; inversion H; auto|discriminate].
  - destruct (popThroughLParen _ _) as [[found stk'] out'].
    destruct (negb found); [intros H; inversion H; now left|].
    destruct (funcParen s) as [|b frames]; [intros H; inversion H; now left|].
    destruct (argCount s); [intros H; inversion H; auto|].
    destruct b; [|discriminate].
    destruct stk' as [|fn rest]; [intros H; inversion H; auto|].
    destruct (TokenType_eqb _ _); [discriminate|intros H; inversion H; auto].
Qed.

Lemma toRPNLoop_errors tokens s e :
  toRPNLoop tokens s = Err e ->
  isParseError e = true \/ e = Panic \/ e = ErrMissingFuncName.
Proof.
  revert s. induction tokens as [|t rest IH]; intros s H; cbn [toRPNLoop] in H.
  - discriminate.
  - destruct (rpnStep t (hd_error rest) s) as [s1|e1] eqn:Hs; cbn [bind] in H.
    + now apply IH in H.
    + inversion H; subst. now apply rpnStep_errors in Hs.
Qed.

Lemma drain_errors stk outp e :
  drain stk outp = Err e -> e = ErrMismatchedParens \/ e = ErrFuncMissingParens.
Proof.
  revert outp. induction stk as [|top below IH]; intros outp H; cbn [drain] in H.
  - discriminate.
  - destruct (_ || _); [inversion H; now left|].
    destruct (TokenType_eqb _ _); [inversion H; now right|now apply IH in H].
Qed.

Lemma stackShape_drop ops stk fp :
  Forall notLParen ops -> stackShape (ops ++ stk) fp -> stackShape stk fp.
Proof.
  induction 1 as [|o ops Ho Hops IH]; cbn [app]; [trivial|].
  intros H. inversion H; subst; try contradiction; auto.
Qed.

Lemma stackShape_head_not_func fn stk fp :
  Typ fn = TFunc -> ~ stackShape (fn :: stk) fp.
Proof.
  intros Hfn H. inversion H; subst; congruence.
Qed.

Lemma rpnStep_func_checked t next s s' :
  Typ t = TFunc -> rpnStep t next s = Ok s' -> prevIs next TLParen = true.
Proof.
  intros Hty. unfold rpnStep. rewrite Hty.
  destruct (prevIs next TLParen); [reflexivity|discriminate].
Qed.

Lemma prevIs_Some t ty : prevIs (Some t) ty = TokenType_eqb (Typ t) ty.
Proof. reflexivity. Qed.

Lemma rpnStep_shapeInvariant t rest s s' :
  shapeInvariant (t :: rest) s -> rpnStep t (hd_error rest) s = Ok s' ->
  shapeInvariant rest s'.
Proof.
  intros Hinv Hstep. pose proof (rpnStep_shape _ _ _ _ Hstep) as Hshape.
  assert (Hchk : Typ t = TFunc -> prevIs (hd_error rest) TLParen = true)
    by (intros Hf; exact (rpnStep_func_checked t _ s s' Hf Hstep)).
  clear Hstep.
  destruct Hinv as [[Hsh Hprev] | (fn0 & stk0 & Hst0 & Hfn0 & Hsh & Hprev & Hnext)].
  - destruct Hshape as
      [Hty -> | Hty -> | Hty ->
      | ops lp rest0 frames k counts Hty Hst Hops Hlp Hfp Hac ->
      | ops lp rest0 frames k counts Hty Hst Hops Hlp Hfp Hac ->
      | ops lp fn rest0 frames k counts n Hty Hst Hops Hlp Hfn Hfp Hac ->
      | ops below Hty Hst Hops ->].
    + left. cbn [stack funcParen prev]. rewrite prevIs_Some, Hty. auto.
    + right. exists t, (stack s). cbn [stack funcParen prev].
      rewrite prevIs_Some, Hty. repeat split; auto.
    + left. cbn [stack funcParen prev]. rewrite prevIs_Some, Hty, Hprev.
      split; [|reflexivity]. now apply shapeGroup.
    + left. cbn [stack funcParen prev]. rewrite prevIs_Some, Hty.
      split; [|reflexivity]. rewrite Hst in Hsh. now apply (stackShape_drop ops).
    + left. cbn [stack funcParen prev]. rewrite prevIs_Some, Hty.
      split; [|reflexivity]. rewrite Hst, Hfp in Hsh.
      apply (stackShape_drop ops) in Hsh; [|assumption].
      inversion Hsh; subst; congruence.
    + left. cbn [stack funcParen prev]. rewrite prevIs_Some, Hty.
      split; [|reflexivity]. rewrite Hst, Hfp in Hsh.
      apply (stackShape_drop ops) in Hsh; [|assumption].
      inversion Hsh; subst; try congruence.
    + left. cbn [stack funcParen prev]. rewrite prevIs_Some, Hty.
      split; [|reflexivity]. rewrite Hst in Hsh.
      destruct (operators_notLParen ops Hops) as [Hnl _].
      apply (stackShape_drop ops) in Hsh; [|assumption].
      apply shapeOperator; [|assumption]. now rewrite Typ_rewriteSign.
  - cbn [hd_error] in Hnext. rewrite prevIs_Some in Hnext.
    apply TokenType_eqb_eq in Hnext.
    destruct Hshape as
      [Hty -> | Hty -> | Hty ->
      | ops lp rest0 frames k counts Hty Hst Hops Hlp Hfp Hac ->
      | ops lp rest0 frames k counts Hty Hst Hops Hlp Hfp Hac ->
      | ops lp fn rest0 frames k counts n Hty Hst Hops Hlp Hfn Hfp Hac ->
      | ops below Hty Hst Hops ->]; try congruence.
    left. cbn [stack funcParen prev]. rewrite prevIs_Some, Hty, Hprev, Hst0.
    split; [|reflexivity]. now apply shapeCall.
Qed.

Lemma rpnStep_has_function t rest s :
  shapeInvariant (t :: rest) s ->
  rpnStep t (hd_error rest) s <> Err ErrMissingFuncName.
Proof.
  intros Hinv. unfold rpnStep. destruct (Typ t) eqn:Hty; try discriminate.
  - destruct (popOperators _ _ _). discriminate.
  - destruct (negb _); discriminate.
  - destruct (popToLParen _ _) as [[found stk'] out'].
    destruct (funcParen s) as [|[] frames]; try discriminate.
    destruct (negb found); [discriminate|].
    destruct (argCount s); discriminate.
  - destruct (popThroughLParen (stack s) (out s)) as [[found stk'] out'] eqn:E.
    destruct found; cbn [negb]; [|discriminate].
    apply popThroughLParen_inv in E as (ops & lp & Hst & Hops & Hlp & ->).
    destruct (funcParen s) as [|b frames] eqn:Hfp; [discriminate|].
    destruct (argCount s) as [|k counts]; [discriminate|].
    destruct b; [|discriminate].
    destruct Hinv as [[Hsh _] | (fn0 & stk0 & _ & _ & _ & _ & Hnext)].
    + rewrite Hst in Hsh. apply (stackShape_drop ops) in Hsh; [|assumption].
      inversion Hsh; subst; try congruence.
      match goal with H : Typ ?f = TFunc |- _ => rewrite H end.
      discriminate.
    + cbn [hd_error] in Hnext. rewrite prevIs_Some, Hty in Hnext. discriminate.
Qed.

Lemma drain_shaped stk fp outp :
  stackShape stk fp -> drain stk outp <> Err ErrFuncMissingParens.
Proof.
  intros H. revert outp. induction H as [|o stk fp Ho Hs IH|lp fn stk fp Hlp|lp stk fp Hlp];
    intros outp; cbn [drain].
  - discriminate.
  - rewrite Ho. cbn [TokenType_eqb orb]. apply IH.
  - rewrite Hlp. discriminate.
  - rewrite Hlp. discriminate.
Qed.

Lemma shapeInvariant_init tokens : shapeInvariant tokens (mkP [] [] [] [] None).
Proof.
  left. split; [constructor|reflexivity].
Qed.

Lemma toRPNLoop_shape tokens :
  forall s,
    shapeInvariant tokens s ->
    match toRPNLoop tokens s with
    | Ok s' => stackShape (stack s') (funcParen s')
    | Err e => e <> ErrMissingFuncName
    end.
Proof.
  induction tokens as [|t rest IH]; intros s Hinv; cbn [toRPNLoop].
  - destruct Hinv as [[Hsh _] | (fn0 & stk0 & _ & _ & _ & _ & Hnext)];
      [assumption|discriminate Hnext].
  - destruct (rpnStep t (hd_error rest) s) as [s1|e] eqn:Hstep; cbn [bind].
    + apply IH. now apply (rpnStep_shapeInvariant t rest s).
    + intros ->. now apply (rpnStep_has_function t rest s Hinv).
Qed.

Lemma drain_never_missing_name stk outp : drain stk outp <> Err ErrMissingFuncName.
Proof.
  intros H. apply drain_errors in H as [H|H]; discriminate H.
Qed.

Lemma toRPNLoop_never_missing_parens tokens s :
  toRPNLoop tokens s <> Err ErrFuncMissingParens.
Proof.
  intros H. apply toRPNLoop_errors in H as [H|[H|H]]; discriminate H.
Qed.

(** Two error branches of [toRPN] are never taken. *)
Lemma toRPN_dead_errors tokens :
  toRPN tokens <> Err ErrMissingFuncName /\ toRPN tokens <> Err ErrFuncMissingParens.
Proof.
  pose proof (toRPNLoop_shape tokens _ (shapeInvariant_init tokens)) as Hs.
  pose proof (toRPNLoop_never_missing_parens tokens (mkP [] [] [] [] None)) as Hp.
  unfold toRPN.
  destruct (toRPNLoop tokens _) as [s|e] eqn:Hloop; cbn [bind].
  - split; [apply drain_never_missing_name|].
    now apply (drain_shaped _ (funcParen s)).
  - split; intros H; inversion H; subst; [now apply Hs|now apply Hp].
Qed.

Lemma toRPN_errors tokens e : toRPN tokens = Err e -> isParseError e = true.
Proof.
  intros H. pose proof (toRPN_no_panic tokens) as Hnp.
  destruct (toRPN_dead_errors tokens) as [Hd1 Hd2].
  rewrite H in Hnp, Hd1, Hd2. unfold toRPN in H.
  destruct (toRPNLoop tokens _) as [s|e1] eqn:Hl; cbn [bind] in H.
  - apply drain_errors in H as [-> | ->]; [reflexivity|now contradiction Hd2].
  - inversion H; subst. apply toRPNLoop_errors in Hl as [Hl | [-> | ->]];
      [assumption|now contradiction Hnp|now contradiction Hd1].
Qed.



(** ** Parser and float evaluator: prefix signs and binary operators *)

Lemma binaryOperator_below_sign op :
  inb op binaryOperators = true ->
  appliedFirst "NEG" op = true /\ appliedFirst "POS" op = true /\
  (precedence "NEG" <? precedence op) = false /\
  (precedence "POS" <? precedence op) = false.
Proof.
  unfold binaryOperators. cbn [inb]. rewrite !orb_true_iff.
  intros [H|[H|[H|[H|[H|[H|H]]]]]]; try discriminate;
    apply String.eqb_eq in H; subst; repeat split.
Qed.

Lemma toRPN_leading_minus sg a o b :
  Typ sg = TOp -> Text sg = "-" -> isNumber a -> isNumber b ->
  Typ o = TOp -> inb (Text o) binaryOperators = true ->
  toRPN [sg; a; o; b] = Ok [a; withText sg "NEG"; b; o].
Proof.
  unfold isNumber. intros Hsg Hminus Ha Hb Ho Hop.
  destruct (binaryOperator_below_sign _ Hop) as (Hfirst & _).
  unfold toRPN. cbn [toRPNLoop hd_error].
  rewrite (rpnStep_operator sg _ _ Hsg). cbn [bind prev stack out funcParen argCount].
  rewrite (rewriteSign_unary None sg (or_introl Hminus) I), Hminus.
  cbn [String.eqb Ascii.eqb Bool.eqb popOperators fst snd].
  unfold rpnStep at 1. rewrite Ha. cbn [bind prev stack out funcParen argCount app].
  rewrite (rpnStep_operator o _ _ Ho). cbn [bind prev stack out funcParen argCount].
  rewrite (rewriteSign_after_number a o Ha).
  rewrite (popOperators_one o (withText sg "NEG") _ Hsg).
  cbn [withText Text]. rewrite Hfirst. cbn [fst snd app].
  unfold rpnStep at 1. rewrite Hb. cbn [bind stack out drain app].
  destruct o as [oty otx ov oar]. cbn [Typ] in *. subst oty. reflexivity.
Qed.

Lemma toRPN_inner_minus sg a o b :
  Typ sg = TOp -> Text sg = "-" -> isNumber a -> isNumber b ->
  Typ o = TOp -> inb (Text o) binaryOperators = true ->
  toRPN [a; o; sg; b] = Ok [a; b; withText sg "NEG"; o].
Proof.
  unfold isNumber. intros Hsg Hminus Ha Hb Ho Hop.
  destruct (binaryOperator_below_sign _ Hop) as (_ & _ & Hkeep & _).
  unfold toRPN. cbn [toRPNLoop hd_error].
  unfold rpnStep at 1. rewrite Ha. cbn [bind prev stack out funcParen argCount app].
  rewrite (rpnStep_operator o _ _ Ho). cbn [bind prev stack out funcParen argCount].
  rewrite (rewriteSign_after_number a o Ha). cbn [popOperators fst snd].
  rewrite (rpnStep_operator sg _ _ Hsg). cbn [bind prev stack out funcParen argCount].
  assert (Hpos : unaryPosition (Some o)) by (cbn; now left).
  rewrite (rewriteSign_unary (Some o) sg (or_introl Hminus) Hpos), Hminus.
  cbn [String.eqb Ascii.eqb Bool.eqb popOperators withText Text Typ].
  rewrite Ho. cbn [TokenType_eqb negb]. 
  change (rightAssociative "NEG") with true. cbn [andb negb orb].
  rewrite Hkeep. cbn [fst snd].
  unfold rpnStep at 1. rewrite Hb. cbn [bind stack out drain app].
  destruct o as [oty otx ov oar]. destruct sg as [sty stx sv sar].
  cbn [Typ withText] in *. subst oty sty. reflexivity.
Qed.

Lemma evalStep_NEG M t a st :
  Typ t = TOp -> Text t = "NEG" -> evalStep M t (a :: st) = Ok ((- a)%float :: st).
Proof.
  intros Hty Htx. unfold evalStep. rewrite Hty, Htx. reflexivity.
Qed.

Lemma evalRPN_signed_operand M sg a o b :
  Typ sg = TOp -> isNumber a -> isNumber b ->
  Typ o = TOp -> inb (Text o) binaryOperators = true ->
  evalRPN M [a; withText sg "NEG"; b; o]
    = Ok (applyBinary M (Text o) (- Value a)%float (Value b)) /\
  evalRPN M [a; b; withText sg "NEG"; o]
    = Ok (applyBinary M (Text o) (Value a) (- Value b)%float).
Proof.
  unfold isNumber. intros Hsg Ha Hb Ho Hop. unfold evalRPN. cbn [evalLoop]. split.
  - rewrite (evalStep_number M a) by assumption. cbn [bind].
    rewrite (evalStep_NEG M (withText sg "NEG")) by (try assumption; reflexivity).
    cbn [bind]. rewrite (evalStep_number M b) by assumption. cbn [bind].
    rewrite (evalStep_binary M o) by assumption. reflexivity.
  - rewrite (evalStep_number M a) by assumption. cbn [bind].
    rewrite (evalStep_number M b) by assumption. cbn [bind].
    rewrite (evalStep_NEG M (withText sg "NEG")) by (try assumption; reflexivity).
    cbn [bind]. rewrite (evalStep_binary M o) by assumption. reflexivity.
Qed.

(** X6.  A prefix minus binds tighter than every binary operator, [^]
    included: [- a o b] is evaluated as [(-a) o b] and [a o - b] as
    [a o (-b)], so that [-2^2] is [(-2)^2] and not [-(2^2)]. *)
Theorem prefix_minus_binds_first M sg a o b :
  Typ sg = TOp -> Text sg = "-" -> isNumber a -> isNumber b ->
  Typ o = TOp -> inb (Text o) binaryOperators = true ->
  (rpn <- toRPN [sg; a; o; b] ;; evalRPN M rpn)
    = Ok (applyBinary M (Text o) (- Value a)%float (Value b)) /\
  (rpn <- toRPN [a; o; sg; b] ;; evalRPN M rpn)
    = Ok (applyBinary M (Text o) (Value a) (- Value b)%float).
Proof.
  intros Hsg Hminus Ha Hb Ho Hop.
  rewrite (toRPN_leading_minus sg a o b), (toRPN_inner_minus sg a o b) by assumption.
  cbn [bind]. now apply evalRPN_signed_operand.
Qed.

Lemma prefix_minus_binds_first_witness :
  EvalExpression someMathLib "-2^2" = Ok 4%float /\
  EvalExpression someMathLib "2^-2" = Ok 0.25%float.
Proof.
  pose proof (prefix_minus_binds_first someMathLib (tok TOp "-")
                (numTok "2" 2) (tok TOp "^") (numTok "2" 2)
                eq_refl eq_refl eq_refl eq_refl eq_refl eq_refl) as [H1 H2].
  split.
  - etransitivity; [|etransitivity; [exact H1|]]; vm_compute; reflexivity.
  - etransitivity; [|etransitivity; [exact H2|]]; vm_compute; reflexivity.
Defined.

(** ** Lexer: the tokens it emits *)

Lemma opByte_text c : isOpByte c = true -> inb (str1 c) binaryOperators = true.
Proof.
  destruct c as [[] [] [] [] [] [] [] []]; vm_compute; intros H;
    try discriminate H; reflexivity.
Qed.

Lemma lowerByte_ident c :
  isIdentContinue c = true ->
  isIdentContinue (lowerByte c) = true /\
  between "A" "Z" (lowerByte c) = false /\
  (isIdentStart c = true -> isIdentStart (lowerByte c) = true).
Proof.
  destruct c as [[] [] [] [] [] [] [] []]; vm_compute; intros H;
    try discriminate H; repeat split; intros C; discriminate C.
Qed.

Lemma span_identContinue s a b :
  span isIdentContinue s = (a, b) -> allIdentContinue a = true.
Proof.
  revert a b. induction s as [|c s IH]; intros a b H; cbn [span] in H.
  - inversion H. reflexivity.
  - destruct (isIdentContinue c) eqn:Hc.
    + destruct (span isIdentContinue s) as [a' b'] eqn:E. inversion H; subst.
      cbn [allIdentContinue]. rewrite Hc. now apply (IH a' b).
    + inversion H. reflexivity.
Qed.

Lemma ToLower_ident s :
  allIdentContinue s = true ->
  allIdentContinue (ToLower s) = true /\ noUpper (ToLower s) = true.
Proof.
  induction s as [|c s IH]; cbn [allIdentContinue ToLower noUpper]; [split; reflexivity|].
  intros H. apply andb_true_iff in H as [Hc Hs].
  destruct (IH Hs) as [I1 I2]. destruct (lowerByte_ident c Hc) as (L1 & L2 & _).
  rewrite L1, L2, I1, I2. split; reflexivity.
Qed.

Lemma ToLower_isLowerIdent c more :
  isIdentStart c = true -> allIdentContinue more = true ->
  isLowerIdent (ToLower (String c more)) = true.
Proof.
  intros Hc Hmore.
  assert (Hcc : isIdentContinue c = true) by (unfold isIdentContinue; now rewrite Hc).
  destruct (lowerByte_ident c Hcc) as (_ & L2 & L3).
  destruct (ToLower_ident more Hmore) as [I1 I2].
  cbn [ToLower isLowerIdent noUpper]. now rewrite (L3 Hc), I1, L2, I2.
Qed.

Lemma tokenizeLoop_lexTokenOK fuel :
  forall s tokens toks,
    Forall lexTokenOK tokens -> tokenizeLoop fuel s tokens = Ok toks ->
    Forall lexTokenOK toks.
Proof.
  assert (Hsnoc : forall tokens t, Forall lexTokenOK tokens -> lexTokenOK t ->
                                   Forall lexTokenOK (tokens ++ [t])).
  { intros tokens t H1 H2. apply Forall_app. split; [assumption|]. now constructor. }
  induction fuel as [|fuel IH]; intros s tokens toks Hacc H.
  - destruct s; [|discriminate]. cbn in H. now inversion H; subst.
  - destruct s as [|c rest]; [cbn in H; now inversion H; subst|].
    cbn [tokenizeLoop] in H.
    destruct (IsSpace c); [now apply (IH rest tokens)|].
    destruct (Ascii.eqb c ",").
    { eapply IH; [|exact H]. apply Hsnoc; [assumption|]. split; reflexivity. }
    destruct (Ascii.eqb c "(").
    { eapply IH; [|exact H]. apply Hsnoc; [assumption|]. split; reflexivity. }
    destruct (Ascii.eqb c ")").
    { eapply IH; [|exact H]. apply Hsnoc; [assumption|]. split; reflexivity. }
    destruct (isOpByte c) eqn:Hop.
    { eapply IH; [|exact H]. apply Hsnoc; [assumption|]. split; [reflexivity|].
      cbn [Typ tok Text]. now apply opByte_text. }
    destruct (isIdentStart c) eqn:Hid.
    { destruct (span isIdentContinue rest) as [more rest'] eqn:Hspan.
      apply span_identContinue in Hspan.
      destruct (lookup (ToLower (String c more)) constants) as [val|] eqn:Hlk.
      - eapply IH; [|exact H]. apply Hsnoc; [assumption|]. split; [reflexivity|].
        cbn [Typ numTok Text Value]. now left.
      - eapply IH; [|exact H]. apply Hsnoc; [assumption|]. split; [reflexivity|].
        cbn [Typ tok Text]. split; [|assumption].
        now apply ToLower_isLowerIdent. }
    destruct (isNumStart (String c rest)); [|discriminate].
    destruct (scanNumber (String c rest) EmptyString 0 false) as [[txt rest']|e1];
      cbn [bind] in H; [|discriminate].
    destruct (ParseFloat txt) as [v|e2] eqn:Ep; cbn [bind] in H; [|discriminate].
    eapply IH; [|exact H]. apply Hsnoc; [assumption|]. split; [reflexivity|].
    cbn [Typ numTok Text Value]. now right.
Qed.

Lemma tokenize_lexTokenOK s toks : tokenize s = Ok toks -> Forall lexTokenOK toks.
Proof.
  apply tokenizeLoop_lexTokenOK. constructor.
Qed.

(** X7.  Every token the lexer emits is well formed: its arity is 0; the
    text of an operator is one of [+ - * / % ^]; the text of a function is
    a lower-case identifier that names no constant; the value of a number
    is the constant its text names or the float its text parses to; a
    comma or parenthesis carries its own character. *)
Theorem tokenize_tokens_well_formed s toks :
  tokenize s = Ok toks -> Forall lexTokenOK toks.
Proof.
  apply tokenize_lexTokenOK.
Qed.

Lemma tokenize_tokens_well_formed_witness :
  Forall lexTokenOK [tok TFunc "sin"; tok TLParen "("; numTok "pi" Pi; tok TRParen ")"].
Proof.
  apply (tokenize_tokens_well_formed "SIN(Pi)"). reflexivity.
Defined.

(** ** Lexer: the text of the input is kept *)

Lemma append_empty_r s : (s ++ "")%string = s.
Proof.
  induction s as [|c s IH]; cbn [append]; [reflexivity|now rewrite IH].
Qed.

Lemma append_assoc_s a b c : ((a ++ b) ++ c)%string = (a ++ (b ++ c))%string.
Proof.
  induction a as [|x a IH]; cbn [append]; [reflexivity|now rewrite IH].
Qed.

Lemma joinTexts_snoc tokens t :
  joinTexts (tokens ++ [t]) = (joinTexts tokens ++ Text t)%string.
Proof.
  induction tokens as [|x tokens IH]; cbn [joinTexts app].
  - now rewrite append_empty_r.
  - now rewrite IH, append_assoc_s.
Qed.

Lemma ToLower_app a b : ToLower (a ++ b) = (ToLower a ++ ToLower b)%string.
Proof.
  induction a as [|x a IH]; cbn [ToLower append]; [reflexivity|now rewrite IH].
Qed.

Lemma lowerByte_idempotent c : lowerByte (lowerByte c) = lowerByte c.
Proof.
  destruct c as [[] [] [] [] [] [] [] []]; reflexivity.
Qed.

Lemma ToLower_idempotent s : ToLower (ToLower s) = ToLower s.
Proof.
  induction s as [|c s IH]; cbn [ToLower]; [reflexivity|].
  now rewrite lowerByte_idempotent, IH.
Qed.

Lemma dropSpace_app a b : dropSpace (a ++ b) = (dropSpace a ++ dropSpace b)%string.
Proof.
  induction a as [|x a IH]; cbn [dropSpace append]; [reflexivity|].
  destruct (IsSpace x); cbn [append]; now rewrite IH.
Qed.

Lemma literal_byte_not_space c :
  isIdentContinue c || Ascii.eqb c "." || isExpMark c || isSign c = true ->
  IsSpace c = false.
Proof.
  destruct c as [[] [] [] [] [] [] [] []]; vm_compute; intros H;
    try discriminate H; reflexivity.
Qed.

Lemma span_split p s a b : span p s = (a, b) -> s = (a ++ b)%string.
Proof.
  revert a b. induction s as [|c s IH]; intros a b H; cbn [span] in H.
  - now inversion H.
  - destruct (p c).
    + destruct (span p s) as [a' b'] eqn:E. inversion H; subst.
      cbn [append]. now rewrite (IH a' b).
    + now inversion H.
Qed.

Lemma span_dropSpace p s a b :
  (forall c, p c = true -> IsSpace c = false) ->
  span p s = (a, b) -> dropSpace a = a.
Proof.
  intros Hp. revert a b. induction s as [|c s IH]; intros a b H; cbn [span] in H.
  - now inversion H.
  - destruct (p c) eqn:Hc.
    + destruct (span p s) as [a' b'] eqn:E. inversion H; subst.
      cbn [dropSpace]. rewrite (Hp c Hc). now rewrite (IH a' b).
    + now inversion H.
Qed.

Lemma digit_not_space c : isDigit c = true -> IsSpace c = false.
Proof.
  intros H. apply literal_byte_not_space. unfold isIdentContinue.
  unfold isDigit in H. rewrite H. now rewrite !orb_true_r.
Qed.

Lemma identContinue_not_space c : isIdentContinue c = true -> IsSpace c = false.
Proof.
  intros H. apply literal_byte_not_space. now rewrite H.
Qed.

(** The literal [scanNumber] returns is the scanned part of the input, and
    holds no white space. *)
Lemma scanNumber_split s :
  forall acc dc hd txt rest,
    scanNumber s acc dc hd = Ok (txt, rest) ->
    exists body, txt = (acc ++ body)%string /\ s = (body ++ rest)%string /\
                 dropSpace body = body.
Proof.
  induction s as [|c s IH]; intros acc dc hd txt rest H; cbn [scanNumber] in H.
  - inversion H; subst. exists EmptyString. now rewrite append_empty_r.
  - destruct (Ascii.eqb c ".") eqn:Hdot.
    { destruct (1 <? dc + 1); [discriminate|].
      apply IH in H as (body & -> & -> & Hb).
      exists (String c body). rewrite append_assoc_s. cbn [append dropSpace].
      rewrite literal_byte_not_space by (now rewrite Hdot, !orb_true_r).
      now rewrite Hb. }
    destruct (isDigit c) eqn:Hdig.
    { apply IH in H as (body & -> & -> & Hb).
      exists (String c body). rewrite append_assoc_s. cbn [append dropSpace].
      now rewrite (digit_not_space c Hdig), Hb. }
    destruct (isExpMark c && hd) eqn:Hexp.
    2:{ inversion H; subst. exists EmptyString. now rewrite append_empty_r. }
    apply andb_true_iff in Hexp as [Hexp _].
    assert (Hc : IsSpace c = false)
      by (apply literal_byte_not_space; now rewrite Hexp, !orb_true_r).
    destruct s as [|c' s'].
    + cbn [span] in H. discriminate.
    + destruct (isSign c') eqn:Hsign.
      * destruct (span isDigit s') as [ds tail] eqn:Hspan.
        destruct ds as [|d ds]; [discriminate|]. inversion H; subst.
        pose proof (span_split _ _ _ _ Hspan) as ->.
        pose proof (span_dropSpace _ _ _ _ digit_not_space Hspan) as Hds.
        exists (String c (String c' (String d ds))).
        cbn [str1 append]. repeat split.
        cbn [dropSpace]. rewrite Hc.
        rewrite literal_byte_not_space by (now rewrite Hsign, !orb_true_r).
        cbn [dropSpace] in Hds. now rewrite Hds.
      * destruct (span isDigit (String c' s')) as [ds tail] eqn:Hspan.
        destruct ds as [|d ds]; [discriminate|]. inversion H; subst.
        pose proof (span_split _ _ _ _ Hspan) as Hs.
        pose proof (span_dropSpace _ _ _ _ digit_not_space Hspan) as Hds.
        exists (String c (String d ds)).
        cbn [str1 append]. rewrite Hs. repeat split.
        cbn [dropSpace]. rewrite Hc.
        cbn [dropSpace] in Hds. now rewrite Hds.
Qed.

Lemma tokenizeLoop_texts fuel :
  forall s tokens toks,
    tokenizeLoop fuel s tokens = Ok toks ->
    ToLower (joinTexts toks) = (ToLower (joinTexts tokens) ++ ToLower (dropSpace s))%string.
Proof.
  induction fuel as [|fuel IH]; intros s tokens toks H.
  - destruct s; [|discriminate]. cbn in H. inversion H; subst.
    cbn [dropSpace ToLower]. now rewrite append_empty_r.
  - destruct s as [|c rest].
    { cbn in H. inversion H; subst. cbn [dropSpace ToLower]. now rewrite append_empty_r. }
    cbn [tokenizeLoop] in H. cbn [dropSpace].
    destruct (IsSpace c) eqn:Hsp; [now apply IH|].
    assert (Hone : forall t, Text t = str1 c ->
              tokenizeLoop fuel rest (tokens ++ [t]) = Ok toks ->
              ToLower (joinTexts toks) =
              (ToLower (joinTexts tokens) ++ ToLower (String c (dropSpace rest)))%string).
    { intros t Ht Hk. apply IH in Hk. rewrite Hk, joinTexts_snoc, ToLower_app, Ht.
      rewrite append_assoc_s. reflexivity. }
    destruct (Ascii.eqb c ",") eqn:E1.
    { apply Ascii.eqb_eq in E1. subst c. eapply Hone; [|exact H]. reflexivity. }
    destruct (Ascii.eqb c "(") eqn:E2.
    { apply Ascii.eqb_eq in E2. subst c. eapply Hone; [|exact H]. reflexivity. }
    destruct (Ascii.eqb c ")") eqn:E3.
    { apply Ascii.eqb_eq in E3. subst c. eapply Hone; [|exact H]. reflexivity. }
    destruct (isOpByte c); [eapply Hone; [|exact H]; reflexivity|].
    destruct (isIdentStart c).
    { destruct (span isIdentContinue rest) as [more rest'] eqn:Hspan.
      pose proof (span_split _ _ _ _ Hspan) as ->.
      pose proof (span_dropSpace _ _ _ _ identContinue_not_space Hspan) as Hmore.
      assert (Hk : tokenizeLoop fuel rest'
                     (tokens ++ [withText (tok TFunc EmptyString) (ToLower (String c more))])
                   = Ok toks \/
                   exists val, tokenizeLoop fuel rest'
                     (tokens ++ [numTok (ToLower (String c more)) val]) = Ok toks).
      { destruct (lookup _ constants) as [val|]; [right; now exists val|now left]. }
      rewrite dropSpace_app, Hmore.
      destruct Hk as [Hk | [val Hk]]; apply IH in Hk; rewrite Hk, joinTexts_snoc, ToLower_app;
        cbn [Text withText numTok tok]; rewrite ToLower_idempotent, append_assoc_s;
        f_equal; change (String c (more ++ dropSpace rest'))
                   with (String c more ++ dropSpace rest')%string;
        now rewrite ToLower_app. }
    destruct (isNumStart (String c rest)); [|discriminate].
    destruct (scanNumber (String c rest) EmptyString 0 false) as [[txt rest']|e1] eqn:Es;
      cbn [bind] in H; [|discriminate].
    destruct (ParseFloat txt) as [v|e2]; cbn [bind] in H; [|discriminate].
    apply scanNumber_split in Es as (body & -> & Hs & Hb). cbn [append] in *.
    apply IH in H. rewrite H, joinTexts_snoc, ToLower_app. cbn [Text numTok].
    rewrite append_assoc_s. f_equal.
    replace (String c (dropSpace rest)) with (dropSpace (String c rest))
      by (cbn [dropSpace]; now rewrite Hsp).
    rewrite Hs, dropSpace_app, Hb. now rewrite ToLower_app.
Qed.

Lemma tokenize_texts s toks :
  tokenize s = Ok toks -> ToLower (joinTexts toks) = ToLower (dropSpace s).
Proof.
  intros H. apply tokenizeLoop_texts in H. exact H.
Qed.

(** X8.  The lexer loses nothing but white space and letter case: the
    texts of the tokens, one after the other, are the input without its
    white space, up to the case of the ASCII letters (both sides are
    compared lower-cased). *)
Theorem tokenize_keeps_text s toks :
  tokenize s = Ok toks -> ToLower (joinTexts toks) = ToLower (dropSpace s).
Proof.
  apply tokenize_texts.
Qed.

Lemma tokenize_keeps_text_witness :
  ToLower (joinTexts [tok TFunc "max"; tok TLParen "("; numTok "pi" Pi; tok TComma ",";
                      tok TOp "-"; numTok "e" E; tok TRParen ")"]) =
  ToLower (dropSpace "Max (PI, -e)").
Proof.
  apply (tokenize_keeps_text "Max (PI, -e)"). reflexivity.
Defined.

(** ** Lexer: white space *)

Lemma tokenizeLoop_fuel_irrelevant f1 :
  forall f2 s tokens,
    (String.length s <= f1)%nat -> (String.length s <= f2)%nat ->
    tokenizeLoop f1 s tokens = tokenizeLoop f2 s tokens.
Proof.
  induction f1 as [|f1 IH]; intros f2 s tokens H1 H2.
  - destruct s; [destruct f2; reflexivity|cbn [String.length] in H1; lia].
  - destruct s as [|c rest]; [destruct f2; reflexivity|].
    destruct f2 as [|f2]; [cbn [String.length] in H2; lia|].
    cbn [String.length] in H1, H2. cbn [tokenizeLoop].
    assert (Hr1 : (String.length rest <= f1)%nat) by lia.
    assert (Hr2 : (String.length rest <= f2)%nat) by lia.
    destruct (IsSpace c); [now apply IH|].
    destruct (Ascii.eqb c ","); [now apply IH|].
    destruct (Ascii.eqb c "("); [now apply IH|].
    destruct (Ascii.eqb c ")"); [now apply IH|].
    destruct (isOpByte c); [now apply IH|].
    destruct (isIdentStart c).
    { destruct (span isIdentContinue rest) as [more rest'] eqn:E.
      apply span_length in E.
      destruct (lookup _ constants); apply IH; lia. }
    destruct (isNumStart (String c rest)) eqn:Hstart; [|reflexivity].
    destruct (scanNumber (String c rest) EmptyString 0 false) as [[txt rest']|e] eqn:Es;
      cbn [bind]; [|reflexivity].
    apply scanNumber_start in Es; [|assumption].
    destruct (ParseFloat txt); cbn [bind]; [|reflexivity].
    apply IH; lia.
Qed.

Lemma tokenize_space c s : IsSpace c = true -> tokenize (String c s) = tokenize s.
Proof.
  intros Hc. unfold tokenize. cbn [String.length tokenizeLoop]. now rewrite Hc.
Qed.

Lemma tokenize_leading_space ws s :
  allSpace ws = true -> tokenize (ws ++ s) = tokenize s.
Proof.
  induction ws as [|c ws IH]; cbn [allSpace append]; [reflexivity|].
  intros H. apply andb_true_iff in H as [Hc Hws].
  now rewrite (tokenize_space c _ Hc), IH.
Qed.

Lemma tokenize_blank ws : allSpace ws = true -> tokenize ws = Ok [].
Proof.
  induction ws as [|c ws IH]; cbn [allSpace]; [reflexivity|].
  intros H. apply andb_true_iff in H as [Hc Hws].
  now rewrite (tokenize_space c _ Hc), IH.
Qed.

Lemma dropSpace_empty s : dropSpace s = EmptyString <-> allSpace s = true.
Proof.
  induction s as [|c s IH]; cbn [dropSpace allSpace]; [tauto|].
  destruct (IsSpace c); cbn [andb]; [exact IH|]. split; discriminate.
Qed.

Lemma ToLower_empty s : ToLower s = EmptyString -> s = EmptyString.
Proof.
  destruct s; [reflexivity|discriminate].
Qed.

Lemma tokenize_no_tokens s : tokenize s = Ok [] <-> allSpace s = true.
Proof.
  split; [|apply tokenize_blank].
  intros H. apply tokenize_texts in H. cbn [joinTexts ToLower] in H.
  symmetry in H. apply ToLower_empty in H. now apply dropSpace_empty.
Qed.

Lemma blank_expression M ws :
  allSpace ws = true ->
  EvalExpression M ws = Err ErrExtraValues /\
  EvalMoneyExpression ws = Err ErrExtraValues.
Proof.
  intros H. unfold EvalExpression, EvalMoneyExpression.
  rewrite (tokenize_blank ws H). split; reflexivity.
Qed.

(** X9.  The lexer returns no token exactly when the input is blank (empty
    or white space only); both evaluators then fail with the error
    [expression error: extra values]. *)
Theorem blank_input M s :
  (tokenize s = Ok [] <-> allSpace s = true) /\
  (allSpace s = true ->
   EvalExpression M s = Err ErrExtraValues /\
   EvalMoneyExpression s = Err ErrExtraValues).
Proof.
  split; [apply tokenize_no_tokens|apply blank_expression].
Qed.

Lemma blank_input_witness :
  EvalExpression someMathLib "  " = Err ErrExtraValues /\
  EvalMoneyExpression "  " = Err ErrExtraValues.
Proof.
  apply (proj2 (blank_input someMathLib "  ")). reflexivity.
Defined.

Lemma space_not_literal c :
  IsSpace c = true ->
  isIdentContinue c || Ascii.eqb c "." || isExpMark c || isSign c = false.
Proof.
  intros H. destruct (_ || _) eqn:E; [|reflexivity].
  apply literal_byte_not_space in E. congruence.
Qed.

Lemma space_facts c :
  IsSpace c = true ->
  Ascii.eqb c "." = false /\ isDigit c = false /\ isExpMark c = false /\
  isSign c = false /\ isIdentContinue c = false.
Proof.
  intros H. apply space_not_literal in H.
  rewrite !orb_false_iff in H. destruct H as [[[H1 H2] H3] H4].
  repeat split; try assumption.
  unfold isIdentContinue in H1. apply orb_false_iff in H1 as [_ H1]. exact H1.
Qed.

Lemma span_app_stop p a b x y :
  span p a = (x, y) ->
  match b with EmptyString => True | String c _ => p c = false end ->
  span p (a ++ b) = (x, (y ++ b)%string).
Proof.
  revert x y. induction a as [|c a IH]; intros x y H Hb; cbn [span append] in *.
  - inversion H; subst. destruct b as [|c b]; [reflexivity|].
    cbn [span append]. now rewrite Hb.
  - destruct (p c).
    + destruct (span p a) as [x' y'] eqn:E. inversion H; subst.
      now rewrite (IH x' y eq_refl Hb).
    + inversion H; subst. reflexivity.
Qed.

Lemma allSpace_head p ws :
  (forall c, IsSpace c = true -> p c = false) -> allSpace ws = true ->
  match ws with EmptyString => True | String c _ => p c = false end.
Proof.
  intros Hp H. destruct ws as [|c ws]; [exact I|].
  cbn [allSpace] in H. apply andb_true_iff in H as [Hc _]. now apply Hp.
Qed.

Lemma scanNumber_trailing ws s :
  allSpace ws = true ->
  forall acc dc hd,
    scanNumber (s ++ ws) acc dc hd =
    match scanNumber s acc dc hd with
    | Ok (txt, rest) => Ok (txt, (rest ++ ws)%string)
    | Err e => Err e
    end.
Proof.
  intros Hws.
  assert (Hdig : match ws with EmptyString => True | String c _ => isDigit c = false end)
    by (apply allSpace_head; [|assumption]; intros c Hc; now apply space_facts in Hc).
  induction s as [|c s IH]; intros acc dc hd; cbn [append].
  - cbn [scanNumber]. destruct ws as [|w ws']; [reflexivity|].
    cbn [allSpace] in Hws. apply andb_true_iff in Hws as [Hw _].
    destruct (space_facts w Hw) as (H1 & H2 & H3 & _).
    cbn [scanNumber]. now rewrite H1, H2, H3.
  - cbn [scanNumber].
    destruct (Ascii.eqb c ".").
    { destruct (1 <? dc + 1); [reflexivity|apply IH]. }
    destruct (isDigit c); [apply IH|].
    destruct (isExpMark c && hd); [|reflexivity].
    destruct s as [|c' s']; cbn [append].
    + cbn [span]. destruct ws as [|w ws']; [reflexivity|].
      cbn [allSpace] in Hws. apply andb_true_iff in Hws as [Hw _].
      destruct (space_facts w Hw) as (_ & H2 & _ & H4 & _).
      rewrite H4. cbn [span]. now rewrite H2.
    + destruct (isSign c').
      * destruct (span isDigit s') as [ds tail] eqn:Hspan.
        rewrite (span_app_stop _ _ ws _ _ Hspan Hdig).
        destruct ds; reflexivity.
      * destruct (span isDigit (String c' s')) as [ds tail] eqn:Hspan.
        change (String c' (s' ++ ws)) with (String c' s' ++ ws)%string.
        rewrite (span_app_stop _ _ ws _ _ Hspan Hdig).
        destruct ds; reflexivity.
Qed.

Lemma isNumStart_trailing ws s :
  allSpace ws = true -> s <> EmptyString -> isNumStart (s ++ ws) = isNumStart s.
Proof.
  intros Hws Hs. destruct s as [|c s]; [contradiction|]. cbn [append isNumStart].
  destruct (isDigit c); [reflexivity|]. destruct (Ascii.eqb c "."); [|reflexivity].
  destruct s as [|c' s]; [|reflexivity]. cbn [append].
  destruct ws as [|w ws']; [reflexivity|].
  cbn [allSpace] in Hws. apply andb_true_iff in Hws as [Hw _].
  now destruct (space_facts w Hw) as (_ & H2 & _).
Qed.

Lemma tokenizeLoop_spaces fuel ws tokens :
  allSpace ws = true -> (String.length ws <= fuel)%nat ->
  tokenizeLoop fuel ws tokens = Ok tokens.
Proof.
  revert ws. induction fuel as [|fuel IH]; intros ws Hws Hlen.
  - destruct ws; [reflexivity|cbn [String.length] in Hlen; lia].
  - destruct ws as [|w ws]; [reflexivity|].
    cbn [allSpace] in Hws. apply andb_true_iff in Hws as [Hw Hws].
    cbn [tokenizeLoop String.length] in *. rewrite Hw. apply IH; [assumption|lia].
Qed.

Lemma length_append a b :
  String.length (a ++ b) = (String.length a + String.length b)%nat.
Proof.
  induction a as [|c a IH]; cbn [append String.length]; [reflexivity|now rewrite IH].
Qed.

Lemma tokenizeLoop_trailing ws :
  allSpace ws = true ->
  forall fuel s tokens,
    (String.length (s ++ ws) <= fuel)%nat ->
    tokenizeLoop fuel (s ++ ws) tokens = tokenizeLoop fuel s tokens.
Proof.
  intros Hws.
  assert (Hid : match ws with EmptyString => True
                | String c _ => isIdentContinue c = false end)
    by (apply allSpace_head; [|assumption]; intros c Hc; now apply space_facts in Hc).
  induction fuel as [|fuel IH]; intros s tokens Hlen.
  - destruct s as [|c s]; cbn [append] in *.
    + rewrite tokenizeLoop_spaces by assumption. reflexivity.
    + cbn [String.length] in Hlen. lia.
  - destruct s as [|c rest]; cbn [append] in *.
    + rewrite tokenizeLoop_spaces by assumption. reflexivity.
    + cbn [String.length] in Hlen.
      assert (Hrest : (String.length (rest ++ ws) <= fuel)%nat) by lia.
      cbn [tokenizeLoop].
      destruct (IsSpace c); [now apply IH|].
      destruct (Ascii.eqb c ","); [now apply IH|].
      destruct (Ascii.eqb c "("); [now apply IH|].
      destruct (Ascii.eqb c ")"); [now apply IH|].
      destruct (isOpByte c); [now apply IH|].
      destruct (isIdentStart c).
      { destruct (span isIdentContinue rest) as [more rest'] eqn:Hspan.
        rewrite (span_app_stop _ _ ws _ _ Hspan Hid).
        pose proof (span_length _ _ _ _ Hspan) as Hl.
        rewrite length_append in *.
        destruct (lookup _ constants); apply IH; rewrite length_append; lia. }
      change (String c (rest ++ ws)) with (String c rest ++ ws)%string.
      rewrite isNumStart_trailing by (assumption || discriminate).
      destruct (isNumStart (String c rest)) eqn:Hstart; [|reflexivity].
      rewrite (scanNumber_trailing ws (String c rest) Hws).
      destruct (scanNumber (String c rest) EmptyString 0 false) as [[txt rest']|e] eqn:Es;
        cbn [bind]; [|reflexivity].
      apply scanNumber_start in Es; [|assumption].
      destruct (ParseFloat txt); cbn [bind]; [|reflexivity].
      apply IH. rewrite length_append in *. lia.
Qed.

Lemma tokenize_trailing_space s ws :
  allSpace ws = true -> tokenize (s ++ ws) = tokenize s.
Proof.
  intros Hws. unfold tokenize.
  rewrite (tokenizeLoop_trailing ws Hws) by lia.
  apply tokenizeLoop_fuel_irrelevant; rewrite ?length_append; lia.
Qed.

(** X10.  White space before and after an expression is ignored: the
    tokens, and with them the result or the error of either evaluator, are
    those of the expression alone. *)
Theorem surrounding_space_ignored M ws1 s ws2 :
  allSpace ws1 = true -> allSpace ws2 = true ->
  tokenize (ws1 ++ s ++ ws2) = tokenize s /\
  EvalExpression M (ws1 ++ s ++ ws2) = EvalExpression M s /\
  EvalMoneyExpression (ws1 ++ s ++ ws2) = EvalMoneyExpression s.
Proof.
  intros H1 H2.
  assert (H : tokenize (ws1 ++ s ++ ws2) = tokenize s)
    by now rewrite tokenize_leading_space, tokenize_trailing_space.
  unfold EvalExpression, EvalMoneyExpression. rewrite H. repeat split.
Qed.

Lemma surrounding_space_ignored_witness :
  EvalMoneyExpression (" " ++ "1+2" ++ "  ") = EvalMoneyExpression "1+2".
Proof.
  apply (surrounding_space_ignored someMathLib " " "1+2" "  "); reflexivity.
Defined.

(** ** Lexer, parser and evaluators: letter case *)

Lemma lowerByte_classes c :
  IsSpace (lowerByte c) = IsSpace c /\
  Ascii.eqb (lowerByte c) "," = Ascii.eqb c "," /\
  Ascii.eqb (lowerByte c) "(" = Ascii.eqb c "(" /\
  Ascii.eqb (lowerByte c) ")" = Ascii.eqb c ")" /\
  Ascii.eqb (lowerByte c) "." = Ascii.eqb c "." /\
  isOpByte (lowerByte c) = isOpByte c /\
  isIdentStart (lowerByte c) = isIdentStart c /\
  isIdentContinue (lowerByte c) = isIdentContinue c /\
  isDigit (lowerByte c) = isDigit c /\
  isExpMark (lowerByte c) = isExpMark c /\
  isSign (lowerByte c) = isSign c.
Proof.
  destruct c as [[] [] [] [] [] [] [] []]; vm_compute; repeat split.
Qed.

Lemma lowerByte_literal c :
  isDigit c || Ascii.eqb c "." || isSign c = true -> lowerByte c = c.
Proof.
  destruct c as [[] [] [] [] [] [] [] []]; vm_compute; intros H;
    try discriminate H; reflexivity.
Qed.

Lemma span_ToLower p s :
  (forall c, p (lowerByte c) = p c) ->
  span p (ToLower s) = (ToLower (fst (span p s)), ToLower (snd (span p s))).
Proof.
  intros Hp. induction s as [|c s IH]; cbn [ToLower span]; [reflexivity|].
  rewrite Hp. destruct (p c); [|reflexivity].
  rewrite IH. destruct (span p s) as [a b]. reflexivity.
Qed.

Lemma ToLower_digits p s a b :
  (forall c, p c = true -> lowerByte c = c) ->
  span p s = (a, b) -> ToLower a = a.
Proof.
  intros Hp. revert a b. induction s as [|c s IH]; intros a b H; cbn [span] in H.
  - inversion H. reflexivity.
  - destruct (p c) eqn:Hc.
    + destruct (span p s) as [a' b'] eqn:E. inversion H; subst.
      cbn [ToLower]. now rewrite (Hp c Hc), (IH a' b).
    + inversion H. reflexivity.
Qed.

Lemma digit_lower c : isDigit c = true -> lowerByte c = c.
Proof.
  intros H. apply lowerByte_literal. now rewrite H.
Qed.

Lemma length_ToLower s : String.length (ToLower s) = String.length s.
Proof.
  induction s as [|c s IH]; cbn [ToLower String.length]; [reflexivity|now rewrite IH].
Qed.

Lemma span_digits_ToLower s :
  span isDigit (ToLower s) = (fst (span isDigit s), ToLower (snd (span isDigit s))).
Proof.
  rewrite span_ToLower by (intros c; apply lowerByte_classes).
  destruct (span isDigit s) as [a b] eqn:E. cbn [fst snd].
  now rewrite (ToLower_digits _ _ _ _ digit_lower E).
Qed.

Lemma readExponent_ToLower s : readExponent (ToLower s) = readExponent s.
Proof.
  destruct s as [|c s]; [reflexivity|]. cbn [ToLower readExponent].
  destruct (lowerByte_classes c) as (_ & _ & _ & _ & _ & _ & _ & _ & _ & -> & _).
  destruct (isExpMark c); [|reflexivity].
  destruct s as [|c' s'].
  - reflexivity.
  - cbn [ToLower].
    destruct (lowerByte_classes c') as (_ & _ & _ & _ & _ & _ & _ & _ & _ & _ & Hs).
    rewrite Hs. destruct (isSign c') eqn:Hsign.
    + rewrite (lowerByte_literal c') by (now rewrite Hsign, orb_true_r).
      rewrite span_digits_ToLower. destruct (span isDigit s') as [ds tail].
      cbn [fst snd]. destruct ds; [reflexivity|]. destruct tail; reflexivity.
    + change (String (lowerByte c') (ToLower s')) with (ToLower (String c' s')).
      rewrite span_digits_ToLower. destruct (span isDigit (String c' s')) as [ds tail].
      cbn [fst snd]. destruct ds; [reflexivity|]. destruct tail; reflexivity.
Qed.

Lemma readDecimal_ToLower txt : readDecimal (ToLower txt) = readDecimal txt.
Proof.
  unfold readDecimal. rewrite span_digits_ToLower.
  destruct (span isDigit txt) as [ip r1]. cbn [fst snd].
  destruct r1 as [|c rest]; cbn [ToLower]; [reflexivity|].
  destruct (lowerByte_classes c) as (_ & _ & _ & _ & -> & _).
  destruct (Ascii.eqb c ".").
  - rewrite span_digits_ToLower. destruct (span isDigit rest) as [fp r2]. cbn [fst snd].
    destruct (ip ++ fp)%string; [reflexivity|]. now rewrite readExponent_ToLower.
  - destruct (ip ++ "")%string; [reflexivity|].
    change (String (lowerByte c) (ToLower rest)) with (ToLower (String c rest)).
    now rewrite readExponent_ToLower.
Qed.

Lemma ParseFloat_ToLower txt v : ParseFloat txt = Ok v -> ParseFloat (ToLower txt) = Ok v.
Proof.
  unfold ParseFloat. rewrite readDecimal_ToLower.
  destruct (readDecimal txt) as [[m e]|]; [|discriminate].
  destruct (roundDecimal m e); try discriminate; trivial.
Qed.

Lemma scanNumber_ToLower s :
  forall acc dc hd txt rest,
    scanNumber s acc dc hd = Ok (txt, rest) ->
    scanNumber (ToLower s) (ToLower acc) dc hd = Ok (ToLower txt, ToLower rest).
Proof.
  induction s as [|c s IH]; intros acc dc hd txt rest H; cbn [scanNumber ToLower] in *.
  - now inversion H.
  - destruct (lowerByte_classes c) as (_ & _ & _ & _ & -> & _ & _ & _ & -> & -> & _).
    assert (Hsnoc : ToLower (acc ++ str1 c) = (ToLower acc ++ str1 (lowerByte c))%string)
      by (now rewrite ToLower_app).
    destruct (Ascii.eqb c ".").
    { destruct (1 <? dc + 1); [discriminate|]. rewrite <- Hsnoc. now apply IH. }
    destruct (isDigit c); [rewrite <- Hsnoc; now apply IH|].
    destruct (isExpMark c && hd); [|now inversion H].
    destruct s as [|c' s']; cbn [ToLower].
    + cbn [span] in *. discriminate.
    + destruct (lowerByte_classes c') as (_ & _ & _ & _ & _ & _ & _ & _ & _ & _ & ->).
      destruct (isSign c') eqn:Hsign.
      * rewrite span_digits_ToLower.
        destruct (span isDigit s') as [ds tail] eqn:Hspan. cbn [fst snd].
        destruct ds as [|d ds]; [discriminate|]. inversion H; subst.
        pose proof (ToLower_digits _ _ _ _ digit_lower Hspan) as Hd.
        rewrite ToLower_app. cbn [ToLower str1 append] in *. now rewrite Hd.
      * change (String (lowerByte c') (ToLower s')) with (ToLower (String c' s')).
        rewrite span_digits_ToLower.
        destruct (span isDigit (String c' s')) as [ds tail] eqn:Hspan. cbn [fst snd].
        destruct ds as [|d ds]; [discriminate|]. inversion H; subst.
        pose proof (ToLower_digits _ _ _ _ digit_lower Hspan) as Hd.
        rewrite ToLower_app. cbn [ToLower str1 append] in *. now rewrite Hd.
Qed.

Lemma isNumStart_ToLower s : isNumStart (ToLower s) = isNumStart s.
Proof.
  destruct s as [|c s]; [reflexivity|]. cbn [ToLower isNumStart].
  destruct (lowerByte_classes c) as (_ & _ & _ & _ & -> & _ & _ & _ & -> & _).
  destruct (isDigit c); [reflexivity|]. destruct (Ascii.eqb c "."); [|reflexivity].
  destruct s as [|c' s]; [reflexivity|]. cbn [ToLower].
  now destruct (lowerByte_classes c') as (_ & _ & _ & _ & _ & _ & _ & _ & -> & _).
Qed.

Lemma opByte_lower c : isOpByte c = true -> lowerByte c = c.
Proof.
  destruct c as [[] [] [] [] [] [] [] []]; vm_compute; intros H;
    try discriminate H; reflexivity.
Qed.

Lemma tokenizeLoop_ToLower fuel :
  forall s tokens toks,
    tokenizeLoop fuel s tokens = Ok toks ->
    tokenizeLoop fuel (ToLower s) (map foldLiteral tokens) = Ok (map foldLiteral toks).
Proof.
  induction fuel as [|fuel IH]; intros s tokens toks H.
  - destruct s; [|discriminate]. cbn in *. now inversion H.
  - destruct s as [|c rest]; [cbn in *; now inversion H|].
    cbn [tokenizeLoop ToLower] in *.
    destruct (lowerByte_classes c) as (-> & -> & -> & -> & _ & -> & -> & _).
    assert (Hsnoc : forall t, map foldLiteral (tokens ++ [t])
                              = (map foldLiteral tokens ++ [foldLiteral t])%list)
      by (intros t; now rewrite map_app).
    destruct (IsSpace c); [now apply IH|].
    destruct (Ascii.eqb c ","); [apply IH in H; now rewrite Hsnoc in H|].
    destruct (Ascii.eqb c "("); [apply IH in H; now rewrite Hsnoc in H|].
    destruct (Ascii.eqb c ")"); [apply IH in H; now rewrite Hsnoc in H|].
    destruct (isOpByte c) eqn:Hop.
    { rewrite (opByte_lower c Hop). apply IH in H. now rewrite Hsnoc in H. }
    destruct (isIdentStart c).
    { rewrite span_ToLower by (intros x; apply lowerByte_classes).
      destruct (span isIdentContinue rest) as [more rest']. cbn [fst snd].
      rewrite ?lowerByte_idempotent, ?ToLower_idempotent.
      change (String (lowerByte c) (ToLower more)) with (ToLower (String c more)) in *.
      destruct (lookup (ToLower (String c more)) constants) as [val|];
        apply IH in H; rewrite Hsnoc in H; [|exact H].
      unfold foldLiteral in H at 2. cbn [Typ numTok withText Text Value Arity] in H.
      rewrite ToLower_idempotent in H. exact H. }
    change (String (lowerByte c) (ToLower rest)) with (ToLower (String c rest)).
    rewrite isNumStart_ToLower.
    destruct (isNumStart (String c rest)); [|discriminate].
    destruct (scanNumber (String c rest) EmptyString 0 false) as [[txt rest']|e1] eqn:Es;
      cbn [bind] in H; [|discriminate].
    apply scanNumber_ToLower in Es. cbn [ToLower] in Es.
    change (String (lowerByte c) (ToLower rest)) with (ToLower (String c rest)) in Es.
    rewrite Es. cbn [bind].
    destruct (ParseFloat txt) as [v|e2] eqn:Ep; cbn [bind] in H; [|discriminate].
    rewrite (ParseFloat_ToLower txt v Ep). cbn [bind].
    apply IH in H. now rewrite Hsnoc in H.
Qed.

Lemma tokenize_ToLower s toks :
  tokenize s = Ok toks -> tokenize (ToLower s) = Ok (map foldLiteral toks).
Proof.
  intros H. unfold tokenize in *. rewrite length_ToLower.
  now apply (tokenizeLoop_ToLower _ s []).
Qed.

Lemma Typ_foldLiteral t : Typ (foldLiteral t) = Typ t.
Proof.
  unfold foldLiteral. destruct (Typ t) eqn:E; first [assumption | reflexivity].
Qed.

Lemma foldLiteral_other t : Typ t <> TNumber -> foldLiteral t = t.
Proof.
  unfold foldLiteral. destruct (Typ t); congruence.
Qed.

Lemma foldLiteral_withArity t n : foldLiteral (withArity t n) = withArity (foldLiteral t) n.
Proof.
  unfold foldLiteral. cbn [withArity Typ]. destruct (Typ t); reflexivity.
Qed.

Lemma prevIs_foldLiteral p ty : prevIs (option_map foldLiteral p) ty = prevIs p ty.
Proof.
  destruct p as [t|]; [|reflexivity]. cbn [option_map prevIs]. now rewrite Typ_foldLiteral.
Qed.

Lemma prevIsNil_foldLiteral p : prevIsNil (option_map foldLiteral p) = prevIsNil p.
Proof.
  now destruct p.
Qed.

Lemma popToLParen_foldLiteral stk :
  forall emitted,
    popToLParen (map foldLiteral stk) (map foldLiteral emitted) =
    let '(found, stk', out') := popToLParen stk emitted in
    (found, map foldLiteral stk', map foldLiteral out').
Proof.
  induction stk as [|top below IH]; intros emitted; cbn [map popToLParen]; [reflexivity|].
  rewrite Typ_foldLiteral. destruct (TokenType_eqb (Typ top) TLParen); [reflexivity|].
  specialize (IH (emitted ++ [top])%list). rewrite map_app in IH. exact IH.
Qed.

Lemma popThroughLParen_foldLiteral stk :
  forall emitted,
    popThroughLParen (map foldLiteral stk) (map foldLiteral emitted) =
    let '(found, stk', out') := popThroughLParen stk emitted in
    (found, map foldLiteral stk', map foldLiteral out').
Proof.
  induction stk as [|top below IH]; intros emitted; cbn [map popThroughLParen];
    [reflexivity|].
  rewrite Typ_foldLiteral. destruct (TokenType_eqb (Typ top) TLParen); [reflexivity|].
  specialize (IH (emitted ++ [top])%list). rewrite map_app in IH. exact IH.
Qed.

Lemma popOperators_foldLiteral t stk :
  forall emitted,
    popOperators t (map foldLiteral stk) (map foldLiteral emitted) =
    (map foldLiteral (fst (popOperators t stk emitted)),
     map foldLiteral (snd (popOperators t stk emitted))).
Proof.
  induction stk as [|top below IH]; intros emitted; cbn [map popOperators];
    [reflexivity|].
  rewrite Typ_foldLiteral. destruct (TokenType_eqb (Typ top) TOp) eqn:E; cbn [negb];
    [|reflexivity].
  apply TokenType_eqb_eq in E.
  assert (Htop : foldLiteral top = top) by (apply foldLiteral_other; congruence).
  rewrite Htop.
  destruct (_ || _).
  - specialize (IH (emitted ++ [top])%list). rewrite map_app in IH. cbn [map] in IH.
    rewrite Htop in IH. exact IH.
  - cbn [fst snd map]. now rewrite Htop.
Qed.

Lemma rewriteSign_foldLiteral p t :
  rewriteSign (option_map foldLiteral p) t = rewriteSign p t.
Proof.
  unfold rewriteSign. now rewrite prevIsNil_foldLiteral, !prevIs_foldLiteral.
Qed.

Lemma rpnStep_foldLiteral t next s :
  rpnStep (foldLiteral t) (option_map foldLiteral next) (mapState foldLiteral s) =
  mapResult (mapState foldLiteral) (rpnStep t next s).
Proof.
  unfold rpnStep, mapState. rewrite Typ_foldLiteral.
  cbn [out stack funcParen argCount prev].
  destruct (Typ t) eqn:Hty.
  - cbn [mapResult out stack funcParen argCount prev option_map].
    now rewrite map_app.
  - rewrite (foldLiteral_other t) by congruence.
    rewrite rewriteSign_foldLiteral, popOperators_foldLiteral.
    destruct (popOperators (rewriteSign (prev s) t) (stack s) (out s))
      as [stk' out'].
    cbn [fst snd mapResult out stack funcParen argCount prev option_map map].
    rewrite (foldLiteral_other (rewriteSign (prev s) t))
      by (rewrite Typ_rewriteSign; congruence).
    rewrite (foldLiteral_other t) by congruence. reflexivity.
  - rewrite prevIs_foldLiteral, (foldLiteral_other t) by congruence.
    destruct (negb _); [reflexivity|].
    cbn [mapResult out stack funcParen argCount prev option_map map].
    rewrite (foldLiteral_other t) by congruence. reflexivity.
  - rewrite popToLParen_foldLiteral.
    destruct (popToLParen (stack s) (out s)) as [[found stk'] out'].
    destruct (funcParen s) as [|[] frames]; try reflexivity.
    destruct (negb found); [reflexivity|].
    destruct (argCount s); reflexivity.
  - rewrite prevIs_foldLiteral. reflexivity.
  - rewrite popThroughLParen_foldLiteral.
    destruct (popThroughLParen (stack s) (out s)) as [[found stk'] out'].
    destruct (negb found); [reflexivity|].
    destruct (funcParen s) as [|b frames]; [reflexivity|].
    destruct (argCount s) as [|k counts]; [reflexivity|].
    destruct b; [|reflexivity].
    rewrite prevIs_foldLiteral.
    destruct stk' as [|fn rest]; [reflexivity|]. cbn [map].
    rewrite Typ_foldLiteral. destruct (TokenType_eqb (Typ fn) TFunc); [|reflexivity].
    cbn [mapResult out stack funcParen argCount prev option_map].
    rewrite map_app. cbn [map]. now rewrite foldLiteral_withArity.
Qed.

Lemma toRPNLoop_foldLiteral tokens :
  forall s,
    toRPNLoop (map foldLiteral tokens) (mapState foldLiteral s) =
    mapResult (mapState foldLiteral) (toRPNLoop tokens s).
Proof.
  induction tokens as [|t rest IH]; intros s; cbn [map toRPNLoop]; [reflexivity|].
  replace (hd_error (map foldLiteral rest)) with (option_map foldLiteral (hd_error rest))
    by (destruct rest; reflexivity).
  rewrite rpnStep_foldLiteral.
  destruct (rpnStep t (hd_error rest) s) as [s1|e]; cbn [mapResult bind]; [apply IH|reflexivity].
Qed.

Lemma drain_foldLiteral stk :
  forall emitted,
    drain (map foldLiteral stk) (map foldLiteral emitted) =
    mapResult (map foldLiteral) (drain stk emitted).
Proof.
  induction stk as [|top below IH]; intros emitted; cbn [map drain]; [reflexivity|].
  rewrite Typ_foldLiteral. destruct (_ || _); [reflexivity|].
  destruct (TokenType_eqb _ _); [reflexivity|].
  specialize (IH (emitted ++ [top])%list). rewrite map_app in IH. exact IH.
Qed.

Lemma toRPN_foldLiteral tokens :
  toRPN (map foldLiteral tokens) = mapResult (map foldLiteral) (toRPN tokens).
Proof.
  unfold toRPN.
  change (mkP [] [] [] [] None) with (mapState foldLiteral (mkP [] [] [] [] None)) at 1.
  rewrite toRPNLoop_foldLiteral.
  destruct (toRPNLoop tokens _) as [s|e]; cbn [mapResult bind]; [|reflexivity].
  apply drain_foldLiteral.
Qed.

Lemma evalStep_foldLiteral M t st : evalStep M (foldLiteral t) st = evalStep M t st.
Proof.
  destruct (Typ t) eqn:Hty; try (rewrite foldLiteral_other by congruence; reflexivity).
  unfold evalStep. rewrite Typ_foldLiteral, Hty. unfold foldLiteral. now rewrite Hty.
Qed.

Lemma evalRPN_foldLiteral M rpn : evalRPN M (map foldLiteral rpn) = evalRPN M rpn.
Proof.
  unfold evalRPN. f_equal.
  generalize (@nil float). induction rpn as [|t rpn IH]; intros st; cbn [map evalLoop];
    [reflexivity|].
  rewrite evalStep_foldLiteral. destruct (evalStep M t st); cbn [bind]; [apply IH|reflexivity].
Qed.

Lemma numericLoop_lower s b : numericLoop s b = true -> ToLower s = s.
Proof.
  revert b. induction s as [|c s IH]; intros b H; cbn [numericLoop ToLower] in *;
    [reflexivity|].
  destruct (Ascii.eqb c ".") eqn:Hdot.
  - destruct b; [discriminate|].
    rewrite (lowerByte_literal c) by (now rewrite Hdot, !orb_true_r).
    now rewrite (IH true).
  - destruct (isDigit c) eqn:Hdig; cbn [negb] in H; [|discriminate].
    rewrite (digit_lower c Hdig). now rewrite (IH b).
Qed.

Lemma isNumericLiteral_lower txt : isNumericLiteral txt = true -> ToLower txt = txt.
Proof.
  unfold isNumericLiteral. destruct txt as [|c s]; [discriminate|].
  destruct (containsExpMark _); [discriminate|]. apply numericLoop_lower.
Qed.

Lemma evalStepMoney_foldLiteral t st st' :
  evalStepMoney t st = Ok st' -> evalStepMoney (foldLiteral t) st = Ok st'.
Proof.
  destruct (Typ t) eqn:Hty; try (rewrite foldLiteral_other by congruence; now intros).
  unfold evalStepMoney, foldLiteral. rewrite Hty. cbn [withText Typ Text].
  destruct (isNumericLiteral (Text t)) eqn:Hlit; cbn [negb]; [|discriminate].
  rewrite (isNumericLiteral_lower _ Hlit), Hlit, Hty. cbn [negb]. now intros.
Qed.

Lemma evalRPNMoney_foldLiteral rpn v :
  evalRPNMoney rpn = Ok v -> evalRPNMoney (map foldLiteral rpn) = Ok v.
Proof.
  unfold evalRPNMoney.
  assert (Hloop : forall st st', evalLoopMoney rpn st = Ok st' ->
                                 evalLoopMoney (map foldLiteral rpn) st = Ok st').
  { induction rpn as [|t rpn IH]; intros st st' H; cbn [map evalLoopMoney] in *;
      [assumption|].
    destruct (evalStepMoney t st) as [st1|e] eqn:Hs; cbn [bind] in H; [|discriminate].
    rewrite (evalStepMoney_foldLiteral t st st1 Hs). cbn [bind]. now apply IH. }
  destruct (evalLoopMoney rpn []) as [st|e] eqn:Hl; cbn [bind]; [|discriminate].
  rewrite (Hloop [] st Hl). trivial.
Qed.

(** X11.  Letter case does not matter.  When the lexer accepts an input, it
    accepts the lower-cased input with the same tokens, but for the text of
    number literals, which is lower-cased ([2E1] becomes [2e1]);
    [EvalExpression] returns the same result or error for both inputs, and
    [EvalMoneyExpression] the same value whenever it returns one. *)
Theorem letter_case_ignored M s toks :
  tokenize s = Ok toks ->
  tokenize (ToLower s) = Ok (map foldLiteral toks) /\
  EvalExpression M (ToLower s) = EvalExpression M s /\
  (forall v, EvalMoneyExpression s = Ok v -> EvalMoneyExpression (ToLower s) = Ok v).
Proof.
  intros H. pose proof (tokenize_ToLower s toks H) as Hl.
  split; [assumption|].
  unfold EvalExpression, EvalMoneyExpression. rewrite Hl, H. cbn [bind].
  rewrite toRPN_foldLiteral. split.
  - destruct (toRPN toks) as [rpn|e]; cbn [mapResult bind]; [|reflexivity].
    apply evalRPN_foldLiteral.
  - intros v. destruct (toRPN toks) as [rpn|e]; cbn [mapResult bind]; [|discriminate].
    apply evalRPNMoney_foldLiteral.
Qed.

Lemma letter_case_ignored_witness :
  EvalExpression someMathLib (ToLower "MAX(2E1, Pi)") =
  EvalExpression someMathLib "MAX(2E1, Pi)".
Proof.
  apply (letter_case_ignored someMathLib "MAX(2E1, Pi)"
           [tok TFunc "max"; tok TLParen "("; numTok "2E1" 20; tok TComma ",";
            numTok "pi" Pi; tok TRParen ")"]).
  vm_compute. reflexivity.
Defined.

(** ** The errors of an evaluation *)

Lemma popN_ok n st args st' :
  popN n st = Ok (args, st') -> 0 <= n /\ List.length args = Z.to_nat n.
Proof.
  unfold popN. destruct (Z.ltb_spec n 0) as [|Hn]; [discriminate|].
  destruct (Z.ltb_spec (Z.of_nat (List.length st)) n) as [|Hlen]; [discriminate|].
  intros Hok. inversion Hok; subst. split; [assumption|].
  rewrite length_rev, length_firstn. lia.
Qed.

Lemma popN_err n st e :
  popN n st = Err e -> 0 <= n -> e = ErrNotEnoughOperands.
Proof.
  unfold popN. destruct (Z.ltb_spec n 0) as [Hn|Hn].
  { intros _ Hpos. lia. }
  destruct (Z.ltb_spec (Z.of_nat (List.length st)) n) as [Hlen|Hlen]; [|discriminate].
  intros Herr _. now inversion Herr.
Qed.

Lemma pop_err st e : pop st = Err e -> e = ErrNotEnoughOperands.
Proof.
  destruct st; [|discriminate]. intros H. now inversion H.
Qed.

Ltac solve_step_error :=
  match goal with
  | H : Err _ = Err _ |- _ => inversion H; subst; reflexivity
  | H : Ok _ = Err _ |- _ => discriminate H
  end.

Lemma evalStep_errors M t st e :
  isRpnKind t = true -> isKnownOp t = true -> evalStep M t st = Err e ->
  isFloatEvalError e = true.
Proof.
  unfold isRpnKind, isKnownOp, evalStep.
  destruct (Typ t); try discriminate; intros _ Hop; cbv beta iota.
  - destruct (String.eqb (Text t) "NEG") eqn:Eneg.
    { destruct (pop st) as [[a st']|e'] eqn:Hp; cbn [bind]; intros H;
        [discriminate|]. apply pop_err in Hp. inversion H; subst. reflexivity. }
    destruct (String.eqb (Text t) "POS") eqn:Epos.
    { destruct (pop st) as [[a st']|e'] eqn:Hp; cbn [bind]; intros H;
        [discriminate|]. apply pop_err in Hp. inversion H; subst. reflexivity. }
    cbn [inb] in Hop. rewrite Eneg, Epos in Hop. cbn [orb] in Hop.
    change (inb (Text t) ["+"; "-"; "*"; "/"; "%"; "^"])
      with (inb (Text t) binaryOperators).
    rewrite Hop.
    destruct (pop st) as [[b st1]|e1] eqn:Hp1; cbn [bind].
    2:{ intros H. apply pop_err in Hp1. inversion H; subst. reflexivity. }
    destruct (pop st1) as [[a st2]|e2] eqn:Hp2; cbn [bind]; intros H;
      [discriminate|]. apply pop_err in Hp2. inversion H; subst. reflexivity.
  - destruct (inb (Text t) unaryFunctions).
    { destruct (negb _); [intros H; solve_step_error|].
      destruct (popN 1 st) as [[args st']|e'] eqn:Hp; cbn [bind].
      - apply popN_ok in Hp as [_ Hlen].
        destruct args; [discriminate Hlen|discriminate].
      - intros H. apply popN_err in Hp; [|lia]. inversion H; subst. reflexivity. }
    destruct (inb (Text t) ["min"; "max"]).
    { destruct (Z.ltb_spec (Arity t) 2) as [Hlt|Hge]; [intros H; solve_step_error|].
      destruct (popN (Arity t) st) as [[args st']|e'] eqn:Hp; cbn [bind].
      - apply popN_ok in Hp as [_ Hlen].
        destruct args; [|discriminate]. cbn in Hlen. lia.
      - intros H. apply popN_err in Hp; [|lia]. inversion H; subst. reflexivity. }
    destruct (inb (Text t) ["pow"; "atan2"]).
    { destruct (negb _); [intros H; solve_step_error|].
      destruct (popN 2 st) as [[args st']|e'] eqn:Hp; cbn [bind].
      - apply popN_ok in Hp as [_ Hlen].
        destruct args as [|x [|y args]]; try discriminate Hlen.
        destruct (String.eqb _ _); discriminate.
      - intros H. apply popN_err in Hp; [|lia]. inversion H; subst. reflexivity. }
    destruct (String.eqb (Text t) "logn"); [|intros H; solve_step_error].
    destruct (negb _); [intros H; solve_step_error|].
    destruct (popN 2 st) as [[args st']|e'] eqn:Hp; cbn [bind].
    + apply popN_ok in Hp as [_ Hlen].
      destruct args as [|x [|y args]]; try discriminate Hlen. discriminate.
    + intros H. apply popN_err in Hp; [|lia]. inversion H; subst. reflexivity.
Qed.

Lemma evalRPN_errors M rpn e :
  forallb isRpnKind rpn = true -> forallb isKnownOp rpn = true ->
  evalRPN M rpn = Err e -> isFloatEvalError e = true.
Proof.
  intros Hk Ho. unfold evalRPN.
  assert (Hloop : forall st e', evalLoop M rpn st = Err e' -> isFloatEvalError e' = true).
  { induction rpn as [|t rpn IH]; intros st e' H; cbn [evalLoop] in H; [discriminate|].
    cbn [forallb] in Hk, Ho.
    apply andb_true_iff in Hk as [Ht Hk]. apply andb_true_iff in Ho as [Hto Ho].
    destruct (evalStep M t st) as [st'|e1] eqn:Hs; cbn [bind] in H.
    - now apply (IH Hk Ho st').
    - inversion H; subst. now apply (evalStep_errors M t st). }
  destruct (evalLoop M rpn []) as [st|e1] eqn:Hl; cbn [bind].
  - destruct st as [|v [|w st]]; intros H; inversion H; reflexivity.
  - intros H. inversion H; subst. now apply (Hloop []).
Qed.

Lemma scanNumber_lex_error s acc dc hd e :
  scanNumber s acc dc hd = Err e -> isLexError e = true.
Proof.
  revert acc dc hd. induction s as [|c s IH]; intros acc dc hd H; cbn [scanNumber] in H.
  - discriminate.
  - destruct (Ascii.eqb c ".").
    { destruct (1 <? dc + 1); [inversion H; reflexivity|]. now apply IH in H. }
    destruct (isDigit c); [now apply IH in H|].
    destruct (isExpMark c && hd); [|discriminate].
    destruct (match s with
              | String c' rest' => if isSign c' then (str1 c', rest') else (EmptyString, s)
              | EmptyString => (EmptyString, s)
              end) as [sign after].
    destruct (span isDigit after) as [ds tail].
    destruct ds; [inversion H; reflexivity|discriminate].
Qed.

Lemma tokenizeLoop_errors fuel s tokens e :
  tokenizeLoop fuel s tokens = Err e -> isLexError e = true \/ e = OutOfFuel.
Proof.
  revert s tokens. induction fuel as [|fuel IH]; intros s tokens H.
  - destruct s; [discriminate|]. cbn in H. inversion H. now right.
  - destruct s as [|c rest]; [discriminate|]. cbn [tokenizeLoop] in H.
    destruct (IsSpace c); [now apply IH in H|].
    destruct (Ascii.eqb c ","); [now apply IH in H|].
    destruct (Ascii.eqb c "("); [now apply IH in H|].
    destruct (Ascii.eqb c ")"); [now apply IH in H|].
    destruct (isOpByte c); [now apply IH in H|].
    destruct (isIdentStart c).
    { destruct (span isIdentContinue rest) as [more rest'].
      destruct (lookup _ constants); now apply IH in H. }
    destruct (isNumStart (String c rest)); [|inversion H; now left].
    destruct (scanNumber (String c rest) EmptyString 0 false) as [[txt rest']|e1] eqn:Es;
      cbn [bind] in H.
    + destruct (ParseFloat txt) as [v|e2] eqn:Ep; cbn [bind] in H.
      * now apply IH in H.
      * apply ParseFloat_error in Ep. inversion H; subst. now left.
    + inversion H; subst. left. now apply scanNumber_lex_error in Es.
Qed.

Lemma tokenize_errors s e : tokenize s = Err e -> isLexError e = true.
Proof.
  intros H. destruct (tokenizeLoop_errors _ _ _ _ H) as [Hlex | ->]; [assumption|].
  now apply tokenize_total in H.
Qed.

Lemma known_after_parsing t x :
  lexTokenOK t -> derivedFrom x t -> isKnownOp x = true.
Proof.
  intros [_ Hok] (Hty & _ & Htx & _). unfold isKnownOp. rewrite Hty.
  destruct (Typ t); try reflexivity.
  destruct Htx as [-> | (_ & [[_ ->] | [_ ->]])]; try reflexivity.
  cbn [inb]. change (inb (Text t) ["+"; "-"; "*"; "/"; "%"; "^"])
    with (inb (Text t) binaryOperators).
  rewrite Hok. now rewrite !orb_true_r.
Qed.

Lemma parsed_lexed_tokens_known toks rpn :
  Forall lexTokenOK toks -> toRPN toks = Ok rpn -> forallb isKnownOp rpn = true.
Proof.
  intros Hlex Hp. apply toRPN_provenance in Hp.
  apply forallb_forall. intros x Hx.
  rewrite Forall_forall in Hp, Hlex.
  destruct (Hp x Hx) as (t & Hin & Hd).
  now apply (known_after_parsing t x (Hlex t Hin)).
Qed.

(** X12.  [EvalExpression] fails only with one of the four errors of the
    lexer, the three errors of the parser (X5) or six errors of the
    evaluator: not enough operands, a wrong number of arguments (three
    messages), an unknown function, or extra values.  On the tokens of the
    lexer the evaluator never meets an unknown operator, an unexpected
    token or a negative argument count, and never indexes out of range;
    dividing by zero is no error in float mode. *)
Lemma EvalExpression_errors M expr e :
  EvalExpression M expr = Err e ->
  isLexError e || isParseError e || isFloatEvalError e = true.
Proof.
  unfold EvalExpression.
  destruct (tokenize expr) as [toks|e1] eqn:Ht; cbn [bind].
  2:{ intros H. inversion H; subst. now rewrite (tokenize_errors _ _ Ht). }
  destruct (toRPN toks) as [rpn|e2] eqn:Hp; cbn [bind].
  2:{ intros H. inversion H; subst. rewrite (toRPN_errors _ _ Hp).
      now rewrite orb_true_r. }
  intros H. destruct (toRPN_invariants _ _ Hp) as (Hk & _).
  pose proof (parsed_lexed_tokens_known _ _ (tokenize_lexTokenOK _ _ Ht) Hp) as Ho.
  rewrite (evalRPN_errors M rpn e Hk Ho H). now rewrite orb_true_r.
Qed.

Lemma EvalExpression_errors_witness :
  isLexError (ErrExpects2 "pow") || isParseError (ErrExpects2 "pow")
  || isFloatEvalError (ErrExpects2 "pow") = true.
Proof.
  apply (EvalExpression_errors someMathLib "pow(2)"). vm_compute. reflexivity.
Defined.

Lemma parseCents_errors txt e :
  isNumericLiteral txt = true -> parseCents txt = Err e -> isMoneyEvalError e = true.
Proof.
  intros Hlit. apply isNumericLiteral_spec in Hlit as (Hne & ip & frac & -> & Hip & Hfp).
  rewrite (parseCents_literal ip frac Hip Hfp Hne).
  destruct (2 <? String.length (fracDigits frac))%nat; [intros H; inversion H; reflexivity|].
  destruct (MaxInt64 <? digitsToZ 0 ip); [intros H; inversion H; reflexivity|].
  destruct (MaxInt64 <? digitsToZ 0 ip * 100); [intros H; inversion H; reflexivity|].
  destruct (MaxInt64 <? centsOf ip frac); [intros H; inversion H; reflexivity|discriminate].
Qed.

Lemma addInt64_errors a b e : addInt64 a b = Err e -> e = ErrOverflowAdd.
Proof.
  unfold addInt64. destruct (_ && _); [now inversion 1|].
  destruct (_ && _); [now inversion 1|discriminate].
Qed.

Lemma subInt64_errors a b e : subInt64 a b = Err e -> e = ErrOverflowSub.
Proof.
  unfold subInt64. destruct (_ && _); [now inversion 1|].
  destruct (_ && _); [now inversion 1|discriminate].
Qed.

Lemma mulInt64_errors a b e : mulInt64 a b = Err e -> e = ErrOverflowMul.
Proof.
  unfold mulInt64. destruct (_ || _); [discriminate|].
  destruct (Mul64 _ _) as [hi lo].
  destruct (negb (hi =? 0)); [now inversion 1|].
  destruct (negb (negb _)); cbn [negb].
  - destruct (MaxInt64 <? lo); [now inversion 1|discriminate].
  - destruct (MaxInt64 + 1 <? lo); [now inversion 1|].
    destruct (lo =? MaxInt64 + 1); discriminate.
Qed.

Lemma divRound_errors n d e : divRound n d = Err e -> e = ErrDivisionByZero.
Proof.
  unfold divRound. destruct (d =? 0); [now inversion 1|].
  destruct (Z.rem n d =? 0); [discriminate|].
  destruct (_ <=? _); [|discriminate].
  destruct (Bool.eqb _ _); discriminate.
Qed.

Lemma applyBinaryM_errors op a b e :
  applyBinaryM op a b = Err e -> isMoneyEvalError e = true.
Proof.
  unfold applyBinaryM.
  destruct (String.eqb op "+"); [intros H; apply addInt64_errors in H; now subst|].
  destruct (String.eqb op "-"); [intros H; apply subInt64_errors in H; now subst|].
  destruct (String.eqb op "*").
  { destruct (mulInt64 a b) as [p|e1] eqn:Hm; cbn [bind]; intros H.
    - apply divRound_errors in H. now subst.
    - inversion H; subst. apply mulInt64_errors in Hm. now subst. }
  destruct (String.eqb op "/").
  { destruct (mulInt64 a moneyScale) as [p|e1] eqn:Hm; cbn [bind]; intros H.
    - apply divRound_errors in H. now subst.
    - inversion H; subst. apply mulInt64_errors in Hm. now subst. }
  destruct (String.eqb op "%"); [|discriminate].
  destruct (mulInt64 a b) as [p|e1] eqn:Hm; cbn [bind]; intros H.
  - apply divRound_errors in H. now subst.
  - inversion H; subst. apply mulInt64_errors in Hm. now subst.
Qed.

Lemma popNM_ok n st args st' :
  popNM n st = Ok (args, st') ->
  0 <= n /\ List.length args = Z.to_nat n /\
  (rev args ++ st')%list = st.
Proof.
  unfold popNM. destruct (Z.ltb_spec n 0) as [|Hn]; [discriminate|].
  destruct (Z.ltb_spec (Z.of_nat (List.length st)) n) as [|Hlen]; [discriminate|].
  intros Hok. inversion Hok; subst. split; [assumption|]. split.
  - rewrite length_rev, length_firstn. lia.
  - rewrite rev_involutive. apply firstn_skipn.
Qed.

Lemma popNM_err n st e :
  popNM n st = Err e -> 0 <= n -> e = ErrNotEnoughOperands.
Proof.
  unfold popNM. destruct (Z.ltb_spec n 0) as [Hn|Hn].
  { intros _ Hpos. lia. }
  destruct (Z.ltb_spec (Z.of_nat (List.length st)) n) as [Hlen|Hlen]; [|discriminate].
  intros Herr _. now inversion Herr.
Qed.

Lemma popM_err st e : popM st = Err e -> e = ErrNotEnoughOperands.
Proof.
  destruct st; [|discriminate]. intros H. now inversion H.
Qed.

Lemma evalStepMoney_errors t st e :
  isRpnKind t = true -> evalStepMoney t st = Err e -> isMoneyEvalError e = true.
Proof.
  unfold isRpnKind, evalStepMoney. destruct (Typ t); try discriminate; intros _;
    cbv beta iota.
  - destruct (isNumericLiteral (Text t)) eqn:Hlit; cbn [negb];
      [|intros H; inversion H; reflexivity].
    destruct (parseCents (Text t)) as [v|e1] eqn:Hp; cbn [bind]; [discriminate|].
    intros H. inversion H; subst. now apply (parseCents_errors (Text t)).
  - destruct (String.eqb (Text t) "NEG").
    { destruct (popM st) as [[a st']|e'] eqn:Hp; cbn [bind]; intros H.
      - destruct (a =? MinInt64); [inversion H; reflexivity|discriminate].
      - apply popM_err in Hp. inversion H; subst. reflexivity. }
    destruct (String.eqb (Text t) "POS").
    { destruct (popM st) as [[a st']|e'] eqn:Hp; cbn [bind]; intros H;
        [discriminate|]. apply popM_err in Hp. inversion H; subst. reflexivity. }
    destruct (inb (Text t) _); [|intros H; inversion H; reflexivity].
    destruct (popM st) as [[b st1]|e1] eqn:Hp1; cbn [bind].
    2:{ intros H. apply popM_err in Hp1. inversion H; subst. reflexivity. }
    destruct (popM st1) as [[a st2]|e2] eqn:Hp2; cbn [bind].
    2:{ intros H. apply popM_err in Hp2. inversion H; subst. reflexivity. }
    destruct (applyBinaryM (Text t) a b) as [r|e3] eqn:Hb; cbn [bind]; [discriminate|].
    intros H. inversion H; subst. now apply applyBinaryM_errors in Hb.
  - destruct (String.eqb (Text t) "abs").
    { destruct (negb _); [intros H; inversion H; reflexivity|].
      destruct (popNM 1 st) as [[args st']|e'] eqn:Hp; cbn [bind].
      - apply popNM_ok in Hp as (_ & Hlen & _).
        destruct args as [|x args]; [discriminate Hlen|].
        destruct (x =? MinInt64); [intros H; inversion H; reflexivity|].
        destruct (x <? 0); discriminate.
      - intros H. apply popNM_err in Hp; [|lia]. inversion H; subst. reflexivity. }
    destruct (inb (Text t) ["min"; "max"]); [|intros H; inversion H; reflexivity].
    destruct (Z.ltb_spec (Arity t) 2) as [Hlt|Hge]; [intros H; inversion H; reflexivity|].
    destruct (popNM (Arity t) st) as [[args st']|e'] eqn:Hp; cbn [bind].
    + apply popNM_ok in Hp as (_ & Hlen & _).
      destruct args; [|discriminate]. cbn in Hlen. lia.
    + intros H. apply popNM_err in Hp; [|lia]. inversion H; subst. reflexivity.
Qed.

Lemma evalRPNMoney_errors rpn e :
  forallb isRpnKind rpn = true -> evalRPNMoney rpn = Err e -> isMoneyEvalError e = true.
Proof.
  intros Hk. unfold evalRPNMoney.
  assert (Hloop : forall st e', evalLoopMoney rpn st = Err e' -> isMoneyEvalError e' = true).
  { induction rpn as [|t rpn IH]; intros st e' H; cbn [evalLoopMoney] in H; [discriminate|].
    cbn [forallb] in Hk. apply andb_true_iff in Hk as [Ht Hk].
    destruct (evalStepMoney t st) as [st'|e1] eqn:Hs; cbn [bind] in H.
    - now apply (IH Hk st').
    - inversion H; subst. now apply (evalStepMoney_errors t st). }
  destruct (evalLoopMoney rpn []) as [st|e1] eqn:Hl; cbn [bind].
  - destruct st as [|v [|w st]]; intros H; inversion H; reflexivity.
  - intros H. inversion H; subst. now apply (Hloop []).
Qed.

(** X13.  [EvalMoneyExpression] fails only with an error of the lexer, of
    the parser (X5), or one of sixteen errors of the money evaluator.  The
    first three checks of [parseCents] (empty text, exponent notation,
    malformed number) never fire: [isNumericLiteral] has rejected those
    texts before [parseCents] is called. *)
Lemma EvalMoneyExpression_errors expr e :
  EvalMoneyExpression expr = Err e ->
  isLexError e || isParseError e || isMoneyEvalError e = true.
Proof.
  unfold EvalMoneyExpression.
  destruct (tokenize expr) as [toks|e1] eqn:Ht; cbn [bind].
  2:{ intros H. inversion H; subst. now rewrite (tokenize_errors _ _ Ht). }
  destruct (toRPN toks) as [rpn|e2] eqn:Hp; cbn [bind].
  2:{ intros H. inversion H; subst. rewrite (toRPN_errors _ _ Hp).
      now rewrite orb_true_r. }
  intros H. destruct (toRPN_invariants _ _ Hp) as (Hk & _).
  rewrite (evalRPNMoney_errors rpn e Hk H). now rewrite orb_true_r.
Qed.

Lemma EvalMoneyExpression_errors_witness :
  isLexError (ErrNonNumericLiteral "pi") || isParseError (ErrNonNumericLiteral "pi")
  || isMoneyEvalError (ErrNonNumericLiteral "pi") = true.
Proof.
  apply (EvalMoneyExpression_errors "2*pi"). vm_compute. reflexivity.
Defined.

Lemma evalRPN_never_syntax_error M toks rpn e :
  Forall lexTokenOK toks -> toRPN toks = Ok rpn -> evalRPN M rpn = Err e ->
  isLexError e || isParseError e = false.
Proof.
  intros Hlex Hp H.
  destruct (toRPN_invariants _ _ Hp) as (Hk & _).
  pose proof (parsed_lexed_tokens_known _ _ Hlex Hp) as Ho.
  pose proof (evalRPN_errors M rpn e Hk Ho H) as He.
  destruct e; try discriminate He; reflexivity.
Qed.

Lemma evalRPNMoney_never_syntax_error toks rpn e :
  toRPN toks = Ok rpn -> evalRPNMoney rpn = Err e ->
  isLexError e || isParseError e = false.
Proof.
  intros Hp H.
  destruct (toRPN_invariants _ _ Hp) as (Hk & _).
  pose proof (evalRPNMoney_errors rpn e Hk H) as He.
  destruct e; try discriminate He; reflexivity.
Qed.

(** X14.  The two modes agree on syntax: [EvalExpression] fails with a given
    error of the lexer or of the parser exactly when [EvalMoneyExpression]
    fails with that error; neither evaluator ever fails with an error of
    these two stages on its own. *)
Theorem modes_agree_on_syntax_errors M expr e :
  isLexError e || isParseError e = true ->
  (EvalExpression M expr = Err e <-> EvalMoneyExpression expr = Err e).
Proof.
  intros He. unfold EvalExpression, EvalMoneyExpression.
  destruct (tokenize expr) as [toks|e1] eqn:Ht; cbn [bind];
    [|split; intros H; injection H as ->; reflexivity].
  destruct (toRPN toks) as [rpn|e2] eqn:Hp; cbn [bind];
    [|split; intros H; injection H as ->; reflexivity].
  split; intros H.
  - apply (evalRPN_never_syntax_error M toks rpn e) in H;
      [congruence|now apply (tokenize_lexTokenOK expr)|assumption].
  - apply (evalRPNMoney_never_syntax_error toks rpn e) in H; [congruence|assumption].
Qed.

Lemma modes_agree_on_syntax_errors_witness :
  EvalExpression someMathLib "(2+3" = Err ErrMismatchedParens <->
  EvalMoneyExpression "(2+3" = Err ErrMismatchedParens.
Proof.
  apply (modes_agree_on_syntax_errors someMathLib "(2+3" ErrMismatchedParens).
  reflexivity.
Defined.

(** ** Float evaluator: postfix sequences compose *)

Lemma firstn_frame {A} n (st below : list A) :
  (n <= List.length st)%nat -> firstn n (st ++ below) = firstn n st.
Proof.
  intros H. rewrite firstn_app. replace (n - List.length st)%nat with 0%nat by lia.
  cbn [firstn]. apply app_nil_r.
Qed.

Lemma skipn_frame {A} n (st below : list A) :
  (n <= List.length st)%nat -> skipn n (st ++ below) = (skipn n st ++ below)%list.
Proof.
  intros H. rewrite skipn_app. replace (n - List.length st)%nat with 0%nat by lia.
  reflexivity.
Qed.

Lemma popN_frame n st below args st' :
  popN n st = Ok (args, st') -> popN n (st ++ below) = Ok (args, (st' ++ below)%list).
Proof.
  unfold popN. destruct (Z.ltb_spec n 0) as [|Hn]; [discriminate|].
  destruct (Z.ltb_spec (Z.of_nat (List.length st)) n) as [|Hlen]; [discriminate|].
  intros H. inversion H; subst.
  destruct (Z.ltb_spec (Z.of_nat (List.length (st ++ below))) n) as [Hc|_].
  { rewrite length_app in Hc. lia. }
  rewrite firstn_frame, skipn_frame by lia. reflexivity.
Qed.

Lemma pop_frame st below a st' :
  pop st = Ok (a, st') -> pop (st ++ below) = Ok (a, (st' ++ below)%list).
Proof.
  destruct st; [discriminate|]. intros H. inversion H; subst. reflexivity.
Qed.

Ltac frame_popN M :=
  match goal with
  | |- context [popN ?n ?st] =>
      lazymatch st with
      | (_ ++ _)%list => fail
      | _ =>
          let args := fresh "args" in
          let st1 := fresh "st1" in
          let e := fresh "e" in
          let Hp := fresh "Hp" in
          destruct (popN n st) as [[args st1]|e] eqn:Hp; cbn [bind];
          [rewrite (popN_frame _ _ _ _ _ Hp); cbn [bind]|discriminate]
      end
  end.

Lemma evalStep_frame M t st st' below :
  evalStep M t st = Ok st' -> evalStep M t (st ++ below) = Ok (st' ++ below)%list.
Proof.
  unfold evalStep. destruct (Typ t); try discriminate.
  - intros H. inversion H; subst. reflexivity.
  - destruct (String.eqb (Text t) "NEG").
    { destruct (pop st) as [[a st1]|e] eqn:Hp; cbn [bind]; [|discriminate].
      rewrite (pop_frame _ below _ _ Hp). cbn [bind].
      intros H. inversion H; subst. reflexivity. }
    destruct (String.eqb (Text t) "POS").
    { destruct (pop st) as [[a st1]|e] eqn:Hp; cbn [bind]; [|discriminate].
      rewrite (pop_frame _ below _ _ Hp). cbn [bind].
      intros H. inversion H; subst. reflexivity. }
    destruct (inb (Text t) _); [|discriminate].
    destruct (pop st) as [[b st1]|e] eqn:Hp1; cbn [bind]; [|discriminate].
    destruct (pop st1) as [[a st2]|e] eqn:Hp2; cbn [bind]; [|discriminate].
    rewrite (pop_frame _ below _ _ Hp1). cbn [bind].
    rewrite (pop_frame _ below _ _ Hp2). cbn [bind].
    intros H. inversion H; subst. reflexivity.
  - destruct (inb (Text t) unaryFunctions).
    { destruct (negb _); [discriminate|]. frame_popN M.
      destruct args; [discriminate|]. intros H. inversion H; subst. reflexivity. }
    destruct (inb (Text t) ["min"; "max"]).
    { destruct (Arity t <? 2); [discriminate|]. frame_popN M.
      destruct args; [discriminate|]. intros H. inversion H; subst. reflexivity. }
    destruct (inb (Text t) ["pow"; "atan2"]).
    { destruct (negb _); [discriminate|]. frame_popN M.
      destruct args as [|x [|y args]]; try discriminate.
      destruct (String.eqb _ _); intros H; inversion H; subst; reflexivity. }
    destruct (String.eqb (Text t) "logn"); [|discriminate].
    destruct (negb _); [discriminate|]. frame_popN M.
    destruct args as [|x [|y args]]; try discriminate.
    intros H. inversion H; subst. reflexivity.
Qed.

Lemma evalLoop_frame M rpn :
  forall st st' below,
    evalLoop M rpn st = Ok st' -> evalLoop M rpn (st ++ below) = Ok (st' ++ below)%list.
Proof.
  induction rpn as [|t rpn IH]; intros st st' below H; cbn [evalLoop] in *.
  - inversion H; subst. reflexivity.
  - destruct (evalStep M t st) as [st1|e] eqn:Hs; cbn [bind] in H; [|discriminate].
    rewrite (evalStep_frame M t st st1 below Hs). cbn [bind]. now apply IH.
Qed.

Lemma evalLoop_app M pre post st :
  evalLoop M (pre ++ post) st = (st' <- evalLoop M pre st ;; evalLoop M post st').
Proof.
  revert st. induction pre as [|t pre IH]; intros st; cbn [app evalLoop bind].
  - reflexivity.
  - destruct (evalStep M t st); cbn [bind]; [apply IH|reflexivity].
Qed.

Lemma evalRPN_inv M rpn v : evalRPN M rpn = Ok v -> evalLoop M rpn [] = Ok [v].
Proof.
  unfold evalRPN. destruct (evalLoop M rpn []) as [st|e]; cbn [bind]; [|discriminate].
  destruct st as [|x [|y st]]; try discriminate. intros H. now inversion H.
Qed.

Lemma evalRPN_compose M r1 r2 o v1 v2 :
  evalRPN M r1 = Ok v1 -> evalRPN M r2 = Ok v2 ->
  Typ o = TOp -> inb (Text o) binaryOperators = true ->
  evalRPN M (r1 ++ r2 ++ [o]) = Ok (applyBinary M (Text o) v1 v2).
Proof.
  intros H1 H2 Hty Hop. apply evalRPN_inv in H1, H2.
  unfold evalRPN. rewrite evalLoop_app, H1. cbn [bind].
  pose proof (evalLoop_frame M r2 [] [v2] [v1] H2) as Hf. cbn [app] in Hf.
  rewrite evalLoop_app, Hf. cbn [bind app evalLoop].
  rewrite (evalStep_binary M o) by assumption. reflexivity.
Qed.

Lemma evalRPN_compose_unary M r f v :
  evalRPN M r = Ok v -> Typ f = TFunc -> inb (Text f) unaryFunctions = true ->
  Arity f = 1 ->
  evalRPN M (r ++ [f]) = Ok (applyUnary M (Text f) v).
Proof.
  intros H Hty Hf Har. apply evalRPN_inv in H.
  unfold evalRPN. rewrite evalLoop_app, H. cbn [bind evalLoop].
  unfold evalStep. rewrite Hty, Hf, Har. reflexivity.
Qed.

Lemma evalRPN_compose_binary_function M r1 r2 f v1 v2 :
  evalRPN M r1 = Ok v1 -> evalRPN M r2 = Ok v2 ->
  Typ f = TFunc -> Arity f = 2 ->
  (Text f = "pow" -> evalRPN M (r1 ++ r2 ++ [f]) = Ok (Pow M v1 v2)) /\
  (Text f = "atan2" -> evalRPN M (r1 ++ r2 ++ [f]) = Ok (Atan2 M v1 v2)) /\
  (Text f = "logn" -> evalRPN M (r1 ++ r2 ++ [f]) = Ok (Log M v1 / Log M v2)%float).
Proof.
  intros H1 H2 Hty Har. apply evalRPN_inv in H1, H2.
  pose proof (evalLoop_frame M r2 [] [v2] [v1] H2) as Hf. cbn [app] in Hf.
  repeat split; intros Htx; unfold evalRPN;
    rewrite evalLoop_app, H1; cbn [bind]; rewrite evalLoop_app, Hf;
    cbn [bind evalLoop]; unfold evalStep; rewrite Hty, Htx, Har; reflexivity.
Qed.

(** X15.  Evaluation in float mode is compositional.  If the postfix
    sequences [r1] and [r2] evaluate to [v1] and [v2], then [r1 r2 o]
    evaluates to [v1 o v2] for every binary operator [o], [r1 f] to [f(v1)]
    for every one-argument function [f] of arity 1, and [r1 r2 g] to
    [pow(v1, v2)], [atan2(v1, v2)] or [ln v1 / ln v2] for [g] one of [pow],
    [atan2], [logn] of arity 2. *)
Theorem evalRPN_composes M r1 r2 t v1 v2 :
  evalRPN M r1 = Ok v1 -> evalRPN M r2 = Ok v2 ->
  (Typ t = TOp -> inb (Text t) binaryOperators = true ->
   evalRPN M (r1 ++ r2 ++ [t]) = Ok (applyBinary M (Text t) v1 v2)) /\
  (Typ t = TFunc -> inb (Text t) unaryFunctions = true -> Arity t = 1 ->
   evalRPN M (r1 ++ [t]) = Ok (applyUnary M (Text t) v1)) /\
  (Typ t = TFunc -> Arity t = 2 ->
   (Text t = "pow" -> evalRPN M (r1 ++ r2 ++ [t]) = Ok (Pow M v1 v2)) /\
   (Text t = "atan2" -> evalRPN M (r1 ++ r2 ++ [t]) = Ok (Atan2 M v1 v2)) /\
   (Text t = "logn" ->
    evalRPN M (r1 ++ r2 ++ [t]) = Ok (Log M v1 / Log M v2)%float)).
Proof.
  intros H1 H2. split; [|split].
  - now apply evalRPN_compose.
  - now apply evalRPN_compose_unary.
  - now apply evalRPN_compose_binary_function.
Qed.

Lemma evalRPN_composes_witness :
  evalRPN someMathLib
    ([numTok "1" 1; numTok "2" 2; tok TOp "+"] ++ [numTok "3" 3] ++ [tok TOp "*"])
  = Ok (applyBinary someMathLib "*" 3 3).
Proof.
  apply (proj1 (evalRPN_composes someMathLib
                  [numTok "1" 1; numTok "2" 2; tok TOp "+"] [numTok "3" 3]
                  (tok TOp "*") 3 3 eq_refl eq_refl) eq_refl eq_refl).
Defined.

(** ** Float evaluator: [min] and [max] *)

Lemma SFcompare_refl x : x <> S754_nan -> SFcompare x x = Some Eq.
Proof.
  destruct x as [s|s| |s m e]; cbn; intros H; try congruence.
  - destruct s; reflexivity.
  - rewrite Z.compare_refl, Pos.compare_cont_refl. destruct s; reflexivity.
Qed.

Lemma SFltb_irrefl x : SFltb x x = false.
Proof.
  unfold SFltb. destruct x as [s|s| |s m e]; try reflexivity.
  - destruct s; reflexivity.
  - rewrite SFcompare_refl by discriminate. reflexivity.
Qed.

Lemma SFltb_not_nan x y : SFltb x y = true -> x <> S754_nan /\ y <> S754_nan.
Proof.
  unfold SFltb. destruct x, y; cbn; try discriminate; split; discriminate.
Qed.

Lemma SFltb_trans x y z : SFltb x y = true -> SFltb y z = true -> SFltb x z = true.
Proof.
  unfold SFltb, SFcompare.
  destruct x as [sx|sx| |sx mx ex], y as [sy|sy| |sy my ey], z as [sz|sz| |sz mz ez];
    try discriminate; try reflexivity;
    try (destruct sx; try discriminate; try reflexivity);
    try (destruct sy; try discriminate; try reflexivity);
    try (destruct sz; try discriminate; try reflexivity).
  all: change (Pos.compare_cont Eq mx my) with (Pos.compare mx my);
       change (Pos.compare_cont Eq my mz) with (Pos.compare my mz);
       change (Pos.compare_cont Eq mx mz) with (Pos.compare mx mz).
  all: destruct (Z.compare_spec ex ey), (Z.compare_spec ey ez), (Z.compare_spec ex ez);
       try discriminate; try reflexivity; try lia.
  all: destruct (Pos.compare_spec mx my), (Pos.compare_spec my mz),
         (Pos.compare_spec mx mz); cbn; try discriminate; try reflexivity; lia.
Qed.

Lemma ltb_irrefl x : (x <? x)%float = false.
Proof.
  rewrite FloatAxioms.ltb_spec. apply SFltb_irrefl.
Qed.

Lemma ltb_trans x y z :
  (x <? y)%float = true -> (y <? z)%float = true -> (x <? z)%float = true.
Proof.
  rewrite !FloatAxioms.ltb_spec. apply SFltb_trans.
Qed.

Lemma is_nan_Prim2SF x : is_nan x = false <-> Prim2SF x <> S754_nan.
Proof.
  unfold is_nan. rewrite FloatAxioms.eqb_spec. unfold SFeqb. split.
  - intros H C. rewrite C in H. discriminate H.
  - intros H. now rewrite SFcompare_refl.
Qed.

Lemma ltb_not_nan x y : (x <? y)%float = true -> is_nan x = false /\ is_nan y = false.
Proof.
  rewrite FloatAxioms.ltb_spec. intros H. apply SFltb_not_nan in H as [Hx Hy].
  split; now apply is_nan_Prim2SF.
Qed.

(** No argument is strictly below the result of [min], none strictly above
    the result of [max]. *)
Lemma foldMinMax_min res args :
  Forall (fun x => (x <? foldMinMax "min" res args)%float = false) (res :: args).
Proof.
  assert (Hgen : forall seen res,
            Forall (fun x => (x <? res)%float = false) seen ->
            Forall (fun x => (x <? foldMinMax "min" res args)%float = false)
                   (seen ++ args)%list).
  { induction args as [|a args IH]; intros seen r Hseen; cbn [foldMinMax].
    - now rewrite app_nil_r.
    - cbn [String.eqb Ascii.eqb Bool.eqb].
      replace (seen ++ a :: args)%list with ((seen ++ [a]) ++ args)%list
        by (rewrite <- app_assoc; reflexivity).
      apply IH. apply Forall_app. split.
      + destruct (a <? r)%float eqn:Har; [|assumption].
        eapply Forall_impl; [|exact Hseen]. cbv beta. intros x Hx.
        destruct (x <? a)%float eqn:Hxa; [|reflexivity].
        rewrite (ltb_trans x a r Hxa Har) in Hx. discriminate.
      + constructor; [|constructor].
        destruct (a <? r)%float eqn:Har; [apply ltb_irrefl|assumption]. }
  apply (Hgen [res] res). constructor; [apply ltb_irrefl|constructor].
Qed.

Lemma foldMinMax_max res args :
  Forall (fun x => (foldMinMax "max" res args <? x)%float = false) (res :: args).
Proof.
  assert (Hgen : forall seen res,
            Forall (fun x => (res <? x)%float = false) seen ->
            Forall (fun x => (foldMinMax "max" res args <? x)%float = false)
                   (seen ++ args)%list).
  { induction args as [|a args IH]; intros seen r Hseen; cbn [foldMinMax].
    - now rewrite app_nil_r.
    - cbn [String.eqb Ascii.eqb Bool.eqb].
      replace (seen ++ a :: args)%list with ((seen ++ [a]) ++ args)%list
        by (rewrite <- app_assoc; reflexivity).
      apply IH. apply Forall_app. split.
      + destruct (r <? a)%float eqn:Har; [|assumption].
        eapply Forall_impl; [|exact Hseen]. cbv beta. intros x Hx.
        destruct (a <? x)%float eqn:Hxa; [|reflexivity].
        rewrite (ltb_trans r a x Har Hxa) in Hx. discriminate.
      + constructor; [|constructor].
        destruct (r <? a)%float eqn:Har; [apply ltb_irrefl|assumption]. }
  apply (Hgen [res] res). constructor; [apply ltb_irrefl|constructor].
Qed.

(** The result is NaN exactly when the first argument is. *)
Lemma foldMinMax_nan name res args :
  is_nan (foldMinMax name res args) = is_nan res.
Proof.
  revert res. induction args as [|a args IH]; intros res; cbn [foldMinMax]; [reflexivity|].
  rewrite IH. destruct (String.eqb name "min").
  - destruct (a <? res)%float eqn:H; [|reflexivity].
    apply ltb_not_nan in H as [-> ->]. reflexivity.
  - destruct (res <? a)%float eqn:H; [|reflexivity].
    apply ltb_not_nan in H as [-> ->]. reflexivity.
Qed.

(** X16.  In float mode [min] and [max] of [n >= 2] arguments pop exactly
    their [n] arguments and push one of them; no argument is strictly below
    the result of [min], none strictly above the result of [max].  The
    result is NaN exactly when the first argument is: a NaN in first
    position is returned, a NaN in a later position is skipped, so that
    [min(0/0, 1)] is NaN and [min(1, 0/0)] is 1. *)
Theorem float_min_max_extremum M t a0 a1 args st :
  Typ t = TFunc -> Text t = "min" \/ Text t = "max" ->
  Arity t = Z.of_nat (List.length (a0 :: a1 :: args)) ->
  exists m,
    evalStep M t (rev (a0 :: a1 :: args) ++ st) = Ok (m :: st) /\
    In m (a0 :: a1 :: args) /\
    (Text t = "min" -> Forall (fun x => (x <? m)%float = false) (a0 :: a1 :: args)) /\
    (Text t = "max" -> Forall (fun x => (m <? x)%float = false) (a0 :: a1 :: args)) /\
    is_nan m = is_nan a0.
Proof.
  intros Hty Hname Har.
  exists (foldMinMax (Text t) a0 (a1 :: args)).
  split; [now apply evalStep_minmax|].
  split; [apply foldMinMax_In|].
  split; [intros ->; apply (foldMinMax_min a0 (a1 :: args))|].
  split; [intros ->; apply (foldMinMax_max a0 (a1 :: args))|].
  apply foldMinMax_nan.
Qed.

Lemma float_min_max_extremum_witness :
  exists m,
    evalStep someMathLib (mkToken TFunc "min" 0 2) (rev [nan; 1%float] ++ []) = Ok (m :: []) /\
    In m [nan; 1%float] /\
    (Text (mkToken TFunc "min" 0 2) = "min" ->
     Forall (fun x => (x <? m)%float = false) [nan; 1%float]) /\
    (Text (mkToken TFunc "min" 0 2) = "max" ->
     Forall (fun x => (m <? x)%float = false) [nan; 1%float]) /\
    is_nan m = is_nan nan.
Proof.
  apply (float_min_max_extremum someMathLib (mkToken TFunc "min" 0 2) nan 1%float [] []
           eq_refl (or_introl eq_refl) eq_refl).
Defined.

(** ** Money evaluator: postfix sequences compose *)

Lemma popNM_frame n st below args st' :
  popNM n st = Ok (args, st') -> popNM n (st ++ below) = Ok (args, (st' ++ below)%list).
Proof.
  unfold popNM. destruct (Z.ltb_spec n 0) as [|Hn]; [discriminate|].
  destruct (Z.ltb_spec (Z.of_nat (List.length st)) n) as [|Hlen]; [discriminate|].
  intros H. inversion H; subst.
  destruct (Z.ltb_spec (Z.of_nat (List.length (st ++ below))) n) as [Hc|_].
  { rewrite length_app in Hc. lia. }
  rewrite firstn_frame, skipn_frame by lia. reflexivity.
Qed.

Lemma popM_frame st below a st' :
  popM st = Ok (a, st') -> popM (st ++ below) = Ok (a, (st' ++ below)%list).
Proof.
  destruct st; [discriminate|]. intros H. inversion H; subst. reflexivity.
Qed.

Lemma evalStepMoney_frame t st st' below :
  evalStepMoney t st = Ok st' -> evalStepMoney t (st ++ below) = Ok (st' ++ below)%list.
Proof.
  unfold evalStepMoney. destruct (Typ t); try discriminate.
  - destruct (negb _); [discriminate|].
    destruct (parseCents (Text t)); cbn [bind]; [|discriminate].
    intros H. inversion H; subst. reflexivity.
  - destruct (String.eqb (Text t) "NEG").
    { destruct (popM st) as [[a st1]|e] eqn:Hp; cbn [bind]; [|discriminate].
      rewrite (popM_frame _ below _ _ Hp). cbn [bind].
      destruct (a =? MinInt64); [discriminate|].
      intros H. inversion H; subst. reflexivity. }
    destruct (String.eqb (Text t) "POS").
    { destruct (popM st) as [[a st1]|e] eqn:Hp; cbn [bind]; [|discriminate].
      rewrite (popM_frame _ below _ _ Hp). cbn [bind].
      intros H. inversion H; subst. reflexivity. }
    destruct (inb (Text t) _); [|discriminate].
    destruct (popM st) as [[b st1]|e] eqn:Hp1; cbn [bind]; [|discriminate].
    destruct (popM st1) as [[a st2]|e] eqn:Hp2; cbn [bind]; [|discriminate].
    rewrite (popM_frame _ below _ _ Hp1). cbn [bind].
    rewrite (popM_frame _ below _ _ Hp2). cbn [bind].
    destruct (applyBinaryM (Text t) a b); cbn [bind]; [|discriminate].
    intros H. inversion H; subst. reflexivity.
  - destruct (String.eqb (Text t) "abs").
    { destruct (negb _); [discriminate|].
      destruct (popNM 1 st) as [[args st1]|e] eqn:Hp; cbn [bind]; [|discriminate].
      rewrite (popNM_frame _ _ below _ _ Hp). cbn [bind].
      destruct args as [|x args]; [discriminate|].
      destruct (x =? MinInt64); [discriminate|].
      destruct (x <? 0); intros H; inversion H; subst; reflexivity. }
    destruct (inb (Text t) ["min"; "max"]); [|discriminate].
    destruct (Arity t <? 2); [discriminate|].
    destruct (popNM (Arity t) st) as [[args st1]|e] eqn:Hp; cbn [bind]; [|discriminate].
    rewrite (popNM_frame _ _ below _ _ Hp). cbn [bind].
    destruct args; [discriminate|]. intros H. inversion H; subst. reflexivity.
Qed.

Lemma evalLoopMoney_frame rpn :
  forall st st' below,
    evalLoopMoney rpn st = Ok st' ->
    evalLoopMoney rpn (st ++ below) = Ok (st' ++ below)%list.
Proof.
  induction rpn as [|t rpn IH]; intros st st' below H; cbn [evalLoopMoney] in *.
  - inversion H; subst. reflexivity.
  - destruct (evalStepMoney t st) as [st1|e] eqn:Hs; cbn [bind] in H; [|discriminate].
    rewrite (evalStepMoney_frame t st st1 below Hs). cbn [bind]. now apply IH.
Qed.

Lemma evalRPNMoney_inv rpn v : evalRPNMoney rpn = Ok v -> evalLoopMoney rpn [] = Ok [v].
Proof.
  unfold evalRPNMoney. destruct (evalLoopMoney rpn []) as [st|e]; cbn [bind]; [|discriminate].
  destruct st as [|x [|y st]]; try discriminate. intros H. now inversion H.
Qed.

Lemma evalRPNMoney_compose r1 r2 o v1 v2 :
  evalRPNMoney r1 = Ok v1 -> evalRPNMoney r2 = Ok v2 ->
  Typ o = TOp -> inb (Text o) ["+"; "-"; "*"; "/"; "%"] = true ->
  evalRPNMoney (r1 ++ r2 ++ [o]) = applyBinaryM (Text o) v1 v2.
Proof.
  intros H1 H2 Hty Hop. apply evalRPNMoney_inv in H1, H2.
  unfold evalRPNMoney. rewrite evalLoopMoney_app, H1. cbn [bind].
  pose proof (evalLoopMoney_frame r2 [] [v2] [v1] H2) as Hf. cbn [app] in Hf.
  rewrite evalLoopMoney_app, Hf. cbn [bind app evalLoopMoney].
  rewrite (evalStepMoney_binary o) by assumption.
  destruct (applyBinaryM (Text o) v1 v2); reflexivity.
Qed.

Lemma parseCents_inInt64 txt v :
  isNumericLiteral txt = true -> parseCents txt = Ok v -> inInt64 v.
Proof.
  intros Hlit. apply isNumericLiteral_spec in Hlit as (Hne & ip & frac & -> & Hip & Hfp).
  rewrite (parseCents_literal ip frac Hip Hfp Hne).
  destruct (2 <? String.length (fracDigits frac))%nat eqn:Hlen; [discriminate|].
  apply Nat.ltb_ge in Hlen.
  destruct (MaxInt64 <? digitsToZ 0 ip); [discriminate|].
  destruct (MaxInt64 <? digitsToZ 0 ip * 100); [discriminate|].
  destruct (Z.ltb_spec MaxInt64 (centsOf ip frac)) as [|Hle]; [discriminate|].
  intros Hok. inversion Hok; subst.
  pose proof (digitsToZ_nonneg ip Hip).
  destruct (padFrac_value _ Hfp Hlen) as (_ & _ & Hf).
  unfold centsOf in *. int64_bounds. lia.
Qed.

Lemma applyBinaryM_inInt64 op a b v :
  inInt64 a -> inInt64 b -> applyBinaryM op a b = Ok v -> inInt64 v.
Proof.
  intros Ha Hb.
  assert (H0 : inInt64 0) by (int64_bounds; lia).
  assert (H100 : inInt64 100) by (int64_bounds; lia).
  assert (H10000 : inInt64 10000) by (int64_bounds; lia).
  unfold applyBinaryM.
  destruct (String.eqb op "+").
  { rewrite addInt64_spec by assumption.
    destruct (inInt64b (a + b)) eqn:E; [|discriminate].
    intros H. inversion H; subst. now apply inInt64b_spec. }
  destruct (String.eqb op "-").
  { rewrite subInt64_spec by assumption.
    destruct (inInt64b (a - b)) eqn:E; [|discriminate].
    intros H. inversion H; subst. now apply inInt64b_spec. }
  destruct (String.eqb op "*").
  { rewrite mulInt64_spec by assumption.
    destruct (inInt64b (a * b)) eqn:E; [|discriminate].
    apply inInt64b_spec in E. cbn [bind]. unfold moneyScale.
    rewrite divRound_spec by (try assumption; lia).
    intros H. inversion H; subst.
    apply roundHalfAway_inInt64; try assumption; lia. }
  destruct (String.eqb op "/").
  { unfold moneyScale. rewrite mulInt64_spec by assumption.
    destruct (inInt64b (a * 100)) eqn:E; [|discriminate].
    apply inInt64b_spec in E. cbn [bind].
    destruct (Z.eq_dec b 0) as [->|Hb0]; [discriminate|].
    assert (Hex : ~ (a * 100 = MinInt64 /\ b = -1))
      by (intros [C _]; now apply (scaled_not_MinInt64 a)).
    rewrite divRound_spec by assumption.
    intros H. inversion H; subst.
    now apply roundHalfAway_inInt64. }
  destruct (String.eqb op "%").
  { rewrite mulInt64_spec by assumption.
    destruct (inInt64b (a * b)) eqn:E; [|discriminate].
    apply inInt64b_spec in E. cbn [bind]. unfold percentScale.
    rewrite divRound_spec by (try assumption; lia).
    intros H. inversion H; subst.
    apply roundHalfAway_inInt64; try assumption; lia. }
  intros H. inversion H; subst. assumption.
Qed.

Lemma foldMinMaxM_In name res args : In (foldMinMaxM name res args) (res :: args).
Proof.
  revert res. induction args as [|a args IH]; intros res; cbn [foldMinMaxM].
  - now left.
  - match goal with |- In (foldMinMaxM name ?r args) _ => destruct (IH r) as [H|H] end.
    + rewrite <- H.
      destruct (String.eqb name "min"), (a <? res), (res <? a); cbn; auto.
    + right. now right.
Qed.

Lemma evalStepMoney_inInt64 t st st' :
  Forall inInt64 st -> evalStepMoney t st = Ok st' -> Forall inInt64 st'.
Proof.
  intros Hst. unfold evalStepMoney. destruct (Typ t); try discriminate.
  - destruct (isNumericLiteral (Text t)) eqn:Hlit; cbn [negb]; [|discriminate].
    destruct (parseCents (Text t)) as [v|e] eqn:Hp; cbn [bind]; [|discriminate].
    intros H. inversion H; subst. constructor; [|assumption].
    now apply (parseCents_inInt64 (Text t)).
  - destruct (String.eqb (Text t) "NEG").
    { destruct st as [|a st0]; cbn [popM bind]; [discriminate|].
      apply Forall_cons_iff in Hst as [Ha Hst].
      destruct (Z.eqb_spec a MinInt64) as [|Hmin]; [discriminate|].
      intros Hok. inversion Hok; subst. constructor; [|assumption].
      rewrite wrap64_id by (int64_bounds; lia). int64_bounds. lia. }
    destruct (String.eqb (Text t) "POS").
    { destruct st as [|a st0]; cbn [popM bind]; [discriminate|].
      intros H. now inversion H; subst. }
    destruct (inb (Text t) _); [|discriminate].
    destruct st as [|b [|a st0]]; cbn [popM bind]; try discriminate.
    apply Forall_cons_iff in Hst as [Hb Hst].
    apply Forall_cons_iff in Hst as [Ha Hst].
    destruct (applyBinaryM (Text t) a b) as [r|e] eqn:Hr; cbn [bind]; [|discriminate].
    intros H. inversion H; subst. constructor; [|assumption].
    now apply (applyBinaryM_inInt64 (Text t) a b).
  - destruct (String.eqb (Text t) "abs").
    { destruct (negb _); [discriminate|].
      destruct (popNM 1 st) as [[args st0]|e] eqn:Hp; cbn [bind]; [|discriminate].
      apply popNM_ok in Hp as (_ & Hlen & Hsplit). subst st.
      apply Forall_app in Hst as [Hargs Hst0]. apply Forall_rev in Hargs.
      rewrite rev_involutive in Hargs.
      destruct args as [|x args]; [discriminate|].
      apply Forall_cons_iff in Hargs as [Hx _].
      destruct (Z.eqb_spec x MinInt64) as [|Hmin]; [discriminate|].
      destruct (Z.ltb_spec x 0) as [Hneg|Hpos]; intros Hok; inversion Hok; subst;
        (constructor; [|assumption]).
      - rewrite wrap64_id by (int64_bounds; lia). int64_bounds. lia.
      - assumption. }
    destruct (inb (Text t) ["min"; "max"]); [|discriminate].
    destruct (Arity t <? 2); [discriminate|].
    destruct (popNM (Arity t) st) as [[args st0]|e] eqn:Hp; cbn [bind]; [|discriminate].
    apply popNM_ok in Hp as (_ & Hlen & Hsplit). subst st.
    apply Forall_app in Hst as [Hargs Hst0]. apply Forall_rev in Hargs.
    rewrite rev_involutive in Hargs.
    destruct args as [|a0 args]; [discriminate|].
    intros H. inversion H; subst. constructor; [|assumption].
    rewrite Forall_forall in Hargs. apply Hargs. apply foldMinMaxM_In.
Qed.

Lemma evalRPNMoney_inInt64 rpn v : evalRPNMoney rpn = Ok v -> inInt64 v.
Proof.
  unfold evalRPNMoney.
  assert (Hloop : forall st st', Forall inInt64 st ->
                                 evalLoopMoney rpn st = Ok st' -> Forall inInt64 st').
  { induction rpn as [|t rpn IH]; intros st st' Hst H; cbn [evalLoopMoney] in H.
    - now inversion H; subst.
    - destruct (evalStepMoney t st) as [st1|e] eqn:Hs; cbn [bind] in H; [|discriminate].
      apply (IH st1 st'); [|assumption]. now apply (evalStepMoney_inInt64 t st). }
  destruct (evalLoopMoney rpn []) as [st|e] eqn:Hl; cbn [bind]; [|discriminate].
  specialize (Hloop [] st (Forall_nil _) Hl).
  destruct st as [|x [|y st]]; try discriminate.
  intros H. inversion H; subst. now apply Forall_cons_iff in Hloop as [Hx _].
Qed.

Lemma evalRPNMoney_operands r1 r2 o v1 v2 :
  evalRPNMoney r1 = Ok v1 -> evalRPNMoney r2 = Ok v2 ->
  Typ o = TOp -> inb (Text o) ["+"; "-"; "*"; "/"; "%"] = true ->
  inInt64 v1 /\ inInt64 v2 /\
  evalRPNMoney (r1 ++ r2 ++ [o]) = applyBinaryM (Text o) v1 v2.
Proof.
  intros H1 H2 Hty Hop. split; [now apply (evalRPNMoney_inInt64 r1)|].
  split; [now apply (evalRPNMoney_inInt64 r2)|].
  now apply evalRPNMoney_compose.
Qed.

(** X17.  Evaluation in money mode is compositional and exact.  If [r1] and
    [r2] evaluate to [v1] and [v2] cents, then [r1 r2 o] evaluates to the
    sum or difference when it fits int64, to [v1 * v2 / 100],
    [v1 * 100 / v2] or [v1 * v2 / 10000] rounded half away from zero when
    the product fits int64 (and [v2] is not zero), and fails with the
    operator's overflow (or division-by-zero) error otherwise. *)
Theorem money_binary_operation r1 r2 o v1 v2 :
  evalRPNMoney r1 = Ok v1 -> evalRPNMoney r2 = Ok v2 -> Typ o = TOp ->
  (Text o = "+" ->
   evalRPNMoney (r1 ++ r2 ++ [o]) =
     if inInt64b (v1 + v2) then Ok (v1 + v2) else Err ErrOverflowAdd) /\
  (Text o = "-" ->
   evalRPNMoney (r1 ++ r2 ++ [o]) =
     if inInt64b (v1 - v2) then Ok (v1 - v2) else Err ErrOverflowSub) /\
  (Text o = "*" ->
   evalRPNMoney (r1 ++ r2 ++ [o]) =
     if inInt64b (v1 * v2) then Ok (roundHalfAway (v1 * v2) 100)
     else Err ErrOverflowMul) /\
  (Text o = "/" ->
   evalRPNMoney (r1 ++ r2 ++ [o]) =
     if inInt64b (v1 * 100) then
       if v2 =? 0 then Err ErrDivisionByZero else Ok (roundHalfAway (v1 * 100) v2)
     else Err ErrOverflowMul) /\
  (Text o = "%" ->
   evalRPNMoney (r1 ++ r2 ++ [o]) =
     if inInt64b (v1 * v2) then Ok (roundHalfAway (v1 * v2) 10000)
     else Err ErrOverflowMul).
Proof.
  intros H1 H2 Hty.
  repeat split; intros Htx;
    destruct (evalRPNMoney_operands r1 r2 o v1 v2 H1 H2 Hty) as (Hv1 & Hv2 & ->);
    try (rewrite Htx; reflexivity); rewrite Htx.
  - now apply addInt64_spec.
  - now apply subInt64_spec.
  - now apply applyBinaryM_mul.
  - now apply applyBinaryM_div.
  - now apply applyBinaryM_percent.
Qed.

Lemma money_binary_operation_witness :
  evalRPNMoney ([numTok "10" 10] ++ [numTok "3" 3] ++ [tok TOp "/"]) = Ok 333.
Proof.
  apply (proj1 (proj2 (proj2 (proj2
    (money_binary_operation [numTok "10" 10] [numTok "3" 3] (tok TOp "/") 1000 300
       eq_refl eq_refl eq_refl)))) eq_refl).
Defined.

(** ** Money evaluator: laws of the operators *)

Lemma money_commutative a b :
  inInt64 a -> inInt64 b ->
  applyBinaryM "+" a b = applyBinaryM "+" b a /\
  applyBinaryM "*" a b = applyBinaryM "*" b a /\
  applyBinaryM "%" a b = applyBinaryM "%" b a.
Proof.
  intros Ha Hb.
  rewrite !applyBinaryM_mul, !applyBinaryM_percent by assumption.
  rewrite (Z.mul_comm b a). repeat split.
  change (applyBinaryM "+" a b) with (addInt64 a b).
  change (applyBinaryM "+" b a) with (addInt64 b a).
  rewrite !addInt64_spec by assumption. now rewrite (Z.add_comm b a).
Qed.

(** X18.  In money mode [+], [*] and [%] are commutative on whole
    subexpressions: swapping the operands gives the same value or the same
    error.  In particular [a % b] and [b % a] agree. *)
Theorem money_operands_commute r1 r2 o v1 v2 :
  evalRPNMoney r1 = Ok v1 -> evalRPNMoney r2 = Ok v2 ->
  Typ o = TOp -> inb (Text o) ["+"; "*"; "%"] = true ->
  evalRPNMoney (r1 ++ r2 ++ [o]) = evalRPNMoney (r2 ++ r1 ++ [o]).
Proof.
  intros H1 H2 Hty Hop.
  assert (Hop5 : inb (Text o) ["+"; "-"; "*"; "/"; "%"] = true).
  { cbn [inb] in *. rewrite !orb_true_iff in *.
    destruct Hop as [H|[H|[H|H]]]; try discriminate; rewrite H; tauto. }
  destruct (evalRPNMoney_operands r1 r2 o v1 v2 H1 H2 Hty Hop5) as (Hv1 & Hv2 & ->).
  destruct (evalRPNMoney_operands r2 r1 o v2 v1 H2 H1 Hty Hop5) as (_ & _ & ->).
  destruct (money_commutative v1 v2 Hv1 Hv2) as (Ca & Cm & Cp).
  cbn [inb] in Hop. rewrite !orb_true_iff in Hop.
  destruct Hop as [H|[H|[H|H]]]; try discriminate;
    apply String.eqb_eq in H; rewrite H; assumption.
Qed.

Lemma money_operands_commute_witness :
  evalRPNMoney ([numTok "7.5" 0] ++ [numTok "2" 0] ++ [tok TOp "%"]) =
  evalRPNMoney ([numTok "2" 0] ++ [numTok "7.5" 0] ++ [tok TOp "%"]).
Proof.
  apply (money_operands_commute [numTok "7.5" 0] [numTok "2" 0] (tok TOp "%") 750 200);
    reflexivity.
Defined.

Lemma roundHalfAway_exact a d : d <> 0 -> roundHalfAway (a * d) d = a.
Proof.
  intros Hd. unfold roundHalfAway.
  rewrite Z.quot_mul, Z.rem_mul by assumption.
  destruct (Z.leb_spec (Z.abs d) (2 * Z.abs 0)); [lia|reflexivity].
Qed.

Lemma money_unit a :
  inInt64 a ->
  applyBinaryM "*" a 100 =
    (if inInt64b (a * 100) then Ok a else Err ErrOverflowMul) /\
  applyBinaryM "/" a 100 =
    (if inInt64b (a * 100) then Ok a else Err ErrOverflowMul).
Proof.
  intros Ha.
  assert (H100 : inInt64 100) by (int64_bounds; lia).
  rewrite applyBinaryM_mul, applyBinaryM_div by assumption.
  rewrite roundHalfAway_exact by lia. cbn [Z.eqb]. split; reflexivity.
Qed.

(** X19.  Multiplying or dividing an amount [v] by 1.00 returns [v] exactly
    when [v * 100] fits int64; otherwise it fails with the multiplication
    overflow error, although [v] itself is representable. *)
Theorem money_unit_factor r one o v :
  evalRPNMoney r = Ok v -> evalRPNMoney one = Ok 100 ->
  Typ o = TOp -> Text o = "*" \/ Text o = "/" ->
  evalRPNMoney (r ++ one ++ [o]) =
    if inInt64b (v * 100) then Ok v else Err ErrOverflowMul.
Proof.
  intros H1 H2 Hty Hop.
  assert (Hop5 : inb (Text o) ["+"; "-"; "*"; "/"; "%"] = true)
    by (destruct Hop as [-> | ->]; reflexivity).
  destruct (evalRPNMoney_operands r one o v 100 H1 H2 Hty Hop5) as (Hv & _ & ->).
  destruct (money_unit v Hv) as [Hm Hd].
  destruct Hop as [-> | ->]; assumption.
Qed.

Lemma money_unit_factor_witness :
  evalRPNMoney ([numTok "92233720368547758.07" 0] ++ [numTok "1" 0] ++ [tok TOp "*"])
  = Err ErrOverflowMul.
Proof.
  apply (money_unit_factor [numTok "92233720368547758.07" 0] [numTok "1" 0]
           (tok TOp "*") MaxInt64 eq_refl eq_refl eq_refl (or_introl eq_refl)).
Defined.

Lemma money_add_sub a b c :
  inInt64 a -> inInt64 b ->
  applyBinaryM "+" a b = Ok c -> applyBinaryM "-" c b = Ok a /\ applyBinaryM "-" c a = Ok b.
Proof.
  intros Ha Hb.
  change (applyBinaryM "+" a b) with (addInt64 a b).
  change (applyBinaryM "-" c b) with (subInt64 c b).
  change (applyBinaryM "-" c a) with (subInt64 c a).
  rewrite addInt64_spec by assumption.
  destruct (inInt64b (a + b)) eqn:E; [|discriminate].
  apply inInt64b_spec in E. intros H. inversion H; subst.
  rewrite !subInt64_spec by assumption.
  replace (a + b - b) with a by lia. replace (a + b - a) with b by lia.
  apply inInt64b_spec in Ha, Hb. now rewrite Ha, Hb.
Qed.

(** X20.  Subtraction undoes addition in money mode: when [e1 + e2]
    evaluates without overflow, it is the exact sum, and subtracting either
    operand from it gives back the other. *)
Theorem money_addition_undone r1 r2 plus minus v1 v2 c :
  evalRPNMoney r1 = Ok v1 -> evalRPNMoney r2 = Ok v2 ->
  Typ plus = TOp -> Text plus = "+" -> Typ minus = TOp -> Text minus = "-" ->
  evalRPNMoney (r1 ++ r2 ++ [plus]) = Ok c ->
  c = v1 + v2 /\
  evalRPNMoney ((r1 ++ r2 ++ [plus]) ++ r2 ++ [minus]) = Ok v1 /\
  evalRPNMoney ((r1 ++ r2 ++ [plus]) ++ r1 ++ [minus]) = Ok v2.
Proof.
  intros H1 H2 Hp Hpt Hm Hmt Hsum.
  assert (Hop : forall o, Text o = "+" \/ Text o = "-" ->
                inb (Text o) ["+"; "-"; "*"; "/"; "%"] = true)
    by (intros o [-> | ->]; reflexivity).
  destruct (evalRPNMoney_operands r1 r2 plus v1 v2 H1 H2 Hp (Hop _ (or_introl Hpt)))
    as (Hv1 & Hv2 & E).
  rewrite Hsum, Hpt in E. symmetry in E.
  destruct (money_add_sub v1 v2 c Hv1 Hv2 E) as [S1 S2].
  change (applyBinaryM "+" v1 v2) with (addInt64 v1 v2) in E.
  rewrite addInt64_spec in E by assumption.
  destruct (inInt64b (v1 + v2)); [|discriminate]. inversion E; subst c.
  split; [reflexivity|]. split.
  - destruct (evalRPNMoney_operands _ r2 minus _ v2 Hsum H2 Hm (Hop _ (or_intror Hmt)))
      as (_ & _ & ->). now rewrite Hmt.
  - destruct (evalRPNMoney_operands _ r1 minus _ v1 Hsum H1 Hm (Hop _ (or_intror Hmt)))
      as (_ & _ & ->). now rewrite Hmt.
Qed.

Lemma money_addition_undone_witness :
  evalRPNMoney (([numTok "1.25" 0] ++ [numTok "2" 0] ++ [tok TOp "+"]) ++
                [numTok "2" 0] ++ [tok TOp "-"]) = Ok 125.
Proof.
  apply (money_addition_undone [numTok "1.25" 0] [numTok "2" 0]
           (tok TOp "+") (tok TOp "-") 125 200 325
           eq_refl eq_refl eq_refl eq_refl eq_refl eq_refl eq_refl).
Defined.

Lemma money_division_by_zero op a b :
  inInt64 a -> inInt64 b -> inb op ["+"; "-"; "*"; "/"; "%"] = true ->
  (applyBinaryM op a b = Err ErrDivisionByZero <->
   op = "/" /\ b = 0 /\ inInt64 (a * 100)).
Proof.
  intros Ha Hb Hop. cbn [inb] in Hop. rewrite !orb_true_iff in Hop.
  destruct Hop as [H|[H|[H|[H|[H|H]]]]]; try discriminate;
    apply String.eqb_eq in H; subst op.
  - change (applyBinaryM "+" a b) with (addInt64 a b).
    rewrite addInt64_spec by assumption.
    destruct (inInt64b (a + b)); split; try discriminate; intros [C _]; discriminate C.
  - change (applyBinaryM "-" a b) with (subInt64 a b).
    rewrite subInt64_spec by assumption.
    destruct (inInt64b (a - b)); split; try discriminate; intros [C _]; discriminate C.
  - rewrite applyBinaryM_mul by assumption.
    destruct (inInt64b (a * b)); split; try discriminate; intros [C _]; discriminate C.
  - rewrite applyBinaryM_div by assumption.
    destruct (inInt64b (a * 100)) eqn:E.
    + apply inInt64b_spec in E. destruct (Z.eqb_spec b 0) as [->|Hb0].
      * split; [intros _; split; [reflexivity|split; [reflexivity|exact E]]|reflexivity].
      * split; [discriminate|]. intros (_ & C & _). contradiction.
    + apply inInt64b_false in E. split; [discriminate|]. intros (_ & _ & C). contradiction.
  - rewrite applyBinaryM_percent by assumption.
    destruct (inInt64b (a * b)); split; try discriminate; intros [C _]; discriminate C.
Qed.

(** X21.  The money evaluator reports a division by zero for [e1 o e2]
    exactly when [o] is [/], [e2] evaluates to zero and the scaled dividend
    [v1 * 100] fits int64 (else the overflow is reported first); [*] and
    [%], which also divide, never report it. *)
Theorem money_division_by_zero_cases r1 r2 o v1 v2 :
  evalRPNMoney r1 = Ok v1 -> evalRPNMoney r2 = Ok v2 ->
  Typ o = TOp -> inb (Text o) ["+"; "-"; "*"; "/"; "%"] = true ->
  (evalRPNMoney (r1 ++ r2 ++ [o]) = Err ErrDivisionByZero <->
   Text o = "/" /\ v2 = 0 /\ inInt64 (v1 * 100)).
Proof.
  intros H1 H2 Hty Hop.
  destruct (evalRPNMoney_operands r1 r2 o v1 v2 H1 H2 Hty Hop) as (Hv1 & Hv2 & ->).
  now apply money_division_by_zero.
Qed.

Lemma money_division_by_zero_cases_witness :
  evalRPNMoney ([numTok "5" 0] ++ [numTok "0" 0] ++ [tok TOp "/"]) = Err ErrDivisionByZero.
Proof.
  apply (proj2 (money_division_by_zero_cases [numTok "5" 0] [numTok "0" 0] (tok TOp "/")
                  500 0 eq_refl eq_refl eq_refl eq_refl)).
  split; [reflexivity|split; [reflexivity|]]. unfold inInt64, MinInt64, MaxInt64. lia.
Defined.

(** ** Money evaluator: [min] and [max] *)

Lemma foldMinMaxM_min res args :
  let m := foldMinMaxM "min" res args in
  In m (res :: args) /\ Forall (fun x => m <= x) (res :: args).
Proof.
  revert res. induction args as [|a args IH]; intros res; cbn [foldMinMaxM].
  - split; [now left|]. constructor; [lia|constructor].
  - cbn [String.eqb Ascii.eqb Bool.eqb].
    destruct (Z.ltb_spec a res) as [Hlt|Hge].
    + destruct (IH a) as [Hin Hall]. cbv zeta in *.
      set (m := foldMinMaxM "min" a args) in *.
      apply Forall_cons_iff in Hall as [Hm Hall]. split.
      * destruct Hin as [<-|Hin]; [right; now left|right; now right].
      * constructor; [lia|]. now constructor.
    + destruct (IH res) as [Hin Hall]. cbv zeta in *.
      set (m := foldMinMaxM "min" res args) in *.
      apply Forall_cons_iff in Hall as [Hm Hall]. split.
      * destruct Hin as [<-|Hin]; [now left|right; now right].
      * constructor; [assumption|]. constructor; [lia|assumption].
Qed.

Lemma foldMinMaxM_max res args :
  let m := foldMinMaxM "max" res args in
  In m (res :: args) /\ Forall (fun x => x <= m) (res :: args).
Proof.
  revert res. induction args as [|a args IH]; intros res; cbn [foldMinMaxM].
  - split; [now left|]. constructor; [lia|constructor].
  - cbn [String.eqb Ascii.eqb Bool.eqb].
    destruct (Z.ltb_spec res a) as [Hlt|Hge].
    + destruct (IH a) as [Hin Hall]. cbv zeta in *.
      set (m := foldMinMaxM "max" a args) in *.
      apply Forall_cons_iff in Hall as [Hm Hall]. split.
      * destruct Hin as [<-|Hin]; [right; now left|right; now right].
      * constructor; [lia|]. now constructor.
    + destruct (IH res) as [Hin Hall]. cbv zeta in *.
      set (m := foldMinMaxM "max" res args) in *.
      apply Forall_cons_iff in Hall as [Hm Hall]. split.
      * destruct Hin as [<-|Hin]; [now left|right; now right].
      * constructor; [assumption|]. constructor; [lia|assumption].
Qed.

Lemma popNM_args args st :
  popNM (Z.of_nat (List.length args)) (rev args ++ st) = Ok (args, st).
Proof.
  unfold popNM.
  destruct (Z.ltb_spec (Z.of_nat (List.length args)) 0); [lia|].
  destruct (Z.ltb_spec (Z.of_nat (List.length (rev args ++ st)))
                       (Z.of_nat (List.length args))) as [H1|H1].
  - rewrite length_app, length_rev in H1. lia.
  - rewrite Nat2Z.id, <- (length_rev args), firstn_length_app, skipn_length_app,
      rev_involutive.
    reflexivity.
Qed.

Lemma evalStepMoney_minmax t a0 a1 args st :
  Typ t = TFunc -> Text t = "min" \/ Text t = "max" ->
  Arity t = Z.of_nat (List.length (a0 :: a1 :: args)) ->
  evalStepMoney t (rev (a0 :: a1 :: args) ++ st)
    = Ok (foldMinMaxM (Text t) a0 (a1 :: args) :: st).
Proof.
  intros Hty Hname Har. unfold evalStepMoney. rewrite Hty.
  replace (String.eqb (Text t) "abs") with false
    by (destruct Hname as [-> | ->]; reflexivity).
  replace (inb (Text t) ["min"; "max"]) with true
    by (destruct Hname as [-> | ->]; reflexivity).
  destruct (Z.ltb_spec (Arity t) 2) as [H|_].
  { rewrite Har in H. cbn [List.length] in H. lia. }
  rewrite Har, popNM_args. reflexivity.
Qed.

(** X22.  In money mode [min] and [max] of [n >= 2] arguments pop exactly
    their [n] arguments and push one of them: a least one for [min], a
    greatest one for [max]. *)
Theorem money_min_max_extremum t a0 a1 args st :
  Typ t = TFunc -> Text t = "min" \/ Text t = "max" ->
  Arity t = Z.of_nat (List.length (a0 :: a1 :: args)) ->
  exists m,
    evalStepMoney t (rev (a0 :: a1 :: args) ++ st) = Ok (m :: st) /\
    In m (a0 :: a1 :: args) /\
    (Text t = "min" -> Forall (fun x => m <= x) (a0 :: a1 :: args)) /\
    (Text t = "max" -> Forall (fun x => x <= m) (a0 :: a1 :: args)).
Proof.
  intros Hty Hname Har.
  exists (foldMinMaxM (Text t) a0 (a1 :: args)).
  split; [now apply evalStepMoney_minmax|].
  split; [apply foldMinMaxM_In|].
  split; intros ->; [apply (foldMinMaxM_min a0 (a1 :: args))
                    |apply (foldMinMaxM_max a0 (a1 :: args))].
Qed.

Lemma money_min_max_extremum_witness :
  exists m,
    evalStepMoney (mkToken TFunc "min" 0 3) (rev [300; -150; 200] ++ [7]) = Ok (m :: [7]) /\
    In m [300; -150; 200] /\
    (Text (mkToken TFunc "min" 0 3) = "min" -> Forall (fun x => m <= x) [300; -150; 200]) /\
    (Text (mkToken TFunc "min" 0 3) = "max" -> Forall (fun x => x <= m) [300; -150; 200]).
Proof.
  apply (money_min_max_extremum (mkToken TFunc "min" 0 3) 300 (-150) [200] [7]
           eq_refl (or_introl eq_refl) eq_refl).
Defined.

(** ** Rounding division and magnitudes *)

Lemma roundHalfAway_opp_l n d :
  d <> 0 -> roundHalfAway (- n) d = - roundHalfAway n d.
Proof.
  intros Hd. unfold roundHalfAway.
  rewrite Z.quot_opp_l, Z.rem_opp_l, Z.abs_opp, Z.sgn_opp by assumption.
  destruct (Z.abs d <=? 2 * Z.abs (Z.rem n d)); lia.
Qed.

Lemma roundHalfAway_opp_r n d :
  d <> 0 -> roundHalfAway n (- d) = - roundHalfAway n d.
Proof.
  intros Hd. unfold roundHalfAway.
  rewrite Z.quot_opp_r, Z.rem_opp_r, Z.abs_opp, Z.sgn_opp by assumption.
  destruct (Z.abs d <=? 2 * Z.abs (Z.rem n d)); lia.
Qed.

Lemma divRound_symmetric n d :
  inInt64 n -> inInt64 d -> d <> 0 -> n <> MinInt64 -> d <> MinInt64 ->
  divRound n d = Ok (roundHalfAway n d) /\
  divRound (- n) d = Ok (- roundHalfAway n d) /\
  divRound n (- d) = Ok (- roundHalfAway n d) /\
  divRound (- n) (- d) = Ok (roundHalfAway n d).
Proof.
  intros Hn Hd Hd0 Hn1 Hd1.
  assert (Hn' : inInt64 (- n)) by (int64_bounds; lia).
  assert (Hd' : inInt64 (- d)) by (int64_bounds; lia).
  repeat split.
  - apply divRound_spec; try assumption. intros [C _]. contradiction.
  - rewrite <- roundHalfAway_opp_l by assumption.
    apply divRound_spec; try assumption. intros [C _]. int64_bounds. lia.
  - rewrite <- roundHalfAway_opp_r by assumption.
    apply divRound_spec; try assumption; [lia|]. intros [C _]. contradiction.
  - replace (roundHalfAway n d) with (roundHalfAway (- n) (- d)).
    + apply divRound_spec; try assumption; [lia|]. intros [C _]. int64_bounds. lia.
    + rewrite roundHalfAway_opp_r, roundHalfAway_opp_l by assumption. lia.
Qed.

(** X23.  [divRound] is symmetric in the signs of its operands: negating
    the dividend or the divisor negates the rounded quotient, and negating
    both leaves it unchanged (the smallest int64, which has no negation,
    apart). *)
Theorem divRound_sign_symmetry n d :
  inInt64 n -> inInt64 d -> d <> 0 -> n <> MinInt64 -> d <> MinInt64 ->
  exists q,
    divRound n d = Ok q /\
    divRound (- n) d = Ok (- q) /\
    divRound n (- d) = Ok (- q) /\
    divRound (- n) (- d) = Ok q.
Proof.
  intros Hn Hd Hd0 Hn1 Hd1. exists (roundHalfAway n d).
  now apply divRound_symmetric.
Qed.

Lemma divRound_sign_symmetry_witness :
  exists q,
    divRound 5 2 = Ok q /\
    divRound (- 5) 2 = Ok (- q) /\
    divRound 5 (- 2) = Ok (- q) /\
    divRound (- 5) (- 2) = Ok q.
Proof.
  apply (divRound_sign_symmetry 5 2); unfold inInt64, MinInt64, MaxInt64; lia.
Defined.

(** X24.  [absUint64] returns the magnitude of every int64, the smallest
    one included, whose magnitude [2^63] fits uint64 only; it is the one
    value on which the result reaches [2^63]. *)
Theorem absUint64_magnitude v :
  inInt64 v ->
  absUint64 v = Z.abs v /\ 0 <= absUint64 v <= 2 ^ 63 /\
  (absUint64 v = 2 ^ 63 <-> v = MinInt64).
Proof.
  intros H. rewrite (absUint64_abs v H). int64_bounds. lia.
Qed.

Lemma absUint64_magnitude_witness :
  absUint64 MinInt64 = Z.abs MinInt64 /\ 0 <= absUint64 MinInt64 <= 2 ^ 63 /\
  (absUint64 MinInt64 = 2 ^ 63 <-> MinInt64 = MinInt64).
Proof.
  apply (absUint64_magnitude MinInt64). unfold inInt64, MinInt64, MaxInt64. lia.
Defined.
